(** * PackFlow: a shallow embedding of [packflow/__init__.py]

    Nodes are Python objects compared by identity; they are modelled as
    handles ([node := nat]) into a table of node objects.  Code that can
    raise runs in a state-and-outcome monad; the shared context and
    whatever else user code can reach is the [user] component of the state.
    Lists stand for Python lists and for dicts whose iteration order is
    used (insertion order), [gset] for Python sets, [gmap] for dicts that
    are only looked up. *)

From stdpp Require Import gmap strings list sets.
From Stdlib Require Import ZArith Lia.

Set Warnings "-clear-no-such-hyp".

Local Open Scope nat_scope.

(** ** Exceptions and outcomes *)

(** [BaseOnly] stands for the exceptions that derive from [BaseException]
    but not from [Exception] (KeyboardInterrupt, SystemExit): the clause
    [except Exception] does not catch them. *)
Inductive exn : Type :=
| AttributeError
| KeyError
| RecursionError
| UserException (tag : nat)
| BaseOnly (tag : nat).

Definition is_Exception (e : exn) : bool :=
  match e with
  | BaseOnly _ => false
  | _ => true
  end.

(** [Diverge]: the call never returns (a node that hangs, or a loop of the
    model that ran out of fuel). *)
Inductive outcome (A : Type) : Type :=
| Ok (a : A)
| Raise (e : exn)
| Diverge.
Arguments Ok {A} a.
Arguments Raise {A} e.
Arguments Diverge {A}.

Definition is_Ok {A} (r : outcome A) : Prop :=
  match r with Ok _ => True | _ => False end.

(** ** State and outcome monad *)

Definition M (S A : Type) : Type := S -> outcome A * S.

Definition ret {S A} (a : A) : M S A := fun s => (Ok a, s).

Definition bind {S A B} (c : M S A) (k : A -> M S B) : M S B :=
  fun s =>
    match c s with
    | (Ok a, s') => k a s'
    | (Raise e, s') => (Raise e, s')
    | (Diverge, s') => (Diverge, s')
    end.

Definition raise {S A} (e : exn) : M S A := fun s => (Raise e, s).
Definition diverge {S A} : M S A := fun s => (Diverge, s).
Definition get {S} : M S S := fun s => (Ok s, s).
Definition modify {S} (f : S -> S) : M S unit := fun s => (Ok tt, f s).

(** A computation without state of its own, run inside a stateful one. *)
Definition lift_outcome {S A} (r : outcome A) : M S A := fun s => (r, s).

(** [try: ... except Exception as e:] around [c]. *)
Definition try_except {S A} (c : M S A) : M S (A + exn) :=
  fun s =>
    match c s with
    | (Ok a, s') => (Ok (inl a), s')
    | (Raise e, s') =>
        if is_Exception e then (Ok (inr e), s') else (Raise e, s')
    | (Diverge, s') => (Diverge, s')
    end.

(** stdpp's notations [x ← c; k] and [c;; k] stand for [bind]. *)
#[global] Instance M_ret {S} : MRet (M S) := fun A a => ret a.
#[global] Instance M_bind {S} : MBind (M S) := fun A B k c => bind c k.

(** The loop [for x in l: g = f(x, g)] with early exit on an exception. *)
Fixpoint for_each {A G} (f : A -> G -> outcome G) (l : list A) (g : G)
  : outcome G :=
  match l with
  | [] => Ok g
  | x :: l' =>
      match f x g with
      | Ok g' => for_each f l' g'
      | Raise e => Raise e
      | Diverge => Diverge
      end
  end.

(** ** Insertion-ordered dicts *)

Section dict.
Context {K V : Type} `{EqDecision K}.

Definition dict : Type := list (K * V).

Fixpoint dict_get (d : dict) (k : K) : option V :=
  match d with
  | [] => None
  | (k', v) :: d' => if decide (k' = k) then Some v else dict_get d' k
  end.

Definition dict_keys (d : dict) : list K := d.*1.

(** [if k not in d: d[k] = v] *)
Definition dict_setdefault (d : dict) (k : K) (v : V) : dict :=
  match dict_get d k with
  | Some _ => d
  | None => d ++ [(k, v)]
  end.

(** [d[k] = f(d[k])] for a key that is present. *)
Fixpoint dict_alter (f : V -> V) (k : K) (d : dict) : dict :=
  match d with
  | [] => []
  | (k', v) :: d' =>
      if decide (k' = k) then (k', f v) :: d'
      else (k', v) :: dict_alter f k d'
  end.
End dict.
Arguments dict : clear implicits.

(** ** The user-visible world of a node *)

Definition node : Type := nat.

(** Calls a retrying node makes, in the order it makes them. *)
Inductive call (V : Type) : Type :=
| CallExec (cur_retry : nat)
| CallSleep (seconds : Z)
| CallFallback (prep_res : V) (exc : exn).
Arguments CallExec {V} cur_retry.
Arguments CallSleep {V} seconds.
Arguments CallFallback {V} prep_res exc.

Record env (U V : Type) : Type := Env {
  user : U;
  calls : list (call V)
}.
Arguments Env {U V} user calls.
Arguments user {U V} e.
Arguments calls {U V} e.

Section env_ops.
Context {U V : Type}.

(** User code sees and changes [user] only. *)
Definition lift_user {A} (c : U -> outcome A * U) : M (env U V) A :=
  fun w => let (r, u') := c (user w) in (r, Env u' (calls w)).

Definition log_call (c : call V) : M (env U V) unit :=
  modify (fun w => Env (user w) (calls w ++ [c])).
End env_ops.

(** ** class Node *)

Module Node.
Section node.
Context {U V : Type}.
(** Python's [None]. *)
Variable VNone : V.
(** [self.max_retries], [self.wait] *)
Variable max_retries : Z.
Variable wait : Z.
(** [self.exec], which can read [self.cur_retry]. *)
Variable exec : nat -> V -> U -> outcome V * U.
Variable exec_fallback : V -> exn -> U -> outcome V * U.

(** The body of [for self.cur_retry in range(self.max_retries)]. *)
Fixpoint retry_loop (range : list nat) (prep_res : V) : M (env U V) V :=
  match range with
  | [] => ret VNone
  | cur_retry :: rest =>
      log_call (CallExec cur_retry);;
      r ← try_except (lift_user (exec cur_retry prep_res));
      match r with
      | inl v => ret v
      | inr e =>
          if (Z.of_nat cur_retry =? max_retries - 1)%Z then
            log_call (CallFallback prep_res e);;
            lift_user (exec_fallback prep_res e)
          else
            (if (0 <? wait)%Z then log_call (CallSleep wait) else ret tt);;
            retry_loop rest prep_res
      end
  end.

Definition _exec (prep_res : V) : M (env U V) V :=
  retry_loop (seq 0 (Z.to_nat max_retries)) prep_res.

(** [fails_from p i k u u']: attempts [i], ..., [i + k - 1] on [p] each
    raise an [Exception], taking the user state from [u] to [u']. *)
Inductive fails_from (p : V) : nat -> nat -> U -> U -> Prop :=
| fails_nil i u : fails_from p i 0 u u
| fails_cons i k u e u1 u' :
    exec i p u = (Raise e, u1) ->
    is_Exception e = true ->
    fails_from p (S i) k u1 u' ->
    fails_from p i (S k) u u'.

(** The calls made by [k] failed attempts from attempt [i] on, none of
    them the last one. *)
Fixpoint failed_calls (i k : nat) : list (call V) :=
  match k with
  | 0 => []
  | S k' =>
      CallExec i :: (if (0 <? wait)%Z then [CallSleep wait] else [])
        ++ failed_calls (S i) k'
  end.
End node.

Definition is_exec_call {V} (c : call V) : bool :=
  match c with CallExec _ => true | _ => false end.
Definition is_sleep_call {V} (c : call V) : bool :=
  match c with CallSleep _ => true | _ => false end.
Definition is_fallback_call {V} (c : call V) : bool :=
  match c with CallFallback _ _ => true | _ => false end.
Definition count_calls {V} (f : call V -> bool) (l : list (call V)) : nat :=
  length (List.filter f l).

(** [def exec_fallback(self, prep_res, exc): raise exc] *)
Definition default_exec_fallback {U V : Type}
  : V -> exn -> U -> outcome V * U :=
  fun _ exc u => (Raise exc, u).
End Node.

(** ** class BatchNode *)

Module BatchNode.
Section batch.
Context {U V : Type}.
(** [super(BatchNode, self)._exec], the retrying execute of [Node]. *)
Variable super_exec : V -> M (env U V) V.

Fixpoint comprehension (items : list V) : M (env U V) (list V) :=
  match items with
  | [] => ret []
  | i :: rest =>
      r ← super_exec i;
      rs ← comprehension rest;
      ret (r :: rs)
  end.

(** [items or []] *)
Definition items_or_empty (items : option (list V)) : list V :=
  match items with
  | Some l => l
  | None => []
  end.

Definition _exec (items : option (list V)) : M (env U V) (list V) :=
  comprehension (items_or_empty items).

(** [maps_to items w rs w']: running [super_exec] on the items one after
    the other from world [w] returns [rs], element by element, and
    leaves world [w']. *)
Inductive maps_to : list V -> env U V -> list V -> env U V -> Prop :=
| maps_nil w : maps_to [] w [] w
| maps_cons i items w r w1 rs w' :
    super_exec i w = (Ok r, w1) ->
    maps_to items w1 rs w' ->
    maps_to (i :: items) w (r :: rs) w'.
End batch.
End BatchNode.

(** Code without state: [outcome] is a monad too. *)
#[global] Instance outcome_ret : MRet outcome := fun A a => Ok a.
#[global] Instance outcome_bind : MBind outcome := fun A B k r =>
  match r with
  | Ok a => k a
  | Raise e => Raise e
  | Diverge => Diverge
  end.

(** ** class BaseNode *)

Definition params (V : Type) : Type := list (string * V).

(** [action or "default"]: [None] and the empty string are falsy. *)
Definition or_default (action : option string) : string :=
  match action with
  | Some a => if decide (a = ""%string) then "default"%string else a
  | None => "default"%string
  end.

Module BaseNode.
(** A node object: its successor table and its methods.  The methods
    receive [self.params]; [_exec] is the method of the node's class
    ([BaseNode._exec], [Node._exec], [BatchNode._exec]). *)
Record obj (U V : Type) : Type := Obj {
  successors : dict string (list node);
  prep : params V -> U -> outcome V * U;
  _exec : params V -> V -> M (env U V) V;
  post : params V -> V -> V -> U -> outcome (option string) * U
}.
Arguments Obj {U V} successors prep _exec post.
Arguments successors {U V} o.
Arguments prep {U V} o.
Arguments _exec {U V} o.
Arguments post {U V} o.

(** [def next(self, node, action="default")], on the successor table. *)
Definition next (succs : dict string (list node)) (tgt : node)
    (action : string) : dict string (list node) :=
  dict_alter (fun l => l ++ [tgt]) action (dict_setdefault succs action []).

(** [def _exec(self, prep_res): return self.exec(prep_res)] *)
Definition default_exec {U V : Type} (exec : V -> U -> outcome V * U)
  : V -> M (env U V) V :=
  fun prep_res => lift_user (exec prep_res).
End BaseNode.

(** ** class Flow *)

Inductive phase : Type := Prep | Exec | Post.

#[global] Instance phase_eq_dec : EqDecision phase.
Proof. solve_decision. Defined.

Inductive warning : Type :=
| WontRunSuccessors
| FlowEnds (action : string) (labels : list string).

Module Flow.

(** What the scheduler decided when it started a node: the wave, the node,
    [completed_nodes] and the world at that moment. *)
Record sched_entry (U V : Type) : Type := Sched {
  se_wave : nat;
  se_node : node;
  se_completed : gset node;
  se_env : env U V
}.
Arguments Sched {U V} se_wave se_node se_completed se_env.
Arguments se_wave {U V} s.
Arguments se_node {U V} s.
Arguments se_completed {U V} s.
Arguments se_env {U V} s.

(** The state of a run.  [world] and [action_map] are the program's;
    [phases] (lifecycle methods invoked, in order), [sched] and [warnings]
    record what happened. *)
Record state (U V : Type) : Type := State {
  world : env U V;
  action_map : gmap node string;
  phases : list (phase * node);
  sched : list (sched_entry U V);
  warnings : list warning
}.
Arguments State {U V} world action_map phases sched warnings.
Arguments world {U V} s.
Arguments action_map {U V} s.
Arguments phases {U V} s.
Arguments sched {U V} s.
Arguments warnings {U V} s.

Definition fresh {U V} (w : env U V) : state U V := State w ∅ [] [] [].

(** The two dicts of [_build_dependency_graph]; [expanded] records the
    calls of [add_dependency] in order. *)
Record dep_graph : Type := DepGraph {
  dependencies : dict node (gset node);
  reverse_deps : dict node (gset node);
  expanded : list node
}.

Definition empty_graph : dep_graph := DepGraph [] [] [].

(** [d[k].add(x)] *)
Definition set_add (d : dict node (gset node)) (k x : node)
  : outcome (dict node (gset node)) :=
  match dict_get d k with
  | Some _ => Ok (dict_alter (fun s => {[x]} ∪ s) k d)
  | None => Raise KeyError
  end.

(** [if n not in dependencies: ...; if n not in reverse_deps: ...] *)
Definition touch (n : node) (g : dep_graph) : dep_graph :=
  DepGraph (dict_setdefault (dependencies g) n ∅)
           (dict_setdefault (reverse_deps g) n ∅)
           (expanded g).

Definition add_edge (n succ : node) (g : dep_graph) : outcome dep_graph :=
  d ← set_add (dependencies g) succ n;
  r ← set_add (reverse_deps g) n succ;
  Ok (DepGraph d r (expanded g)).

Definition enter (n : node) (g : dep_graph) : dep_graph :=
  DepGraph (dependencies g) (reverse_deps g) (expanded g ++ [n]).

(** Reading the two dicts. *)
Definition in_deps (g : dep_graph) (n : node) : Prop :=
  is_Some (dict_get (dependencies g) n).
Definition in_rdeps (g : dep_graph) (n : node) : Prop :=
  is_Some (dict_get (reverse_deps g) n).
(** [x ∈ dependencies[y]] *)
Definition has_dep (g : dep_graph) (y x : node) : Prop :=
  ∃ ds, dict_get (dependencies g) y = Some ds ∧ x ∈ ds.
(** [y ∈ reverse_deps[x]] *)
Definition has_rdep (g : dep_graph) (x y : node) : Prop :=
  ∃ rs, dict_get (reverse_deps g) x = Some rs ∧ y ∈ rs.
Definition edge (g : dep_graph) (x y : node) : Prop :=
  has_dep g y x ∧ has_rdep g x y.

Record graph_le (g g' : dep_graph) : Prop := GraphLe {
  le_in_deps : ∀ n, in_deps g n -> in_deps g' n;
  le_in_rdeps : ∀ n, in_rdeps g n -> in_rdeps g' n;
  le_dep : ∀ y x, has_dep g y x -> has_dep g' y x;
  le_rdep : ∀ x y, has_rdep g x y -> has_rdep g' x y
}.

Record flow (U V : Type) : Type := MkFlow {
  start_node : option node;
  flow_params : params V;
  flow_successors : dict string (list node);
  flow_prep : U -> outcome V * U;
  flow_post : V -> option string -> U -> outcome (option string) * U
}.
Arguments MkFlow {U V} start_node flow_params flow_successors flow_prep flow_post.
Arguments start_node {U V} f.
Arguments flow_params {U V} f.
Arguments flow_successors {U V} f.
Arguments flow_prep {U V} f.
Arguments flow_post {U V} f.

(** [def post(self, shared, prep_res, exec_res): return exec_res] *)
Definition default_post {U V : Type}
  : V -> option string -> U -> outcome (option string) * U :=
  fun _ exec_res u => (Ok exec_res, u).

Section flow.
Context {U V : Type}.
(** The node objects, by handle. *)
Variable heap : node -> BaseNode.obj U V.
(** The order in which Python iterates a set: unspecified. *)
Variable set_order : gset node -> list node.
(** How many nested calls of [add_dependency] the interpreter allows
    ([sys.getrecursionlimit()], less the frames in use). *)
Variable recursion_limit : nat.

Abbreviation state := (state U V).

Definition lift_env {A} (c : M (env U V) A) : M state A :=
  fun st =>
    let (r, w') := c (world st) in
    (r, State w' (action_map st) (phases st) (sched st) (warnings st)).

Definition log_phase (ph : phase) (n : node) : M state unit :=
  modify (fun st => State (world st) (action_map st)
                          (phases st ++ [(ph, n)]) (sched st) (warnings st)).

Definition log_sched (k : nat) (n : node) (completed : gset node)
  : M state unit :=
  modify (fun st => State (world st) (action_map st) (phases st)
                          (sched st ++ [Sched k n completed (world st)])
                          (warnings st)).

Definition warn (w : warning) : M state unit :=
  modify (fun st => State (world st) (action_map st) (phases st)
                          (sched st) (warnings st ++ [w])).

Definition set_action_map (am : gmap node string) : M state unit :=
  modify (fun st => State (world st) am (phases st) (sched st) (warnings st)).

Definition get_next_nodes (curr : node) (action : option string)
  : M state (list node) :=
  let action := or_default action in
  let succs := BaseNode.successors (heap curr) in
  let next_nodes := default [] (dict_get succs action) in
  (match next_nodes, succs with
   | [], _ :: _ => warn (FlowEnds action (dict_keys succs))
   | _, _ => ret tt
   end);;
  ret next_nodes.

(** [[action] if action else node.successors.keys()] *)
Definition actions_of (n : node) (action : option string) : list string :=
  let succs := BaseNode.successors (heap n) in
  match action with
  | Some a => if decide (a = ""%string) then dict_keys succs else [a]
  | None => dict_keys succs
  end.

(** [node.successors.get(curr_action, [])]; the table holds lists, as
    [next] builds them, so the [isinstance] test that follows is false. *)
Definition successors_under (n : node) (curr_action : string) : list node :=
  default [] (dict_get (BaseNode.successors (heap n)) curr_action).

Fixpoint add_dependency (depth : nat) (n : node) (action : option string)
    (g : dep_graph) : outcome dep_graph :=
  match depth with
  | 0 => Raise RecursionError
  | S depth' =>
      let g := enter n (touch n g) in
      let actions := actions_of n action in
      for_each (fun curr_action g =>
        let successors := successors_under n curr_action in
        for_each (fun succ g =>
          g ← add_edge n succ (touch succ g);
          add_dependency depth' succ None g) successors g) actions g
  end.

(** The successors that [add_dependency n action] goes through, in order. *)
Definition selected (n : node) (action : option string) : list node :=
  concat (map (successors_under n) (actions_of n action)).

(** [reach n m]: [m] can be reached from [n] along successor edges, of
    any label. *)
Inductive reach : node -> node -> Prop :=
| reach_refl n : reach n n
| reach_step n m x : m ∈ selected n None -> reach m x -> reach n x.

(** [depth_ok d n action]: the calls below [add_dependency n action] nest
    less than [d] deep. *)
Fixpoint depth_ok (d : nat) (n : node) (action : option string) : bool :=
  match d with
  | 0 => false
  | S d' => forallb (fun m => depth_ok d' m None) (selected n action)
  end.

(** The nodes [add_dependency n action] is called on, in call order: [n],
    then for each selected successor the calls below it. *)
Fixpoint expansion (d : nat) (n : node) (action : option string)
  : list node :=
  match d with
  | 0 => []
  | S d' => n :: concat (map (fun m => expansion d' m None)
                             (selected n action))
  end.

(** Every successor edge of [m], under any label, is in the graph. *)
Definition full (g : dep_graph) (m : node) : Prop :=
  ∀ y, y ∈ selected m None -> edge g m y.

Definition rdep_closed (g : dep_graph) : Prop :=
  ∀ x y, has_rdep g x y -> in_deps g y.

(** Where an edge [x -> y] added by [add_dependency n] comes from:
    from [n] itself, or from a node reached through a selected
    successor of [n]. *)
Definition origin (n : node) (sel : list node) (x y : node) : Prop :=
  (x = n ∧ y ∈ sel)
  ∨ (∃ m, m ∈ sel ∧ reach m x ∧ y ∈ selected x None).

(** One round of the inner loop of [add_dependency]. *)
Definition visit (d : nat) (n succ : node) (g : dep_graph)
  : outcome dep_graph :=
  g ← add_edge n succ (touch succ g);
  add_dependency d succ None g.

(** What a call of [add_dependency] that returns has done. *)
Record built (d : nat) (n : node) (act : option string)
    (g g' : dep_graph) : Prop := Built {
  built_le : graph_le g g';
  built_in : in_deps g' n ∧ in_rdeps g' n;
  built_edges : ∀ m, m ∈ selected n act -> edge g' n m;
  built_full : ∀ m, in_deps g' m -> in_deps g m ∨ m = n ∨ full g' m;
  built_rdep : ∀ x y, has_rdep g' x y ->
                      has_rdep g x y ∨ origin n (selected n act) x y;
  built_dep : ∀ x y, has_dep g' y x ->
                     has_dep g y x ∨ origin n (selected n act) x y;
  built_closed : rdep_closed g -> rdep_closed g';
  built_expanded : expanded g' = expanded g ++ expansion d n act
}.

Definition _build_dependency_graph (start : node)
    (action_map : gmap node string) : outcome dep_graph :=
  let start_action := action_map !! start in
  add_dependency recursion_limit start start_action empty_graph.

(** The three lifecycle calls of [execute_node], on the world alone. *)
Definition lifecycle (p : params V) (n : node)
  : M (env U V) (option string) :=
  let node_copy := heap n in
  prep_res ← lift_user (BaseNode.prep node_copy p);
  exec_res ← BaseNode._exec node_copy p prep_res;
  lift_user (BaseNode.post node_copy p prep_res exec_res).

(** [execute_node(None)]: [None in action_map] is false, [copy.copy(None)]
    is [None], and [None.set_params] raises. *)
Definition execute_node (p : params V) (n : option node)
  : M state (option string) :=
  match n with
  | None => raise AttributeError
  | Some n =>
      st ← get;
      if decide (n ∈ dom (action_map st)) then ret None
      else
        let node_copy := heap n in
        log_phase Prep n;;
        prep_res ← lift_env (lift_user (BaseNode.prep node_copy p));
        log_phase Exec n;;
        exec_res ← lift_env (BaseNode._exec node_copy p prep_res);
        log_phase Post n;;
        action ← lift_env
          (lift_user (BaseNode.post node_copy p prep_res exec_res));
        let action := or_default action in
        st ← get;
        set_action_map (<[n := action]> (action_map st));;
        ret (Some action)
  end.

(** [dependencies[n].issubset(completed)] and
    [all(dep in completed for dep in dependencies[n])] *)
Definition deps_done (deps : dict node (gset node)) (completed : gset node)
    (n : node) : outcome bool :=
  match dict_get deps n with
  | Some ds => Ok (bool_decide (ds ⊆ completed))
  | None => Raise KeyError
  end.

(** [for node in dependencies: if dependencies[node].issubset(...)]; the
    keys of a dict are in it, so the lookup cannot raise. *)
Definition initial_ready (deps : dict node (gset node))
    (completed : gset node) : list node :=
  List.filter
    (fun n => match dict_get deps n with
              | Some ds => bool_decide (ds ⊆ completed)
              | None => false
              end)
    (dict_keys deps).

(** [for node in ready_nodes: if node not in completed_nodes: ...] *)
Fixpoint run_wave (p : params V) (k : nat) (ready : list node)
    (completed : gset node) : M state (gset node) :=
  match ready with
  | [] => ret completed
  | n :: rest =>
      if decide (n ∈ completed) then run_wave p k rest completed
      else
        log_sched k n completed;;
        _ ← execute_node p (Some n);
        run_wave p k rest ({[n]} ∪ completed)
  end.

(** [for dependent in reverse_deps.get(node, set()): ...] *)
Definition scan_dependents (deps : dict node (gset node))
    (completed : gset node) (dependents : list node) (ready : list node)
  : outcome (list node) :=
  for_each (fun dependent ready =>
    b ← deps_done deps completed dependent;
    Ok (if b : bool then ready ++ [dependent] else ready)) dependents ready.

(** [for node in completed_nodes: ...] *)
Definition scan_completed (deps rdeps : dict node (gset node))
    (completed : gset node) : outcome (list node) :=
  for_each (fun n ready =>
    scan_dependents deps completed
      (set_order (default ∅ (dict_get rdeps n))) ready)
    (set_order completed) [].

(** [while ready_nodes: ...]; [k] numbers the waves. *)
Fixpoint wave_loop (fuel : nat) (p : params V)
    (deps rdeps : dict node (gset node)) (k : nat) (ready : list node)
    (completed : gset node) : M state unit :=
  match ready with
  | [] => ret tt
  | _ :: _ =>
      match fuel with
      | 0 => diverge
      | S fuel' =>
          completed ← run_wave p k ready completed;
          ready ← lift_outcome (scan_completed deps rdeps completed);
          let ready := set_order (list_to_set ready ∖ completed) in
          wave_loop fuel' p deps rdeps (S k) ready completed
      end
  end.

(** [p = params or {**self.params}]: an empty dict is falsy. *)
Definition run_params (self : flow U V) (params : option (params V))
  : list (string * V) :=
  match params with
  | Some (x :: l) => x :: l
  | _ => flow_params self
  end.

Definition _orch (fuel : nat) (self : flow U V) (params : option (params V))
  : M state (option string) :=
  set_action_map ∅;;
  let p := run_params self params in
  _ ← execute_node p (start_node self);
  match start_node self with
  | None => raise AttributeError
  | Some start =>
      st ← get;
      g ← lift_outcome (_build_dependency_graph start (action_map st));
      let completed_nodes : gset node := {[start]} in
      let ready_nodes := initial_ready (dependencies g) completed_nodes in
      wave_loop fuel p (dependencies g) (reverse_deps g) 1 ready_nodes
                completed_nodes;;
      st ← get;
      ret (action_map st !! start)
  end.

(** [step_ok p e1 e2]: the node of [e2] starts in the world that the
    lifecycle of the node of [e1] left. *)
Definition step_ok (p : params V) (e1 e2 : sched_entry U V) : Prop :=
  ∃ a, lifecycle p (se_node e1) (se_env e1) = (Ok a, se_env e2).

Fixpoint chain (p : params V) (l : list (sched_entry U V)) : Prop :=
  match l with
  | e1 :: l' =>
      match l' with
      | e2 :: _ => step_ok p e1 e2 ∧ chain p l'
      | [] => True
      end
  | [] => True
  end.

(** What holds of the scheduler's record [l] in a run from [start] over
    the dependencies [deps]: no node is scheduled twice; a scheduled node
    is not the start node, its whole dependency set is in
    [completed_nodes] when it starts, and each of its dependencies is the
    start node or was scheduled in an earlier wave; and each scheduled node
    starts in the world its predecessor in the record left. *)
Record sched_ok (p : params V) (deps : dict node (gset node)) (start : node)
    (l : list (sched_entry U V)) : Prop := SchedOk {
  so_nodup : NoDup (se_node <$> l);
  so_deps : ∀ e, e ∈ l ->
    se_node e ≠ start
    ∧ ∃ ds, dict_get deps (se_node e) = Some ds
            ∧ ds ⊆ se_completed e
            ∧ ∀ d, d ∈ ds ->
                d = start
                ∨ ∃ e', e' ∈ l ∧ se_node e' = d ∧ se_wave e' < se_wave e;
  so_chain : chain p l
}.

(** [Flow._run] *)
Definition _run (fuel : nat) (self : flow U V) : M state (option string) :=
  p ← lift_env (lift_user (flow_prep self));
  o ← _orch fuel self None;
  lift_env (lift_user (flow_post self p o)).

(** [BaseNode.run], inherited by [Flow]. *)
Definition run (fuel : nat) (self : flow U V) : M state (option string) :=
  (match flow_successors self with
   | [] => ret tt
   | _ :: _ => warn WontRunSuccessors
   end);;
  _run fuel self.
End flow.
End Flow.

(** ** The rest of class BaseNode: running one node, wiring operators *)

Module NodeRun.
Section node_run.
Context {U V : Type}.

(** [BaseNode._run] and [Node._run]: the three phases inside
    [try: ... except Exception as e: raise e]. *)
Definition _run (self : BaseNode.obj U V) (params : params V)
  : M (env U V) (option string) :=
  r ← try_except
        (p ← lift_user (BaseNode.prep self params);
         e ← BaseNode._exec self params p;
         lift_user (BaseNode.post self params p e));
  match r with
  | inl r => ret r
  | inr e => raise e
  end.

(** [BaseNode.run]: a warning when the node has successors, then [_run]. *)
Definition run (self : BaseNode.obj U V) (params : params V)
  : M (Flow.state U V) (option string) :=
  (match BaseNode.successors self with
   | [] => ret tt
   | _ :: _ => Flow.warn WontRunSuccessors
   end);;
  Flow.lift_env (_run self params).
End node_run.

(** What can stand on the right of [node - ...]: a string or something
    else. *)
Inductive operand : Type :=
| OpStr (action : string)
| OpOther.

(** [_ConditionalTransition(src, action)]; [src] is kept as its successor
    table. *)
Record conditional_transition : Type := ConditionalTransition {
  ct_src : dict string (list node);
  ct_action : string
}.

(** [BaseNode.__sub__]; [None] stands for [raise TypeError]. *)
Definition __sub__ (self : dict string (list node)) (action : operand)
  : option conditional_transition :=
  match action with
  | OpStr a => Some (ConditionalTransition self a)
  | OpOther => None
  end.

(** [_ConditionalTransition.__rshift__]: the successor table of [src]
    after [src.next(tgt, self.action)]. *)
Definition ct_rshift (self : conditional_transition) (tgt : node)
  : dict string (list node) :=
  BaseNode.next (ct_src self) tgt (ct_action self).

(** [BaseNode.__rshift__]: [self.next(other)], with the default action. *)
Definition __rshift__ (self : dict string (list node)) (other : node)
  : dict string (list node) :=
  BaseNode.next self other "default".
End NodeRun.

(** ** class BatchFlow *)

(** [d[k] = v] *)
Definition dict_set {K V : Type} `{EqDecision K} (d : dict K V) (k : K)
    (v : V) : dict K V :=
  match dict_get d k with
  | Some _ => dict_alter (fun _ => v) k d
  | None => d ++ [(k, v)]
  end.

(** [{**a, **b}] *)
Definition dict_merge {K V : Type} `{EqDecision K} (a b : dict K V)
  : dict K V :=
  foldl (fun d kv => dict_set d kv.1 kv.2) a b.

Module BatchFlow.
Section batch_flow.
Context {U V R : Type}.
Variable heap : node -> BaseNode.obj U V.
Variable set_order : gset node -> list node.
Variable recursion_limit : nat.
(** The flow's own [prep] and [post]; [post] is called with
    [exec_res = None]. *)
Variable prep : U -> outcome (option (list (params V))) * U.
Variable post : list (params V) -> U -> outcome R * U.

(** [for bp in pr: self._orch(shared, {**self.params, **bp})] *)
Fixpoint batch_loop (fuel : nat) (self : Flow.flow U V)
    (pr : list (params V)) : M (Flow.state U V) unit :=
  match pr with
  | [] => ret tt
  | bp :: rest =>
      _ ← Flow._orch heap set_order recursion_limit fuel self
            (Some (dict_merge (Flow.flow_params self) bp));
      batch_loop fuel self rest
  end.

(** [self.prep(shared) or []] *)
Definition prep_or_empty (pr : option (list (params V)))
  : list (params V) :=
  match pr with
  | Some l => l
  | None => []
  end.

Definition _run (fuel : nat) (self : Flow.flow U V)
  : M (Flow.state U V) R :=
  pr ← Flow.lift_env (lift_user prep);
  let pr := prep_or_empty pr in
  batch_loop fuel self pr;;
  Flow.lift_env (lift_user (post pr)).
End batch_flow.
End BatchFlow.

(** ** Example nodes and graphs *)

Module Examples.
Import Flow.

(** An [exec] that raises on its first two attempts and then returns its
    argument plus ten, counting its calls in the user state. *)
Definition flaky_exec (cur_retry : nat) (p : nat) (u : nat)
  : outcome nat * nat :=
  if cur_retry <? 2 then (Raise (UserException cur_retry), S u)
  else (Ok (p + 10), S u).

(** An [exec] that always raises, with a different exception each time. *)
Definition failing_exec (cur_retry : nat) (p : nat) (u : nat)
  : outcome nat * nat :=
  (Raise (UserException (100 + cur_retry)), S u).

(** The claim that [add_dependency] has a visited-set guard, in the
    spec's words: the construction returns, and no node is expanded twice. *)
Definition expands_once_and_returns {U V : Type}
    (heap : node -> BaseNode.obj U V) (recursion_limit : nat) (start : node)
    (action_map : gmap node string) : Prop :=
  ∃ g, _build_dependency_graph heap recursion_limit start action_map = Ok g
       ∧ NoDup (expanded g).

(** A node whose [post] appends the node to the shared list and returns
    [action]; [prep] returns the length of the shared list. *)
Definition logging_node (succs : dict string (list node)) (me : node)
    (action : option string) : BaseNode.obj (list node) nat :=
  BaseNode.Obj succs
    (fun _ u => (Ok (length u), u))
    (fun _ => BaseNode.default_exec (fun prep_res u => (Ok prep_res, u)))
    (fun _ _ _ u => (Ok action, u ++ [me])).

(** [n0 >> n1; n0 >> n2; n1 >> n3; n2 - "x" >> n3] *)
Definition diamond (n : node) : BaseNode.obj (list node) nat :=
  match n with
  | 0 => logging_node
           (BaseNode.next (BaseNode.next [] 1 "default") 2 "default") 0 None
  | 1 => logging_node (BaseNode.next [] 3 "default") 1 None
  | 2 => logging_node (BaseNode.next [] 3 "x") 2 None
  | _ => logging_node [] n None
  end.

(** [n0 >> n1; n1 >> n0] *)
Definition two_cycle (n : node) : BaseNode.obj (list node) nat :=
  match n with
  | 0 => logging_node (BaseNode.next [] 1 "default") 0 None
  | 1 => logging_node (BaseNode.next [] 0 "default") 1 None
  | _ => logging_node [] n None
  end.

(** [n0 - "x" >> n1], and [n0]'s [post] returns ["y"]. *)
Definition dead_end (n : node) : BaseNode.obj (list node) nat :=
  match n with
  | 0 => logging_node (BaseNode.next [] 1 "x") 0 (Some "y"%string)
  | _ => logging_node [] n None
  end.

(** The claim that a node sees only what earlier waves wrote, in the
    spec's words: the nodes of one wave all start from the same shared
    context, the one the earlier waves left. *)
Definition observes_only_earlier_waves {U V : Type}
    (l : list (sched_entry U V)) : Prop :=
  ∀ e1 e2, e1 ∈ l -> e2 ∈ l -> se_wave e1 = se_wave e2 ->
           user (se_env e1) = user (se_env e2).

Definition flow_from (start : option node) : flow (list node) nat :=
  MkFlow start [] [] (fun u => (Ok 0, u)) default_post.

Definition default_action : gmap node string := {[0 := "default"%string]}.
End Examples.

(** * Properties *)

Ltac unfold_monad :=
  unfold mbind, mret, M_bind, M_ret, bind, ret, raise, diverge, get, modify,
    lift_outcome in *.

(** ** Retrying execute *)

Module NodeSpec.
Section retry.
Context {U V : Type}.
Variable VNone : V.
Variable N : nat.
Variable wait : Z.
Variable exec : nat -> V -> U -> outcome V * U.

Local Abbreviation run fb := (Node.retry_loop VNone (Z.of_nat N) wait exec fb).

Lemma retry_loop_failures fb p i k u u' rest cs :
  Node.fails_from exec p i k u u' ->
  i + k < N ->
  run fb (seq i k ++ rest) p (Env u cs)
  = run fb rest p (Env u' (cs ++ Node.failed_calls (V:=V) wait i k)).
Proof.
  intros Hf. revert cs. induction Hf as [i u|i k u e u1 u' He Hc Hf IH];
    intros cs Hlt.
  - cbn. by rewrite app_nil_r.
  - cbn [seq app Node.retry_loop Node.failed_calls].
    unfold_monad. unfold log_call, try_except, lift_user, modify. cbn.
    rewrite He, Hc.
    destruct (Z.eqb_spec (Z.of_nat i) (Z.of_nat N - 1)) as [Heq|_]; [lia|].
    destruct (0 <? wait)%Z; cbn.
    + rewrite IH by lia. by rewrite <- !app_assoc.
    + rewrite IH by lia. by rewrite <- !app_assoc.
Qed.

Lemma count_failed_calls i k :
  Node.count_calls Node.is_exec_call (Node.failed_calls (V:=V) wait i k) = k
  ∧ Node.count_calls Node.is_sleep_call (Node.failed_calls (V:=V) wait i k)
    = (if (0 <? wait)%Z then k else 0)
  ∧ Node.count_calls Node.is_fallback_call (Node.failed_calls (V:=V) wait i k) = 0.
Proof.
  unfold Node.count_calls. revert i.
  induction k as [|k IH]; intros i; cbn.
  - by destruct (0 <? wait)%Z.
  - destruct (IH (S i)) as (He & Hs & Hf).
    destruct (0 <? wait)%Z; cbn; rewrite ?He, ?Hs, ?Hf; done.
Qed.

Lemma count_calls_app (f : call V -> bool) l1 l2 :
  Node.count_calls f (l1 ++ l2)
  = Node.count_calls f l1 + Node.count_calls f l2.
Proof. unfold Node.count_calls. by rewrite List.filter_app, length_app. Qed.
End retry.

(** C5: a node with [max_retries = N >= 1] whose [exec] raises on the first
    [N - 1] attempts and returns [v] on attempt [N] (that is, with
    [cur_retry = N - 1]) returns [v]; [exec] is called [N] times, the last
    call being attempt [N]; [time.sleep] is called once after each failed
    attempt, [N - 1] times, when [wait > 0] and never otherwise; and the
    fallback is not called. *)
Theorem C5_retry_until_success {U V : Type} (VNone : V) (N : nat) (wait : Z)
    (exec : nat -> V -> U -> outcome V * U)
    (exec_fallback : V -> exn -> U -> outcome V * U)
    (p v : V) (u u1 u2 : U) (cs : list (call V)) :
  1 ≤ N ->
  Node.fails_from exec p 0 (N - 1) u u1 ->
  exec (N - 1) p u1 = (Ok v, u2) ->
  let tr := Node.failed_calls (V:=V) wait 0 (N - 1) ++ [CallExec (N - 1)] in
  Node._exec VNone (Z.of_nat N) wait exec exec_fallback p (Env u cs)
    = (Ok v, Env u2 (cs ++ tr))
  ∧ Node.count_calls Node.is_exec_call tr = N
  ∧ last tr = Some (CallExec (N - 1))
  ∧ Node.count_calls Node.is_sleep_call tr
    = (if (0 <? wait)%Z then N - 1 else 0)
  ∧ Node.count_calls Node.is_fallback_call tr = 0.
Proof.
  intros HN Hf Hok tr. subst tr.
  destruct (count_failed_calls (V:=V) wait 0 (N - 1)) as (He & Hs & Hfb).
  split; [|rewrite !count_calls_app, He, Hs, Hfb, last_snoc; cbn;
           repeat split; try lia; by destruct (0 <? wait)%Z].
  unfold Node._exec. rewrite Nat2Z.id.
  replace N with ((N - 1) + 1) at 2 by lia.
  rewrite seq_app. cbn [seq].
  rewrite (retry_loop_failures VNone N wait exec exec_fallback p 0 (N - 1) u u1)
    by (done || lia).
  cbn. unfold_monad. unfold log_call, try_except, lift_user, modify. cbn.
  rewrite Hok. by rewrite <- app_assoc.
Qed.

(** C6: a node with [max_retries = N >= 1] whose [exec] raises on every
    attempt, the last exception being [e], calls [exec_fallback] once, with
    the prepare result and [e], and returns what it returns; the default
    fallback raises [e] itself, and a fallback that returns [v] makes [v]
    the result, with no exception. *)
Theorem C6_retry_exhausted {U V : Type} (VNone : V) (N : nat) (wait : Z)
    (exec : nat -> V -> U -> outcome V * U)
    (p : V) (e : exn) (u u1 u2 : U) (cs : list (call V)) :
  1 ≤ N ->
  Node.fails_from exec p 0 (N - 1) u u1 ->
  exec (N - 1) p u1 = (Raise e, u2) ->
  is_Exception e = true ->
  let tr := Node.failed_calls (V:=V) wait 0 (N - 1)
              ++ [CallExec (N - 1); CallFallback p e] in
  (∀ exec_fallback,
      Node._exec VNone (Z.of_nat N) wait exec exec_fallback p (Env u cs)
      = let (r, u3) := exec_fallback p e u2 in (r, Env u3 (cs ++ tr)))
  ∧ Node.count_calls Node.is_fallback_call tr = 1
  ∧ last tr = Some (CallFallback p e)
  ∧ Node._exec VNone (Z.of_nat N) wait exec Node.default_exec_fallback p
      (Env u cs) = (Raise e, Env u2 (cs ++ tr))
  ∧ (∀ exec_fallback v u3,
      exec_fallback p e u2 = (Ok v, u3) ->
      Node._exec VNone (Z.of_nat N) wait exec exec_fallback p (Env u cs)
      = (Ok v, Env u3 (cs ++ tr))).
Proof.
  intros HN Hf Hraise Hc tr. subst tr.
  destruct (count_failed_calls (V:=V) wait 0 (N - 1)) as (He & Hs & Hfb).
  assert (Hgen : ∀ exec_fallback,
      Node._exec VNone (Z.of_nat N) wait exec exec_fallback p (Env u cs)
      = let (r, u3) := exec_fallback p e u2 in
        (r, Env u3 (cs ++ Node.failed_calls (V:=V) wait 0 (N - 1)
                       ++ [CallExec (N - 1); CallFallback p e]))).
  { intros fb. unfold Node._exec. rewrite Nat2Z.id.
    replace N with ((N - 1) + 1) at 2 by lia.
    rewrite seq_app. cbn [seq].
    rewrite (retry_loop_failures VNone N wait exec fb p 0 (N - 1) u u1)
      by (done || lia).
    cbn. unfold_monad. unfold log_call, try_except, lift_user, modify. cbn.
    rewrite Hraise, Hc.
    destruct (Z.eqb_spec (Z.of_nat (N - 1)) (Z.of_nat N - 1)) as [_|Hne];
      [|lia].
    cbn. destruct (fb p e u2) as [r u3]. by rewrite <- !app_assoc. }
  split; [done|].
  split; [rewrite count_calls_app, Hfb; done|].
  split.
  { change [CallExec (N - 1); CallFallback p e]
      with ([CallExec (V:=V) (N - 1)] ++ [CallFallback p e]).
    by rewrite app_assoc, last_snoc. }
  split; [by rewrite Hgen|].
  intros fb v u3 Hfbv. by rewrite Hgen, Hfbv.
Qed.
End NodeSpec.

Lemma C5_retry_until_success_witness :
  Node._exec 0 3%Z 1%Z Examples.flaky_exec Node.default_exec_fallback 5
    (Env 0 [])
  = (Ok 15, Env 3 [CallExec 0; CallSleep 1; CallExec 1; CallSleep 1;
                   CallExec 2]).
Proof.
  refine (proj1 (NodeSpec.C5_retry_until_success 0 3 1%Z Examples.flaky_exec
                   Node.default_exec_fallback 5 15 0 2 3 [] _ _ _)).
  - lia.
  - eapply Node.fails_cons; [reflexivity|reflexivity|].
    eapply Node.fails_cons; [reflexivity|reflexivity|].
    apply Node.fails_nil.
  - reflexivity.
Defined.

Lemma C6_retry_exhausted_witness :
  Node._exec 0 3%Z 0%Z Examples.failing_exec Node.default_exec_fallback 5
    (Env 0 [])
  = (Raise (UserException 102),
     Env 3 [CallExec 0; CallExec 1; CallExec 2;
            CallFallback 5 (UserException 102)])
  ∧ Node._exec 0 3%Z 0%Z Examples.failing_exec
      (fun p _ u => (Ok (p + 1), u)) 5
      (Env 0 [])
    = (Ok 6, Env 3 [CallExec 0; CallExec 1; CallExec 2;
                    CallFallback 5 (UserException 102)]).
Proof.
  assert (H1 : 1 ≤ 3) by lia.
  assert (H2 : Node.fails_from Examples.failing_exec 5 0 (3 - 1) 0 2).
  { eapply Node.fails_cons; [reflexivity|reflexivity|].
    eapply Node.fails_cons; [reflexivity|reflexivity|].
    apply Node.fails_nil. }
  pose proof (NodeSpec.C6_retry_exhausted 0 3 0%Z Examples.failing_exec 5
                (UserException 102)
                0 2 3 [] H1 H2 eq_refl eq_refl) as (_ & _ & _ & Hd & Hc).
  split; [exact Hd|].
  exact (Hc (fun p _ u => (Ok (p + 1), u)) 6 3 eq_refl).
Defined.

(** ** Batch execute *)

Module BatchSpec.
Section batch.
Context {U V : Type}.
Variable f : V -> M (env U V) V.

Lemma comprehension_maps_to items w rs w' :
  BatchNode.comprehension f items w = (Ok rs, w')
  ↔ BatchNode.maps_to f items w rs w'.
Proof.
  split.
  - revert w rs w'. induction items as [|i items IH]; intros w rs w' H.
    + cbn in H. unfold ret in H. injection H as <- <-. constructor.
    + cbn in H. unfold_monad.
      destruct (f i w) as [[r| |] w1] eqn:Hi; try discriminate.
      destruct (BatchNode.comprehension f items w1) as [[rs'| |] w2] eqn:Hr;
        try discriminate.
      injection H as <- <-. econstructor; eauto.
  - induction 1 as [w|i items w r w1 rs w' Hi _ IH].
    + reflexivity.
    + cbn. unfold_monad. by rewrite Hi, IH.
Qed.

Lemma maps_to_length items w rs w' :
  BatchNode.maps_to f items w rs w' -> length rs = length items.
Proof. induction 1; cbn; congruence. Qed.
End batch.
End BatchSpec.

(** C8: the batch [_exec] runs the retrying [_exec] on the elements of its
    input one after the other, in input order, and returns the list of the
    results, as long and in the same order; [None] and the empty list give
    the empty list. *)
Theorem C8_batch_exec {U V : Type} (super_exec : V -> M (env U V) V) :
  (∀ w, BatchNode._exec super_exec None w = (Ok [], w))
  ∧ (∀ w, BatchNode._exec super_exec (Some []) w = (Ok [], w))
  ∧ (∀ items w rs w',
       BatchNode._exec super_exec (Some items) w = (Ok rs, w')
       ↔ BatchNode.maps_to super_exec items w rs w')
  ∧ (∀ items w rs w',
       BatchNode._exec super_exec (Some items) w = (Ok rs, w') ->
       length rs = length items)
  ∧ (∀ (g : V -> V) items w,
       (∀ i w0, super_exec i w0 = (Ok (g i), w0)) ->
       BatchNode._exec super_exec (Some items) w = (Ok (map g items), w)).
Proof.
  split; [done|]. split; [done|].
  split; [intros; apply BatchSpec.comprehension_maps_to|].
  split.
  - intros items w rs w' H.
    apply BatchSpec.comprehension_maps_to in H.
    by eapply BatchSpec.maps_to_length.
  - intros g items w Hg. apply BatchSpec.comprehension_maps_to.
    induction items as [|i items IH]; cbn; econstructor; eauto.
Qed.

Lemma C8_batch_exec_witness :
  BatchNode._exec
    (Node._exec 0 3%Z 1%Z Examples.flaky_exec Node.default_exec_fallback)
    (Some [1; 2]) (Env 0 [])
  = (Ok [11; 12],
     Env 6 [CallExec 0; CallSleep 1; CallExec 1; CallSleep 1; CallExec 2;
            CallExec 0; CallSleep 1; CallExec 1; CallSleep 1; CallExec 2]).
Proof.
  apply (proj1 (proj2 (proj2 (C8_batch_exec
    (Node._exec 0 3%Z 1%Z Examples.flaky_exec Node.default_exec_fallback))))).
  eapply BatchNode.maps_cons; [reflexivity|].
  eapply BatchNode.maps_cons; [reflexivity|].
  apply BatchNode.maps_nil.
Defined.

(** ** Reasoning about monadic code *)

(** [hoare P c Q X]: from a state in [P], [c] returns [a] in a state in
    [Q a], or stops (an exception, or no return) in a state in [X]. *)
Definition hoare {S A} (P : S -> Prop) (c : M S A) (Q : A -> S -> Prop)
    (X : S -> Prop) : Prop :=
  ∀ s, P s -> match c s with
              | (Ok a, s') => Q a s'
              | (_, s') => X s'
              end.

Section hoare.
Context {S : Type}.
Implicit Types (P X : S -> Prop).

Lemma hoare_ret {A} P (Q : A -> S -> Prop) X (a : A) :
  (∀ s, P s -> Q a s) -> hoare P (mret a) Q X.
Proof. intros H s Hs. cbn. auto. Qed.

Lemma hoare_bind {A B} P (c : M S A) (k : A -> M S B) Q R X :
  hoare P c Q X -> (∀ a, hoare (Q a) (k a) R X) -> hoare P (c ≫= k) R X.
Proof.
  intros Hc Hk s Hs. specialize (Hc s Hs). unfold_monad.
  destruct (c s) as [[a| |] s']; [|done..].
  by apply Hk.
Qed.

Lemma hoare_conseq {A} P P' (c : M S A) (Q Q' : A -> S -> Prop) X X' :
  hoare P' c Q' X' ->
  (∀ s, P s -> P' s) -> (∀ a s, Q' a s -> Q a s) -> (∀ s, X' s -> X s) ->
  hoare P c Q X.
Proof.
  intros Hc HP HQ HX s Hs. specialize (Hc s (HP s Hs)).
  destruct (c s) as [[a| |] s']; auto.
Qed.

Lemma hoare_modify P (f : S -> S) (Q : unit -> S -> Prop) X :
  (∀ s, P s -> Q tt (f s)) -> hoare P (modify f) Q X.
Proof. intros H s Hs. cbn. auto. Qed.

Lemma hoare_get P (Q : S -> S -> Prop) X :
  (∀ s, P s -> Q s s) -> hoare P get Q X.
Proof. intros H s Hs. cbn. auto. Qed.

Lemma hoare_lift_outcome {A} P (r : outcome A) (Q : A -> S -> Prop) X :
  (∀ s, P s -> match r with Ok a => Q a s | _ => X s end) ->
  hoare P (lift_outcome r) Q X.
Proof. intros H s Hs. cbn. specialize (H s Hs). by destruct r. Qed.

Lemma hoare_raise {A} P (e : exn) (Q : A -> S -> Prop) X :
  (∀ s, P s -> X s) -> hoare P (raise e) Q X.
Proof. intros H s Hs. cbn. auto. Qed.

Lemma hoare_diverge {A} P (Q : A -> S -> Prop) X :
  (∀ s, P s -> X s) -> hoare P diverge Q X.
Proof. intros H s Hs. cbn. auto. Qed.
End hoare.

(** ** The dependency graph *)

(** ** Dicts *)

Section dict_facts.
Context {K V : Type} `{EqDecision K}.
Implicit Types (d : dict K V) (k : K).

Lemma dict_get_app d d' k :
  dict_get (d ++ d') k
  = match dict_get d k with Some v => Some v | None => dict_get d' k end.
Proof.
  induction d as [|[k' v] d IH]; cbn; [done|]. by destruct (decide _).
Qed.

Lemma dict_get_setdefault d k v k' :
  dict_get (dict_setdefault d k v) k'
  = match dict_get d k' with
    | Some x => Some x
    | None => if decide (k = k') then Some v else None
    end.
Proof.
  unfold dict_setdefault. destruct (dict_get d k) as [x|] eqn:Hk.
  - destruct (dict_get d k') eqn:Hk'; [done|].
    destruct (decide _) as [->|]; congruence.
  - rewrite dict_get_app. cbn. by destruct (dict_get d k').
Qed.

Lemma dict_get_alter (f : V -> V) d k k' :
  dict_get (dict_alter f k d) k'
  = if decide (k = k') then f <$> dict_get d k' else dict_get d k'.
Proof.
  induction d as [|[k0 v] d IH]; cbn; [by destruct (decide _)|].
  destruct (decide (k0 = k)) as [->|Hne]; cbn.
  - destruct (decide (k = k')); [done|done].
  - destruct (decide (k0 = k')) as [->|]; [|done].
    by destruct (decide (k = k')).
Qed.

Lemma dict_keys_get d k : k ∈ dict_keys d ↔ is_Some (dict_get d k).
Proof.
  unfold dict_keys. induction d as [|[k0 v] d IH]; cbn.
  - rewrite elem_of_nil. split; [done|]. by intros [? ?].
  - rewrite elem_of_cons, IH. destruct (decide (k0 = k)) as [->|].
    + split; eauto.
    + split; [intros [?|?]; [congruence|done]|by right].
Qed.
End dict_facts.

Module BuildSpec.
Import Flow.

Module GraphFacts.
Lemma graph_le_refl g : graph_le g g.
Proof. by split. Qed.

Lemma graph_le_trans g1 g2 g3 :
  graph_le g1 g2 -> graph_le g2 g3 -> graph_le g1 g3.
Proof. intros [] []. split; eauto. Qed.

Lemma edge_le g g' x y : graph_le g g' -> edge g x y -> edge g' x y.
Proof. intros [] []. split; eauto. Qed.

Lemma touch_le n g : graph_le g (touch n g).
Proof.
  split; unfold in_deps, in_rdeps, has_dep, has_rdep; cbn.
  - intros m [x Hx]. rewrite dict_get_setdefault, Hx. eauto.
  - intros m [x Hx]. rewrite dict_get_setdefault, Hx. eauto.
  - intros y x (ds & Hy & Hx). rewrite dict_get_setdefault, Hy. eauto.
  - intros x y (rs & Hx & Hy). rewrite dict_get_setdefault, Hx. eauto.
Qed.

Lemma touch_in n g : in_deps (touch n g) n ∧ in_rdeps (touch n g) n.
Proof.
  unfold in_deps, in_rdeps; cbn. rewrite !dict_get_setdefault.
  split.
  - destruct (dict_get (dependencies g) n); [eauto|].
    destruct (decide _); [eauto|done].
  - destruct (dict_get (reverse_deps g) n); [eauto|].
    destruct (decide _); [eauto|done].
Qed.

Lemma touch_in_deps_inv n g m : in_deps (touch n g) m -> in_deps g m ∨ m = n.
Proof.
  unfold in_deps; cbn. rewrite dict_get_setdefault.
  destruct (dict_get (dependencies g) m); [eauto|].
  destruct (decide _); [eauto|]. by intros [? ?].
Qed.

Lemma touch_dep_inv n g y x : has_dep (touch n g) y x -> has_dep g y x.
Proof.
  unfold has_dep; cbn. intros (ds & Hy & Hx).
  rewrite dict_get_setdefault in Hy.
  destruct (dict_get (dependencies g) y); [eauto|].
  destruct (decide _); [|done]. injection Hy as <-.
  by apply not_elem_of_empty in Hx.
Qed.

Lemma touch_rdep_inv n g x y : has_rdep (touch n g) x y -> has_rdep g x y.
Proof.
  unfold has_rdep; cbn. intros (rs & Hx & Hy).
  rewrite dict_get_setdefault in Hx.
  destruct (dict_get (reverse_deps g) x); [eauto|].
  destruct (decide _); [|done]. injection Hx as <-.
  by apply not_elem_of_empty in Hy.
Qed.

Lemma set_add_spec d k x d' :
  set_add d k x = Ok d' ->
  ∀ k', dict_get d' k'
        = if decide (k = k') then (fun s => {[x]} ∪ s) <$> dict_get d k'
          else dict_get d k'.
Proof.
  unfold set_add. destruct (dict_get d k); [|done].
  intros [= <-] k'. apply dict_get_alter.
Qed.

Lemma set_add_ok d k x :
  is_Some (dict_get d k) -> ∃ d', set_add d k x = Ok d'.
Proof. unfold set_add. intros [s ->]. eauto. Qed.

Lemma add_edge_ok n succ g :
  in_deps g succ -> in_rdeps g n -> ∃ g', add_edge n succ g = Ok g'.
Proof.
  intros Hs Hn. unfold add_edge.
  destruct (set_add_ok _ _ n Hs) as [d ->].
  destruct (set_add_ok _ _ succ Hn) as [r ->]. cbn. eauto.
Qed.

Lemma add_edge_spec n succ g g' :
  add_edge n succ g = Ok g' ->
  graph_le g g' ∧ edge g' n succ
  ∧ (∀ m, in_deps g' m -> in_deps g m)
  ∧ (∀ x y, has_dep g' y x -> has_dep g y x ∨ (x = n ∧ y = succ))
  ∧ (∀ x y, has_rdep g' x y -> has_rdep g x y ∨ (x = n ∧ y = succ))
  ∧ expanded g' = expanded g.
Proof.
  unfold add_edge.
  destruct (set_add (dependencies g) succ n) as [d| |] eqn:Hd; try done.
  destruct (set_add (reverse_deps g) n succ) as [r| |] eqn:Hr; try done.
  cbn. intros [= <-].
  pose proof (set_add_spec _ _ _ _ Hd) as Hd'.
  pose proof (set_add_spec _ _ _ _ Hr) as Hr'.
  assert (Hds : is_Some (dict_get (dependencies g) succ)).
  { unfold set_add in Hd. by destruct (dict_get _ succ). }
  assert (Hrs : is_Some (dict_get (reverse_deps g) n)).
  { unfold set_add in Hr. by destruct (dict_get _ n). }
  unfold edge. repeat split; unfold in_deps, in_rdeps, has_dep, has_rdep; cbn.
  - intros m [s Hm]. rewrite Hd', Hm. destruct (decide _); cbn; eauto.
  - intros m [s Hm]. rewrite Hr', Hm. destruct (decide _); cbn; eauto.
  - intros y x (ds & Hy & Hx). rewrite Hd', Hy.
    destruct (decide _); cbn; eexists; split; eauto.
    apply elem_of_union; by right.
  - intros x y (rs & Hx & Hy). rewrite Hr', Hx.
    destruct (decide _); cbn; eexists; split; eauto.
    apply elem_of_union; by right.
  - destruct Hds as [ds Hds]. rewrite Hd', Hds.
    rewrite decide_True by done. cbn. eexists; split; [done|].
    apply elem_of_union; left; by apply elem_of_singleton.
  - destruct Hrs as [rs Hrs]. rewrite Hr', Hrs.
    rewrite decide_True by done. cbn. eexists; split; [done|].
    apply elem_of_union; left; by apply elem_of_singleton.
  - intros m [s Hm]. rewrite Hd' in Hm.
    destruct (decide _); [|eauto].
    destruct (dict_get (dependencies g) m); [eauto|done].
  - intros x y (ds & Hy & Hx). rewrite Hd' in Hy.
    destruct (decide (succ = y)) as [<-|]; [|eauto].
    destruct (dict_get (dependencies g) succ) as [ds0|]; [|done].
    injection Hy as <-. apply elem_of_union in Hx as [Hx|Hx].
    + apply elem_of_singleton in Hx. by right.
    + left. eauto.
  - intros x y (rs & Hx & Hy). rewrite Hr' in Hx.
    destruct (decide (n = x)) as [<-|]; [|eauto].
    destruct (dict_get (reverse_deps g) n) as [rs0|]; [|done].
    injection Hx as <-. apply elem_of_union in Hy as [Hy|Hy].
    + apply elem_of_singleton in Hy. by right.
    + left. eauto.
Qed.

Lemma enter_touch n g :
  let g0 := enter n (touch n g) in
  graph_le g g0 ∧ in_deps g0 n ∧ in_rdeps g0 n
  ∧ (∀ m, in_deps g0 m -> in_deps g m ∨ m = n)
  ∧ (∀ x y, has_dep g0 y x -> has_dep g y x)
  ∧ (∀ x y, has_rdep g0 x y -> has_rdep g x y)
  ∧ expanded g0 = expanded g ++ [n].
Proof.
  cbn. destruct (touch_le n g) as [H1 H2 H3 H4].
  split; [split; [exact H1|exact H2|exact H3|exact H4]|].
  split; [exact (proj1 (touch_in n g))|].
  split; [exact (proj2 (touch_in n g))|].
  split; [exact (touch_in_deps_inv n g)|].
  split; [exact (fun x y => touch_dep_inv n g y x)|].
  split; [exact (touch_rdep_inv n g)|done].
Qed.
End GraphFacts.


Section for_each_facts.
Context {A G : Type}.
Implicit Types (f : A -> G -> outcome G) (l : list A).

Lemma for_each_app f l1 l2 g :
  for_each f (l1 ++ l2) g = for_each f l1 g ≫= for_each f l2.
Proof.
  revert g. induction l1 as [|x l1 IH]; intros g; cbn; [done|].
  destruct (f x g); cbn; [apply IH|done..].
Qed.

Lemma for_each_concat {B} f (h : B -> list A) (l : list B) g :
  for_each (fun x g => for_each f (h x) g) l g
  = for_each f (concat (map h l)) g.
Proof.
  revert g. induction l as [|x l IH]; intros g; cbn; [done|].
  rewrite for_each_app. destruct (for_each f (h x) g); cbn; [apply IH|done..].
Qed.

(** Loop invariant: [P done g] after the elements [done] are processed. *)
Lemma for_each_ind f (P : list A -> G -> Prop) l g g' :
  for_each f l g = Ok g' ->
  P [] g ->
  (∀ done x g1 g2, P done g1 -> x ∈ l -> f x g1 = Ok g2 ->
                   P (done ++ [x]) g2) ->
  P l g'.
Proof.
  intros Hrun H0 Hstep.
  enough (∀ pre l' g, P pre g -> for_each f l' g = Ok g' ->
                      (∀ x, x ∈ l' -> x ∈ l) -> P (pre ++ l') g') as H.
  { by apply (H [] l g). }
  clear g Hrun H0. intros pre l'. revert pre.
  induction l' as [|x l' IH]; intros pre g Hp Hrun Hin; cbn in Hrun.
  - injection Hrun as <-. by rewrite app_nil_r.
  - destruct (f x g) as [g1| |] eqn:Hx; try done.
    rewrite (cons_middle x pre l'), app_assoc.
    apply (IH _ g1); [|done|].
    + eapply Hstep; eauto. apply Hin. by left.
    + intros y Hy. apply Hin. by right.
Qed.
End for_each_facts.


Section build_facts.
Context {U V : Type}.
Variable heap : node -> BaseNode.obj U V.

Local Abbreviation selected := (selected heap).
Local Abbreviation full := (full heap).
Local Abbreviation origin := (origin heap).
Local Abbreviation visit := (visit heap).
Local Abbreviation built := (built heap).
Local Abbreviation reach := (reach heap).
Local Abbreviation add_dependency := (add_dependency heap).
Local Abbreviation expansion := (expansion heap).
Local Abbreviation depth_ok := (depth_ok heap).

Lemma add_dependency_unfold d n act g :
  add_dependency (S d) n act g
  = for_each (visit d n) (selected n act) (enter n (touch n g)).
Proof.
  cbn [Flow.add_dependency]. unfold Flow.selected.
  by rewrite <- for_each_concat.
Qed.

Lemma origin_mono n sel sel' x y :
  (∀ m, m ∈ sel -> m ∈ sel') -> origin n sel x y -> origin n sel' x y.
Proof.
  intros Hs [[-> Hy]|(m & Hm & Hr & Hy)]; [left|right]; eauto.
Qed.

Lemma origin_below n succ sel x y :
  origin succ (selected succ None) x y -> origin n (sel ++ [succ]) x y.
Proof.
  intros [[-> Hy]|(m & Hm & Hr & Hy)]; right; exists succ.
  - split; [apply elem_of_app; right; by apply list_elem_of_singleton|].
    split; [constructor|done].
  - split; [apply elem_of_app; right; by apply list_elem_of_singleton|].
    split; [by econstructor|done].
Qed.

Lemma full_le g g' m : graph_le g g' -> full g m -> full g' m.
Proof. intros Hle Hf y Hy. eapply GraphFacts.edge_le; eauto. Qed.

Lemma add_dependency_built d n act g g' :
  add_dependency d n act g = Ok g' -> built d n act g g'.
Proof.
  revert n act g g'. induction d as [|d IH]; intros n act g g' Hrun;
    [done|].
  rewrite add_dependency_unfold in Hrun.
  set (g0 := enter n (touch n g)) in *.
  destruct (GraphFacts.enter_touch n g)
    as (Hle0 & Hin0 & Hrin0 & Hinv0 & Hdep0 & Hrdep0 & Hex0).
  fold g0 in Hle0, Hin0, Hrin0, Hinv0, Hdep0, Hrdep0, Hex0.
  pose (P := fun (done : list node) (g1 : dep_graph) =>
    graph_le g0 g1
    ∧ (∀ m, m ∈ done -> edge g1 n m)
    ∧ (∀ m, in_deps g1 m -> in_deps g0 m ∨ full g1 m)
    ∧ (∀ x y, has_rdep g1 x y -> has_rdep g0 x y ∨ origin n done x y)
    ∧ (∀ x y, has_dep g1 y x -> has_dep g0 y x ∨ origin n done x y)
    ∧ (rdep_closed g0 -> rdep_closed g1)
    ∧ expanded g1
      = expanded g0 ++ concat (map (fun m => expansion d m None) done)).
  assert (HP : P (selected n act) g').
  { apply (for_each_ind _ P _ _ _ Hrun).
    - unfold P. split; [apply GraphFacts.graph_le_refl|].
      split; [intros m Hm; by apply elem_of_nil in Hm|].
      split; [eauto|]. split; [eauto|]. split; [eauto|].
      split; [done|]. cbn. by rewrite app_nil_r.
    - intros done succ g1 g2 (Hle & He & Hf & Hr & Hd & Hc & Hx) _ Hv.
      unfold visit in Hv.
      destruct (add_edge n succ (touch succ g1)) as [ga| |] eqn:Ha;
        try done.
      cbn in Hv. apply IH in Hv as [Ble Bin Bedges Bfull Brdep Bdep Bcl Bex].
      apply GraphFacts.add_edge_spec in Ha
        as (Hlea & Hea & Hia & Hda & Hra & Hxa).
      pose proof (GraphFacts.touch_le succ g1) as Hlet.
      assert (Hle12 : graph_le g1 g2).
      { eapply GraphFacts.graph_le_trans; [exact Hlet|].
        eapply GraphFacts.graph_le_trans; eauto. }
      unfold P. split; [eapply GraphFacts.graph_le_trans; eauto|].
      split.
      { intros m Hm. apply elem_of_app in Hm as [Hm|Hm].
        - apply (GraphFacts.edge_le g1 g2); [exact Hle12|by apply He].
        - apply list_elem_of_singleton in Hm as ->.
          apply (GraphFacts.edge_le ga g2); [exact Ble|exact Hea]. }
      split.
      { intros m Hm.
        apply Bfull in Hm as [Hm|[->|Hm]]; [|right; exact Bedges|by right].
        apply Hia, GraphFacts.touch_in_deps_inv in Hm as [Hm| ->];
          [|right; exact Bedges].
        apply Hf in Hm as [Hm|Hm]; [by left|right].
        by eapply full_le. }
      split.
      { intros x y Hxy. apply Brdep in Hxy as [Hxy|Hxy];
          [|right; by apply origin_below].
        apply Hra in Hxy as [Hxy|[-> ->]].
        - apply GraphFacts.touch_rdep_inv, Hr in Hxy as [Hxy|Hxy];
            [by left|right].
          eapply origin_mono; [|done]. intros m Hm. apply elem_of_app; eauto.
        - right. left. split; [done|].
          apply elem_of_app; right; by apply list_elem_of_singleton. }
      split.
      { intros x y Hxy. apply Bdep in Hxy as [Hxy|Hxy];
          [|right; by apply origin_below].
        apply Hda in Hxy as [Hxy|[-> ->]].
        - apply GraphFacts.touch_dep_inv, Hd in Hxy as [Hxy|Hxy];
            [by left|right].
          eapply origin_mono; [|done]. intros m Hm. apply elem_of_app; eauto.
        - right. left. split; [done|].
          apply elem_of_app; right; by apply list_elem_of_singleton. }
      split.
      { intros Hc0. apply Bcl. intros x y Hxy.
        apply Hra in Hxy as [Hxy|[-> ->]].
        - apply (le_in_deps _ _ Hlea), (le_in_deps _ _ Hlet).
          apply (Hc Hc0 x). by apply (GraphFacts.touch_rdep_inv succ).
        - apply (le_in_deps _ _ Hlea). apply GraphFacts.touch_in. }
      rewrite Bex, Hxa. cbn [touch expanded]. rewrite Hx.
      rewrite map_app, concat_app. cbn. by rewrite app_nil_r, app_assoc. }
  destruct HP as (Hle & He & Hf & Hr & Hd & Hc & Hx).
  split.
  - eapply GraphFacts.graph_le_trans; eauto.
  - split; [by apply (le_in_deps _ _ Hle)|by apply (le_in_rdeps _ _ Hle)].
  - done.
  - intros m Hm. apply Hf in Hm as [Hm|Hm]; [|by right; right].
    apply Hinv0 in Hm as [Hm| ->]; eauto.
  - intros x y Hxy. apply Hr in Hxy as [Hxy|Hxy]; [left|by right].
    by apply Hrdep0.
  - intros x y Hxy. apply Hd in Hxy as [Hxy|Hxy]; [left|by right].
    by apply Hdep0.
  - intros Hc0. apply Hc. intros x y Hxy.
    apply (le_in_deps _ _ Hle0). apply (Hc0 x). by apply Hrdep0.
  - rewrite Hx, Hex0. cbn. by rewrite <- app_assoc.
Qed.
End build_facts.


Section depth_facts.
Context {U V : Type}.
Variable heap : node -> BaseNode.obj U V.

Local Abbreviation selected := (selected heap).
Local Abbreviation reach := (reach heap).
Local Abbreviation add_dependency := (add_dependency heap).
Local Abbreviation depth_ok := (depth_ok heap).
Local Abbreviation successors_under := (successors_under heap).

Lemma selected_label n label m :
  m ∈ successors_under n label -> m ∈ selected n None.
Proof.
  unfold Flow.successors_under, Flow.selected, Flow.actions_of.
  destruct (dict_get _ label) as [l|] eqn:Hl; cbn;
    [|intros H; by apply elem_of_nil in H].
  intros Hm. apply list_elem_of_In, in_concat.
  exists l. split; [|by apply list_elem_of_In].
  apply in_map_iff. exists label. unfold Flow.successors_under.
  rewrite Hl. split; [done|].
  apply list_elem_of_In, dict_keys_get. eauto.
Qed.

Lemma selected_action n a m :
  a ≠ ""%string -> m ∈ selected n (Some a) ↔ m ∈ successors_under n a.
Proof.
  intros Ha. unfold Flow.selected, Flow.actions_of.
  rewrite decide_False by done. cbn. by rewrite app_nil_r.
Qed.

Lemma selected_any n act m : m ∈ selected n act -> m ∈ selected n None.
Proof.
  destruct act as [a|]; [|done].
  destruct (decide (a = ""%string)) as [->|Ha]; [done|].
  rewrite selected_action by done. apply selected_label.
Qed.

Lemma depth_ok_succ d n act m :
  depth_ok (S d) n act = true -> m ∈ selected n act ->
  depth_ok d m None = true.
Proof.
  cbn. rewrite forallb_forall. intros H Hm. by apply H, list_elem_of_In.
Qed.

Lemma depth_ok_mono d n act :
  depth_ok d n act = true -> depth_ok (S d) n act = true.
Proof.
  revert n act. induction d as [|d IH]; intros n act H; [done|].
  cbn [Flow.depth_ok] in *. rewrite forallb_forall in *.
  intros m Hm. apply IH. by apply H.
Qed.

Lemma depth_ok_reach d m x :
  depth_ok d m None = true -> reach m x -> depth_ok d x None = true.
Proof.
  intros Hd Hr. revert d Hd.
  induction Hr as [n|n m x Hm Hr IH]; intros d Hd; [done|].
  destruct d as [|d]; [done|].
  apply depth_ok_mono, IH. by eapply depth_ok_succ.
Qed.

(** Where the construction returns, no node it expands is on a cycle. *)
Lemma depth_ok_acyclic d x y :
  depth_ok d x None = true -> y ∈ selected x None -> reach y x -> False.
Proof.
  induction d as [|d IH]; intros Hd Hy Hr; [done|].
  apply IH; [|done..].
  eapply depth_ok_reach; [|exact Hr]. by eapply depth_ok_succ.
Qed.

Lemma visit_all_outcome d n sel g :
  (∀ m act g, match add_dependency d m act g with
              | Ok _ => depth_ok d m act = true
              | Raise e => e = RecursionError ∧ depth_ok d m act = false
              | Diverge => False
              end) ->
  in_rdeps g n ->
  match for_each (visit heap d n) sel g with
  | Ok _ => forallb (fun m => depth_ok d m None) sel = true
  | Raise e =>
      e = RecursionError ∧ forallb (fun m => depth_ok d m None) sel = false
  | Diverge => False
  end.
Proof.
  intros IH. revert g. induction sel as [|succ sel IHsel]; intros g Hn;
    cbn; [done|].
  unfold visit at 1.
  destruct (GraphFacts.add_edge_ok n succ (touch succ g)) as [ga Ha].
  { apply GraphFacts.touch_in. }
  { by apply (le_in_rdeps _ _ (GraphFacts.touch_le succ g)). }
  rewrite Ha. cbn.
  pose proof (IH succ None ga) as Hsucc.
  destruct (add_dependency d succ None ga) as [g2| |] eqn:Hrun; [| |done].
  - rewrite Hsucc. cbn. apply IHsel.
    apply add_dependency_built in Hrun as [Hle _ _ _ _ _ _ _].
    apply (le_in_rdeps _ _ Hle).
    apply GraphFacts.add_edge_spec in Ha as (Hlea & _).
    apply (le_in_rdeps _ _ Hlea).
    by apply (le_in_rdeps _ _ (GraphFacts.touch_le succ g)).
  - destruct Hsucc as [-> ->]. done.
Qed.

(** [add_dependency] returns, or the recursion is too deep: nothing else
    can happen. *)
Lemma add_dependency_outcome d n act g :
  match add_dependency d n act g with
  | Ok _ => depth_ok d n act = true
  | Raise e => e = RecursionError ∧ depth_ok d n act = false
  | Diverge => False
  end.
Proof.
  revert n act g. induction d as [|d IH]; intros n act g; [done|].
  rewrite add_dependency_unfold. cbn [Flow.depth_ok].
  apply visit_all_outcome; [exact IH|].
  apply GraphFacts.enter_touch.
Qed.

Lemma add_dependency_cycle d n act g m x y :
  m ∈ selected n act -> reach m x -> y ∈ selected x None -> reach y x ->
  add_dependency d n act g = Raise RecursionError.
Proof.
  intros Hm Hmx Hy Hyx. pose proof (add_dependency_outcome d n act g) as H.
  destruct (add_dependency d n act g) as [g'|e|]; [| |done].
  - exfalso. destruct d as [|d]; [done|].
    eapply (depth_ok_acyclic d x y); [|done..].
    eapply depth_ok_reach; [|exact Hmx]. by eapply depth_ok_succ.
  - by destruct H as [-> _].
Qed.
End depth_facts.
End BuildSpec.

(** ** The orchestrator *)

Module FlowSpec.
Import Flow.
Section flow.
Context {U V : Type}.
Variable heap : node -> BaseNode.obj U V.
Variable set_order : gset node -> list node.
Variable recursion_limit : nat.

Local Abbreviation state := (state U V).
Local Abbreviation execute_node := (execute_node heap).
Local Abbreviation lifecycle := (lifecycle heap).
Local Abbreviation run_wave := (run_wave heap).
Local Abbreviation wave_loop := (wave_loop heap set_order).
Local Abbreviation _orch := (_orch heap set_order recursion_limit).

Definition three (n : node) : list (phase * node) :=
  [(Prep, n); (Exec, n); (Post, n)].

(** What [execute_node] does to a node that is not in [action_map]. *)
Lemma execute_node_run p n (st : state) :
  n ∉ dom (action_map st) ->
  ∃ pre, pre `prefix_of` three n ∧
    execute_node p (Some n) st =
    match lifecycle p n (world st) with
    | (Ok act, w') =>
        (Ok (Some (or_default act)),
         State w' (<[n := or_default act]> (action_map st))
               (phases st ++ three n) (sched st) (warnings st))
    | (Raise e, w') =>
        (Raise e, State w' (action_map st) (phases st ++ pre) (sched st)
                        (warnings st))
    | (Diverge, w') =>
        (Diverge, State w' (action_map st) (phases st ++ pre) (sched st)
                        (warnings st))
    end.
Proof.
  intros Hn. unfold Flow.execute_node, Flow.lifecycle.
  unfold_monad. cbn. destruct (decide _) as [|_]; [done|].
  unfold lift_env, lift_user, log_phase, set_action_map, modify; cbn.
  destruct (BaseNode.prep (heap n) p (user (world st))) as [[a| |] u1];
    cbn; try (exists [(Prep, n)]; split; [by exists [(Exec, n); (Post, n)]|done]).
  destruct (BaseNode._exec (heap n) p a _) as [[b| |] w2];
    cbn; try (exists [(Prep, n); (Exec, n)]; split;
              [by exists [(Post, n)]|by rewrite <- app_assoc]).
  destruct (BaseNode.post (heap n) p a b (user w2)) as [[c| |] u3];
    cbn; exists (three n); (split; [done|]);
    by rewrite <- !app_assoc.
Qed.

(** A node that is in [action_map] is skipped. *)
Lemma execute_node_skip p n (st : state) :
  n ∈ dom (action_map st) -> execute_node p (Some n) st = (Ok None, st).
Proof.
  intros Hn. unfold Flow.execute_node. unfold_monad. cbn.
  by destruct (decide _).
Qed.

(** *** At most one execution per node *)

Definition once_inv (st : state) : Prop :=
  NoDup (phases st)
  ∧ ∀ ph n, (ph, n) ∈ phases st -> n ∈ dom (action_map st).

Definition once_exc (st : state) : Prop := NoDup (phases st).

Lemma elem_of_three ph m n : (ph, m) ∈ three n -> m = n.
Proof.
  unfold three. rewrite !elem_of_cons, elem_of_nil.
  intros [H|[H|[H|[]]]]; congruence.
Qed.

Lemma NoDup_three n : NoDup (three n).
Proof.
  unfold three. repeat (apply NoDup_cons; split;
    [rewrite ?elem_of_cons, elem_of_nil; intros H; decompose [or] H;
     congruence|]).
  apply NoDup_nil_2.
Qed.

Lemma NoDup_phases_prefix (l pre : list (phase * node)) n :
  NoDup l -> (∀ ph, (ph, n) ∉ l) -> pre `prefix_of` three n ->
  NoDup (l ++ pre).
Proof.
  intros Hl Hn [suf Hpre]. apply NoDup_app. split; [done|]. split.
  - intros [ph m] Hin Hin'.
    assert ((ph, m) ∈ three n) as H3
      by (rewrite Hpre; apply elem_of_app; by left).
    apply elem_of_three in H3 as ->. by eapply Hn.
  - pose proof (NoDup_three n) as H3.
    rewrite Hpre in H3. by apply NoDup_app in H3 as (? & _).
Qed.

Lemma once_execute_node p on :
  hoare once_inv (execute_node p on) (fun _ => once_inv) once_exc.
Proof.
  intros st [Hnd Hdom]. destruct on as [n|]; [|done].
  destruct (decide (n ∈ dom (action_map st))) as [Hin|Hnin].
  { rewrite execute_node_skip by done. by split. }
  destruct (execute_node_run p n st Hnin) as (pre & Hpre & ->).
  assert (Hfresh : ∀ ph, (ph, n) ∉ phases st) by (intros ph H; eauto).
  destruct (lifecycle p n (world st)) as [[act| |] w']; cbn.
  - split; cbn.
    + by apply (NoDup_phases_prefix _ _ n).
    + intros ph m. rewrite elem_of_app, dom_insert, elem_of_union.
      intros [Hm|Hm]; [right; eauto|left].
      apply elem_of_three in Hm as ->. by apply elem_of_singleton.
  - by apply (NoDup_phases_prefix _ _ n).
  - by apply (NoDup_phases_prefix _ _ n).
Qed.

Lemma once_run_wave p k ready completed :
  hoare once_inv (run_wave p k ready completed) (fun _ => once_inv) once_exc.
Proof.
  revert completed. induction ready as [|n rest IH]; intros completed;
    cbn [Flow.run_wave].
  - by apply hoare_ret.
  - destruct (decide _); [apply IH|].
    eapply hoare_bind with (Q := fun _ => once_inv);
      [apply hoare_modify|intros []].
    { intros s Hs. exact Hs. }
    eapply hoare_bind; [apply once_execute_node|intros ?]. apply IH.
Qed.

Lemma once_wave_loop fuel p deps rdeps k ready completed :
  hoare once_inv (wave_loop fuel p deps rdeps k ready completed)
        (fun _ => once_inv) once_exc.
Proof.
  revert k ready completed.
  induction fuel as [|fuel IH]; intros k ready completed;
    destruct ready as [|r ready]; cbn [Flow.wave_loop];
    try by apply hoare_ret.
  - apply hoare_diverge. by intros s [].
  - eapply hoare_bind; [apply once_run_wave|intros completed'].
    eapply hoare_bind with (Q := fun _ => once_inv);
      [|intros ready'; apply IH].
    apply hoare_lift_outcome. intros s Hs.
    destruct (scan_completed _ _ _ _); [done|by destruct Hs..].
Qed.

Lemma once_orch fuel self params :
  hoare (fun st => phases st = []) (_orch fuel self params)
        (fun _ => once_inv) once_exc.
Proof.
  unfold Flow._orch.
  eapply hoare_bind with (Q := fun _ => once_inv).
  { apply hoare_modify. intros s Hs. split; cbn; rewrite Hs.
    - apply NoDup_nil_2.
    - intros ph n H. by apply elem_of_nil in H. }
  intros []. eapply hoare_bind; [apply once_execute_node|intros ?].
  destruct (start_node self) as [s|]; [|apply hoare_raise; by intros ? []].
  eapply hoare_bind with (Q := fun _ => once_inv);
    [apply hoare_get; intros st Hst; exact Hst|intros st0].
  eapply hoare_bind with (Q := fun _ => once_inv).
  { apply hoare_lift_outcome. intros st Hst.
    destruct (_build_dependency_graph _ _ _ _); [done|by destruct Hst..]. }
  intros g. eapply hoare_bind; [apply once_wave_loop|intros []].
  eapply hoare_bind with (Q := fun _ => once_inv);
    [apply hoare_get; intros st Hst; exact Hst|intros st1].
  by apply hoare_ret.
Qed.
End flow.

(** C2: in a run of [_orch], each of [prep], [_exec] and [post] is invoked
    at most once on each node, whatever the graph and however the run
    ends, and [execute_node] on a node that is in the action map returns
    at once and changes nothing. *)
Theorem C2_at_most_once {U V : Type} (heap : node -> BaseNode.obj U V)
    (set_order : gset node -> list node) (recursion_limit : nat) :
  (∀ fuel self params w,
      NoDup (phases (_orch heap set_order recursion_limit fuel self params
                       (fresh w)).2))
  ∧ (∀ p n (st : state U V),
      n ∈ dom (action_map st) ->
      execute_node heap p (Some n) st = (Ok None, st)).
Proof.
  split.
  - intros fuel self params w.
    pose proof (once_orch heap set_order recursion_limit fuel self params
                  (fresh w) eq_refl) as H.
    destruct (_orch _ _ _ _ _ _ _) as [[r| |] st']; cbn; [apply H|done..].
  - intros p n st. apply execute_node_skip.
Qed.
End FlowSpec.

(** ** The wave scheduler *)

Module Aux.
Lemma hoare_bind_assoc {S A B C} (P : S -> Prop) (c : M S A)
    (k1 : A -> M S B) (k2 : B -> M S C) Q X :
  hoare P ((c ≫= k1) ≫= k2) Q X ->
  hoare P (c ≫= λ x, k1 x ≫= k2) Q X.
Proof.
  intros H st Hst. specialize (H st Hst). unfold_monad.
  by destruct (c st) as [[x| |] st1].
Qed.

Lemma hoare_lift_outcome_bind {S A B} (P : S -> Prop) (r : outcome A)
    (k : A -> M S B) Q (X : S -> Prop) :
  (∀ x, r = Ok x -> hoare P (k x) Q X) ->
  (∀ st, P st -> X st) ->
  hoare P (lift_outcome r ≫= k) Q X.
Proof.
  intros Hk HX st Hst. unfold_monad. destruct r as [x| |]; cbn.
  - by apply (Hk x).
  - by apply HX.
  - by apply HX.
Qed.

Lemma hoare_pure_pre {S A} (P : S -> Prop) (φ : Prop) (c : M S A) Q X :
  (φ -> hoare P c Q X) -> hoare (λ st, P st ∧ φ) c Q X.
Proof. intros H st [Hst Hφ]. by apply H. Qed.

Lemma size_list_to_set_le (l : list node) :
  size (list_to_set l : gset node) ≤ length l.
Proof.
  induction l as [|x l IH]; cbn.
  - by rewrite size_empty.
  - destruct (decide (x ∈ (list_to_set l : gset node))) as [Hx|Hx].
    + replace ({[x]} ∪ list_to_set l) with (list_to_set l : gset node)
        by set_solver. lia.
    + rewrite size_union by set_solver. rewrite size_singleton. lia.
Qed.
End Aux.

Module SchedSpec.
Import Flow.
Section sched.
Context {U V : Type}.
Variable heap : node -> BaseNode.obj U V.
Variable set_order : gset node -> list node.
Hypothesis set_order_perm : ∀ X, set_order X ≡ₚ elements X.
Variable p : params V.
Variable deps rdeps : dict node (gset node).
(** The start node, the action recorded for it, and the world it left. *)
Variable s : node.
Variable a : string.
Variable w1 : env U V.

Local Abbreviation state := (state U V).
Local Abbreviation entry := (sched_entry U V).
Local Abbreviation execute_node := (execute_node heap).
Local Abbreviation lifecycle := (lifecycle heap).
Local Abbreviation run_wave := (run_wave heap).
Local Abbreviation wave_loop := (wave_loop heap set_order).
Local Abbreviation chain := (chain heap p).
Local Abbreviation step_ok := (step_ok heap p).
Local Abbreviation sched_ok := (sched_ok heap p deps s).

Lemma elem_of_set_order x X : x ∈ set_order X ↔ x ∈ X.
Proof. by rewrite (set_order_perm X), elem_of_elements. Qed.

Lemma chain_snoc (l : list entry) e' :
  chain l -> (∀ e, last l = Some e -> step_ok e e') -> chain (l ++ [e']).
Proof.
  induction l as [|e1 l IH]; intros Hc Hl; [done|].
  destruct l as [|e2 l]; cbn.
  - split; [by apply Hl|done].
  - destruct Hc as [H12 Hc]. split; [done|]. apply IH; [done|].
    intros e He. apply Hl. exact He.
Qed.

(** The head of the record starts in the world the start node left. *)
Definition hd_ok (st : state) : Prop :=
  match sched st with
  | [] => world st = w1
  | e :: _ => se_env e = w1
  end.

Definition last_ok (st : state) : Prop :=
  ∀ e, last (sched st) = Some e ->
       ∃ act, lifecycle p (se_node e) (se_env e) = (Ok act, world st).

(** What holds when a run stops, whether it returns or not. *)
Definition stop_inv (st : state) : Prop :=
  sched_ok (sched st)
  ∧ action_map st !! s = Some a
  ∧ match sched st with [] => True | e :: _ => se_env e = w1 end.

(** What holds while wave [k] runs; [C0] is [completed_nodes] as it was
    when the wave started, [C] as it is now. *)
Definition wave_inv (k : nat) (C0 C : gset node) (st : state) : Prop :=
  sched_ok (sched st)
  ∧ action_map st !! s = Some a
  ∧ hd_ok st ∧ last_ok st
  ∧ s ∈ C0 ∧ C0 ⊆ C ∧ dom (action_map st) ⊆ C
  ∧ (∀ e, e ∈ sched st ->
          se_node e ∈ C ∧ se_wave e ≤ k ∧ (se_node e ∈ C0 -> se_wave e < k))
  ∧ (∀ c, c ∈ C -> c = s ∨ ∃ e, e ∈ sched st ∧ se_node e = c).

Definition ready_ok (C0 : gset node) (ready : list node) : Prop :=
  ∀ r, r ∈ ready -> ∃ ds, dict_get deps r = Some ds ∧ ds ⊆ C0.

Lemma wave_inv_stop k C0 C st : wave_inv k C0 C st -> stop_inv st.
Proof.
  intros (Hok & Ham & Hhd & _). split; [done|]. split; [done|].
  unfold hd_ok in Hhd. by destruct (sched st).
Qed.

Lemma schedule_one k C0 C n ds :
  n ∉ C -> dict_get deps n = Some ds -> ds ⊆ C0 ->
  hoare (wave_inv k C0 C)
        (log_sched k n C ≫= λ _, execute_node p (Some n))
        (λ _, wave_inv k C0 ({[n]} ∪ C)) stop_inv.
Proof.
  intros Hn Hds Hsub st (Hok & Ham & Hhd & Hlast & Hs & HC0 & Hdom & Hent & Hcomp).
  destruct Hok as [Hnd Hdeps Hchain].
  unfold_monad. unfold log_sched, modify. cbn beta iota.
  set (e_new := Sched k n C (world st)).
  set (st1 := State (world st) (action_map st) (phases st)
                    (sched st ++ [e_new]) (warnings st)).
  assert (Hn_am : n ∉ dom (action_map st1)) by (cbn; set_solver).
  assert (Hns : n ≠ s) by set_solver.
  (* the record with the new entry *)
  assert (Hok1 : sched_ok (sched st ++ [e_new])).
  { split.
    - rewrite fmap_app. apply NoDup_app. split; [done|]. split.
      + intros m Hm Hm'. apply list_elem_of_singleton in Hm'. cbn in Hm'.
        subst m. apply list_elem_of_fmap in Hm as (e & -> & He).
        apply Hn. by apply Hent.
      + cbn. apply NoDup_singleton.
    - intros e He. apply elem_of_app in He as [He|He].
      + destruct (Hdeps e He) as (Hes & ds' & Hds' & Hsub' & Hearlier).
        split; [done|]. exists ds'. split; [done|]. split; [done|].
        intros d Hd. destruct (Hearlier d Hd) as [->|(e' & He' & Hn' & Hw')];
          [by left|right].
        exists e'. split; [apply elem_of_app; by left|done].
      + apply list_elem_of_singleton in He as ->. cbn.
        split; [done|]. exists ds. split; [done|].
        split; [set_solver|].
        intros d Hd. assert (d ∈ C0) as HdC0 by set_solver.
        destruct (Hcomp d (HC0 d HdC0)) as [->|(e' & He' & Hn')];
          [by left|right].
        exists e'. split; [apply elem_of_app; by left|]. split; [done|].
        apply Hent; [done|]. by rewrite Hn'.
    - apply chain_snoc; [done|]. intros e He.
      destruct (Hlast e He) as [act Hact]. by exists act. }
  assert (Hhd1 : match sched st ++ [e_new] with
                 | [] => True | e :: _ => se_env e = w1 end).
  { unfold hd_ok in Hhd. destruct (sched st); cbn; done. }
  destruct (FlowSpec.execute_node_run heap p n st1 Hn_am) as (pre & _ & Hrun).
  fold st1. rewrite Hrun. cbn [world st1].
  destruct (lifecycle p n (world st)) as [[act| |] w'] eqn:Hlife; cbn.
  - (* the node returned *)
    unfold wave_inv, hd_ok, last_ok.
    cbn [world action_map sched phases warnings st1].
    split; [done|].
    split; [by rewrite lookup_insert_ne|].
    split; [unfold hd_ok in Hhd; by destruct (sched st)|].
    split.
    { intros e He. rewrite last_snoc in He. injection He as <-.
      exists act. exact Hlife. }
    split; [done|]. split; [set_solver|].
    split; [rewrite dom_insert; set_solver|].
    split.
    + intros e He. cbn in He. apply elem_of_app in He as [He|He].
      * destruct (Hent e He) as (H1 & H2 & H3).
        split; [set_solver|done].
      * apply list_elem_of_singleton in He as ->. cbn.
        split; [set_solver|]. split; [done|]. intros HnC0. set_solver.
    + intros c Hc. cbn. apply elem_of_union in Hc as [Hc|Hc].
      * apply elem_of_singleton in Hc as ->. right. exists e_new.
        split; [apply elem_of_app; right; by apply list_elem_of_singleton|done].
      * destruct (Hcomp c Hc) as [->|(e & He & Hne)]; [by left|right].
        exists e. split; [apply elem_of_app; by left|done].
  - unfold stop_inv. cbn [world action_map sched phases warnings st1]. done.
  - unfold stop_inv. cbn [world action_map sched phases warnings st1]. done.
Qed.

Lemma run_wave_inv k C0 ready C :
  ready_ok C0 ready ->
  hoare (wave_inv k C0 C) (run_wave p k ready C) (λ C', wave_inv k C0 C')
        stop_inv.
Proof.
  revert C. induction ready as [|n rest IH]; intros C Hready;
    cbn [Flow.run_wave].
  - by apply hoare_ret.
  - assert (Hrest : ready_ok C0 rest).
    { intros r Hr. apply Hready. by right. }
    destruct (decide (n ∈ C)) as [|Hn]; [by apply IH|].
    destruct (Hready n) as (ds & Hds & Hsub); [by left|].
    apply Aux.hoare_bind_assoc.
    eapply hoare_bind; [by eapply schedule_one|].
    intros ?. by apply IH.
Qed.

Definition all_done (C : gset node) (l : list node) : Prop :=
  ∀ r, r ∈ l -> deps_done deps C r = Ok true.

Lemma scan_dependents_sound C ds ready l :
  scan_dependents deps C ds ready = Ok l -> all_done C ready -> all_done C l.
Proof.
  intros Hrun Hready. unfold scan_dependents in Hrun.
  apply (BuildSpec.for_each_ind _ (λ _ l, all_done C l) _ _ _ Hrun);
    [done|].
  intros _ x l1 l2 Hl1 _ Hx.
  destruct (deps_done deps C x) as [[|]| |] eqn:Hd; cbn in Hx; try done.
  - injection Hx as <-. intros r Hr. apply elem_of_app in Hr as [Hr|Hr].
    + by apply Hl1.
    + by apply list_elem_of_singleton in Hr as ->.
  - by injection Hx as <-.
Qed.

Lemma scan_completed_sound C l :
  scan_completed set_order deps rdeps C = Ok l -> all_done C l.
Proof.
  intros Hrun. unfold scan_completed in Hrun.
  apply (BuildSpec.for_each_ind _ (λ _ l, all_done C l) _ _ _ Hrun).
  - intros r Hr. by apply elem_of_nil in Hr.
  - intros _ x l1 l2 Hl1 _ Hx. by eapply scan_dependents_sound.
Qed.

Lemma all_done_ready C l :
  all_done C l -> ready_ok C (set_order (list_to_set l ∖ C)).
Proof.
  intros Hl r Hr. apply elem_of_set_order, elem_of_difference in Hr as [Hr _].
  apply elem_of_list_to_set, Hl in Hr. unfold deps_done in Hr.
  destruct (dict_get deps r) as [ds|]; [|done].
  exists ds. split; [done|]. injection Hr as Hr.
  by apply bool_decide_eq_true in Hr.
Qed.

Lemma wave_inv_next k C0 C st :
  wave_inv k C0 C st -> wave_inv (S k) C C st.
Proof.
  intros (Hok & Ham & Hhd & Hlast & Hs & HC0 & Hdom & Hent & Hcomp).
  repeat (split; [done|]). split; [set_solver|]. split; [done|].
  split; [done|]. split; [|done].
  intros e He. destruct (Hent e He) as (H1 & H2 & H3).
  split; [done|]. split; [lia|]. intros _. lia.
Qed.

Lemma wave_loop_inv fuel k ready C :
  ready_ok C ready ->
  hoare (wave_inv k C C) (wave_loop fuel p deps rdeps k ready C)
        (λ _, stop_inv) stop_inv.
Proof.
  revert k ready C. induction fuel as [|fuel IH]; intros k ready C Hready;
    destruct ready as [|r ready]; cbn [Flow.wave_loop].
  - apply hoare_ret. intros st. apply wave_inv_stop.
  - apply hoare_diverge. intros st. apply wave_inv_stop.
  - apply hoare_ret. intros st. apply wave_inv_stop.
  - eapply hoare_bind; [by apply run_wave_inv|]. intros C'.
    apply Aux.hoare_lift_outcome_bind; [|intros st; apply wave_inv_stop].
    intros l Hscan. eapply hoare_conseq.
    + apply (IH (S k) (set_order (list_to_set l ∖ C')) C').
      by eapply all_done_ready, scan_completed_sound.
    + intros st Hst. by eapply wave_inv_next.
    + done.
    + done.
Qed.
End sched.
End SchedSpec.

Module OrchSpec.
Import Flow.
Section orch.
Context {U V : Type}.
Variable heap : node -> BaseNode.obj U V.
Variable set_order : gset node -> list node.
Hypothesis set_order_perm : ∀ X, set_order X ≡ₚ elements X.
Variable recursion_limit : nat.

Lemma initial_ready_ok deps (s : node) :
  SchedSpec.ready_ok deps {[s]} (initial_ready deps {[s]}).
Proof.
  intros r Hr. unfold initial_ready in Hr.
  apply list_elem_of_In, filter_In in Hr as [_ Hr].
  destruct (dict_get deps r) as [ds|]; [|done].
  exists ds. split; [done|]. by apply bool_decide_eq_true in Hr.
Qed.

(** How a run of [_orch] from a fresh state ends. *)
Lemma orch_cases fuel self params w s r st' :
  start_node self = Some s ->
  _orch heap set_order recursion_limit fuel self params (fresh w) = (r, st') ->
  (¬ is_Ok r ∧ sched st' = [])
  ∨ ∃ act w1 g0,
      lifecycle heap (run_params self params) s w = (Ok act, w1)
      ∧ _build_dependency_graph heap recursion_limit s
          {[s := or_default act]} = Ok g0
      ∧ SchedSpec.stop_inv heap (run_params self params) (dependencies g0) s
          (or_default act) w1 st'
      ∧ (∀ x, r = Ok x -> x = Some (or_default act)).
Proof.
  intros Hs Hrun. unfold Flow._orch in Hrun. rewrite Hs in Hrun.
  set (p := run_params self params) in *.
  unfold_monad. unfold set_action_map, modify in Hrun.
  cbn [fresh world action_map phases sched warnings] in Hrun.
  destruct (FlowSpec.execute_node_run heap p s (State w ∅ [] [] []))
    as (pre & _ & Hex); [cbn; set_solver|].
  rewrite Hex in Hrun. cbn [world action_map phases sched warnings] in Hrun.
  destruct (lifecycle heap p s w) as [[act| |] w1] eqn:Hlife;
    [|injection Hrun as <- <-; left; (split; [cbn; tauto|reflexivity])..].
  rewrite insert_empty in Hrun.
  cbn [world action_map phases sched warnings] in Hrun.
  destruct (_build_dependency_graph heap recursion_limit s
              {[s := or_default act]}) as [g0| |] eqn:Hbuild;
    [|injection Hrun as <- <-; left; (split; [cbn; tauto|reflexivity])..].
  right. exists act, w1, g0. split; [done|]. split; [done|].
  set (st1 := State w1 {[s := or_default act]} ([] ++ FlowSpec.three s) [] [])
    in *.
  assert (Hinv1 : SchedSpec.wave_inv heap p (dependencies g0) s
                    (or_default act) w1 1 {[s]} {[s]} st1).
  { unfold SchedSpec.wave_inv, SchedSpec.hd_ok, SchedSpec.last_ok.
    subst st1. cbn [world action_map phases sched warnings].
    split.
    { split; [apply NoDup_nil_2| |done].
      intros e He. by apply elem_of_nil in He. }
    split; [apply lookup_singleton_eq|]. split; [done|].
    split; [by intros e He|]. split; [by apply elem_of_singleton|].
    split; [done|]. split; [by rewrite dom_singleton_L|].
    split; [intros e He; by apply elem_of_nil in He|].
    intros c Hc. left. by apply elem_of_singleton in Hc. }
  pose proof (SchedSpec.wave_loop_inv heap set_order set_order_perm p
                (dependencies g0) (reverse_deps g0) s (or_default act) w1
                fuel 1 (initial_ready (dependencies g0) {[s]}) {[s]}
                (initial_ready_ok _ _) st1 Hinv1) as Hloop.
  destruct (wave_loop heap set_order fuel p (dependencies g0)
              (reverse_deps g0) 1 _ _ st1) as [[[]| |] st2] eqn:Hwl;
    injection Hrun as <- <-; (split; [exact Hloop|]); [|done..].
  intros x [= <-]. by destruct Hloop as (_ & -> & _).
Qed.
End orch.
End OrchSpec.

Module TotalSpec.
Import Flow.
Section total.
Context {U V : Type}.
Variable heap : node -> BaseNode.obj U V.
Variable set_order : gset node -> list node.
Hypothesis set_order_perm : ∀ X, set_order X ≡ₚ elements X.
Variable p : params V.
Variable deps rdeps : dict node (gset node).
Variable s : node.
Variable a : string.
(** No lifecycle raises or hangs. *)
Hypothesis lifecycle_total :
  ∀ n w, ∃ act w', lifecycle heap p n w = (Ok act, w').
(** The dependents in [reverse_deps] are keys of [dependencies]. *)
Hypothesis dependents_known :
  ∀ x rs y, dict_get rdeps x = Some rs -> y ∈ rs -> is_Some (dict_get deps y).

Local Abbreviation state := (state U V).
Local Abbreviation K := (list_to_set (dict_keys deps) : gset node).

Definition tot_inv (st : state) : Prop := action_map st !! s = Some a.
Definition never (st : state) : Prop := False.

Lemma execute_total n :
  n ≠ s ->
  hoare tot_inv (execute_node heap p (Some n)) (λ _, tot_inv) never.
Proof.
  intros Hn st Hst. destruct (decide (n ∈ dom (action_map st))) as [Hin|Hin].
  - by rewrite FlowSpec.execute_node_skip.
  - destruct (FlowSpec.execute_node_run heap p n st Hin) as (pre & _ & ->).
    destruct (lifecycle_total n (world st)) as (act & w' & ->).
    unfold tot_inv. cbn. by rewrite lookup_insert_ne.
Qed.

Lemma run_wave_total k ready C :
  s ∈ C ->
  hoare tot_inv (run_wave heap p k ready C)
        (λ C' st, tot_inv st ∧ C' = list_to_set ready ∪ C) never.
Proof.
  revert C. induction ready as [|n rest IH]; intros C Hs;
    cbn [Flow.run_wave].
  - apply hoare_ret. intros st Hst. split; [done|]. set_solver.
  - destruct (decide (n ∈ C)) as [Hn|Hn].
    + eapply hoare_conseq; [by apply IH| |intros C' st [H1 ->]|done].
      * done.
      * split; [done|]. set_solver.
    + eapply hoare_bind with (Q := λ _, tot_inv).
      { apply hoare_modify. by intros st Hst. }
      intros []. eapply hoare_bind; [apply execute_total; set_solver|].
      intros ?. eapply hoare_conseq;
        [apply (IH ({[n]} ∪ C)); set_solver| |intros C' st [H1 ->]|done].
      * done.
      * split; [done|]. set_solver.
Qed.

Lemma scan_dependents_total C ds ready :
  (∀ d, d ∈ ds -> is_Some (dict_get deps d)) ->
  ∃ l, scan_dependents deps C ds ready = Ok l.
Proof.
  unfold scan_dependents. revert ready.
  induction ds as [|d ds IH]; intros ready Hds; cbn; [eauto|].
  destruct (Hds d) as [x Hx]; [by left|].
  unfold deps_done at 1. rewrite Hx. cbn.
  apply IH. intros d' Hd'. apply Hds. by right.
Qed.

Lemma scan_completed_total C :
  ∃ l, scan_completed set_order deps rdeps C = Ok l.
Proof.
  unfold scan_completed. generalize (@nil node) as ready.
  induction (set_order C) as [|n ns IH]; intros ready; cbn; [eauto|].
  destruct (scan_dependents_total C
              (set_order (default ∅ (dict_get rdeps n))) ready) as [l ->].
  - intros d Hd. apply SchedSpec.elem_of_set_order in Hd; [|done].
    destruct (dict_get rdeps n) as [rs|] eqn:Hn; cbn in Hd.
    + by eapply dependents_known.
    + by apply not_elem_of_empty in Hd.
  - apply IH.
Qed.

Lemma wave_loop_total fuel k ready C :
  s ∈ C ->
  (∀ r, r ∈ ready -> r ∈ K) ->
  size (K ∖ C) + 1 < fuel ∨ ((∀ r, r ∈ ready -> r ∉ C) ∧ size (K ∖ C) < fuel) ->
  hoare tot_inv (wave_loop heap set_order fuel p deps rdeps k ready C)
        (λ _, tot_inv) never.
Proof.
  revert k ready C. induction fuel as [|fuel IH]; intros k ready C Hs HK Hfuel;
    destruct ready as [|r ready]; cbn [Flow.wave_loop];
    try (by apply hoare_ret).
  - exfalso. destruct Hfuel as [?|[_ ?]]; lia.
  - eapply hoare_bind; [by apply run_wave_total|]. intros C'.
    apply Aux.hoare_pure_pre. intros ->.
    destruct (scan_completed_total (list_to_set (r :: ready) ∪ C))
      as [l Hl].
    rewrite Hl.
    eapply hoare_bind with (Q := λ x st, tot_inv st ∧ x = l).
    { apply hoare_lift_outcome. by intros st Hst. }
    intros l'. apply Aux.hoare_pure_pre. intros ->.
    apply SchedSpec.scan_completed_sound in Hl.
    apply IH.
    + set_solver.
    + intros x Hx. apply SchedSpec.elem_of_set_order in Hx; [|done].
      apply elem_of_difference in Hx as [Hx _].
      apply elem_of_list_to_set, Hl in Hx. unfold deps_done in Hx.
      apply elem_of_list_to_set, dict_keys_get.
      by destruct (dict_get deps x).
    + right. split.
      { intros x Hx. apply SchedSpec.elem_of_set_order in Hx; [|done].
        set_solver. }
      destruct Hfuel as [Hfuel|[Hnew Hfuel]].
      * assert (size (K ∖ (list_to_set (r :: ready) ∪ C)) ≤ size (K ∖ C));
          [|lia].
        apply subseteq_size. set_solver.
      * assert (size (K ∖ (list_to_set (r :: ready) ∪ C)) < size (K ∖ C));
          [|lia].
        apply subset_size. split; [set_solver|].
        intros Hsub. assert (r ∈ K ∖ C) as Hr.
        { apply elem_of_difference. split; [apply HK; by left|].
          apply Hnew. by left. }
        apply Hsub in Hr. set_solver.
Qed.
End total.
End TotalSpec.

Module RunSpec.
Import Flow.
Section run.
Context {U V : Type}.
Variable heap : node -> BaseNode.obj U V.
Variable set_order : gset node -> list node.
Variable recursion_limit : nat.

Local Abbreviation state := (state U V).
Local Abbreviation _orch := (_orch heap set_order recursion_limit).

(** The state the start node leaves when its lifecycle returns [act] in
    world [w1]. *)
Definition after_start (s : node) (act : option string) (w1 : env U V)
  : state :=
  State w1 {[s := or_default act]} ([] ++ FlowSpec.three s) [] [].

Lemma orch_unfold fuel self params w s act w1 g :
  start_node self = Some s ->
  lifecycle heap (run_params self params) s w = (Ok act, w1) ->
  _build_dependency_graph heap recursion_limit s {[s := or_default act]}
    = Ok g ->
  _orch fuel self params (fresh w)
  = match wave_loop heap set_order fuel (run_params self params)
            (dependencies g) (reverse_deps g) 1
            (initial_ready (dependencies g) {[s]}) {[s]}
            (after_start s act w1) with
    | (Ok _, st') => (Ok (action_map st' !! s), st')
    | (Raise e, st') => (Raise e, st')
    | (Diverge, st') => (Diverge, st')
    end.
Proof.
  intros Hs Hlife Hbuild. unfold Flow._orch. rewrite Hs.
  unfold_monad. unfold set_action_map, modify.
  cbn [fresh world action_map phases sched warnings].
  destruct (FlowSpec.execute_node_run heap (run_params self params) s
              (State w ∅ [] [] [])) as (pre & _ & ->); [cbn; set_solver|].
  cbn [world action_map phases sched warnings]. rewrite Hlife.
  rewrite insert_empty. cbn [world action_map phases sched warnings].
  rewrite Hbuild. unfold after_start.
  by destruct (wave_loop _ _ _ _ _ _ _ _ _ _) as [[[]| |] st2].
Qed.

Lemma orch_no_start fuel self params (st : state) :
  start_node self = None ->
  _orch fuel self params st
  = (Raise AttributeError,
     State (world st) ∅ (phases st) (sched st) (warnings st)).
Proof. intros Hs. unfold Flow._orch. by rewrite Hs. Qed.

(** [_orch] emits no warning. *)
Definition warned (ws : list warning) (st : state) : Prop :=
  warnings st = ws.

Lemma warned_execute_node ws p on :
  hoare (warned ws) (execute_node heap p on) (λ _, warned ws) (warned ws).
Proof.
  intros st Hst. destruct on as [n|]; [|done].
  destruct (decide (n ∈ dom (action_map st))) as [Hin|Hin].
  - by rewrite FlowSpec.execute_node_skip.
  - destruct (FlowSpec.execute_node_run heap p n st Hin) as (pre & _ & ->).
    by destruct (lifecycle heap p n (world st)) as [[act| |] w'].
Qed.

Lemma warned_run_wave ws p k ready C :
  hoare (warned ws) (run_wave heap p k ready C) (λ _, warned ws) (warned ws).
Proof.
  revert C. induction ready as [|n rest IH]; intros C; cbn [Flow.run_wave].
  - by apply hoare_ret.
  - destruct (decide _); [apply IH|].
    eapply hoare_bind with (Q := λ _, warned ws);
      [apply hoare_modify; by intros st Hst|intros []].
    eapply hoare_bind; [apply warned_execute_node|intros ?]. apply IH.
Qed.

Lemma warned_wave_loop ws fuel p deps rdeps k ready C :
  hoare (warned ws) (wave_loop heap set_order fuel p deps rdeps k ready C)
        (λ _, warned ws) (warned ws).
Proof.
  revert k ready C. induction fuel as [|fuel IH]; intros k ready C;
    destruct ready as [|r ready]; cbn [Flow.wave_loop];
    try (by apply hoare_ret).
  - by apply hoare_diverge.
  - eapply hoare_bind; [apply warned_run_wave|intros C'].
    apply Aux.hoare_lift_outcome_bind; [|done].
    intros l _. apply IH.
Qed.

Lemma warned_orch ws fuel self params :
  hoare (warned ws) (_orch fuel self params) (λ _, warned ws) (warned ws).
Proof.
  unfold Flow._orch.
  eapply hoare_bind with (Q := λ _, warned ws);
    [apply hoare_modify; by intros st Hst|intros []].
  eapply hoare_bind; [apply warned_execute_node|intros ?].
  destruct (start_node self) as [s|]; [|by apply hoare_raise].
  eapply hoare_bind with (Q := λ _, warned ws);
    [apply hoare_get; by intros st Hst|intros st0].
  apply Aux.hoare_lift_outcome_bind; [|done]. intros g _.
  eapply hoare_bind; [apply warned_wave_loop|intros []].
  eapply hoare_bind with (Q := λ _, warned ws);
    [apply hoare_get; by intros st Hst|intros st1].
  by apply hoare_ret.
Qed.
End run.
End RunSpec.

(** ** The claims about the scheduler *)

Lemma NoDup_fmap_eq {A B} (f : A -> B) (l : list A) x y :
  NoDup (f <$> l) -> x ∈ l -> y ∈ l -> f x = f y -> x = y.
Proof.
  induction l as [|z l IH]; intros Hnd Hx Hy Hf; [by apply elem_of_nil in Hx|].
  cbn in Hnd. apply NoDup_cons in Hnd as [Hz Hnd].
  apply elem_of_cons in Hx as [->|Hx]; apply elem_of_cons in Hy as [->|Hy].
  - done.
  - exfalso. apply Hz. rewrite Hf. by apply list_elem_of_fmap_2.
  - exfalso. apply Hz. rewrite <- Hf. by apply list_elem_of_fmap_2.
  - by apply IH.
Qed.

(** C1, as the code has it: in every run of [_orch], however it ends, a
    node the scheduler starts is not the start node and is started once;
    its whole dependency set, in the graph built for the run, is in
    [completed_nodes] at that moment; each of its dependencies is the start
    node or was started in an earlier wave, so a node and a dependency of
    it are never started in the same wave; and the node starts in the world
    that the node started just before it left (the start node, for the
    first one), which holds the writes of all nodes of earlier waves and of
    the nodes of its own wave that ran before it. *)
Theorem C1_waves_respect_dependencies {U V : Type}
    (heap : node -> BaseNode.obj U V) (set_order : gset node -> list node)
    (recursion_limit fuel : nat) (self : Flow.flow U V)
    (params : option (params V)) (w : env U V) (s : node)
    (r : outcome (option string)) (st' : Flow.state U V)
    (g : Flow.dep_graph) :
  (∀ X, set_order X ≡ₚ elements X) ->
  Flow.start_node self = Some s ->
  Flow._orch heap set_order recursion_limit fuel self params (Flow.fresh w)
    = (r, st') ->
  Flow._build_dependency_graph heap recursion_limit s (Flow.action_map st')
    = Ok g ->
  Flow.sched_ok heap (Flow.run_params self params) (Flow.dependencies g) s
    (Flow.sched st')
  ∧ (∀ e e' ds,
        e ∈ Flow.sched st' -> e' ∈ Flow.sched st' ->
        dict_get (Flow.dependencies g) (Flow.se_node e) = Some ds ->
        Flow.se_node e' ∈ ds ->
        Flow.se_wave e' < Flow.se_wave e)
  ∧ (∀ e l, Flow.sched st' = e :: l ->
            ∃ act, Flow.lifecycle heap (Flow.run_params self params) s w
                   = (Ok act, Flow.se_env e)).
Proof.
  intros Hperm Hs Hrun Hg.
  destruct (OrchSpec.orch_cases heap set_order Hperm recursion_limit fuel
              self params w s r st' Hs Hrun)
    as [[_ Hnil]|(act & w1 & g0 & Hlife & Hg0 & (Hok & Ham & Hhd) & _)].
  - rewrite Hnil. split; [|split].
    + split; [apply NoDup_nil_2| |done].
      intros e He. by apply elem_of_nil in He.
    + intros e e' ds He. by apply elem_of_nil in He.
    + intros e l Hl. discriminate.
  - assert (g = g0) as ->.
    { unfold Flow._build_dependency_graph in Hg, Hg0.
      rewrite Ham in Hg. rewrite lookup_singleton_eq in Hg0. congruence. }
    split; [done|]. split.
    + intros e e' ds He He' Hds Hin.
      destruct (Flow.so_deps _ _ _ _ _ Hok e He)
        as (_ & ds' & Hds' & _ & Hearlier).
      assert (ds' = ds) as -> by congruence.
      destruct (Hearlier _ Hin) as [Hstart|(e'' & He'' & Hn & Hw)].
      * by destruct (Flow.so_deps _ _ _ _ _ Hok e' He') as [Hne _].
      * assert (e'' = e') as ->; [|done].
        by eapply NoDup_fmap_eq; [apply (Flow.so_nodup _ _ _ _ _ Hok)|..].
    + intros e l Hl. rewrite Hl in Hhd. exists act. by rewrite Hhd.
Qed.

Lemma C1_waves_respect_dependencies_witness :
  ∃ g,
    Flow._build_dependency_graph Examples.diamond 1000 0
      (Flow.action_map
         (Flow._orch Examples.diamond elements 1000 10
            (Examples.flow_from (Some 0)) None (Flow.fresh (Env [] []))).2)
    = Ok g
    ∧ Flow.sched_ok Examples.diamond
        (Flow.run_params (Examples.flow_from (Some 0)) None)
        (Flow.dependencies g) 0
        (Flow.sched
           (Flow._orch Examples.diamond elements 1000 10
              (Examples.flow_from (Some 0)) None (Flow.fresh (Env [] []))).2).
Proof.
  eexists. split; [vm_compute; reflexivity|].
  refine (proj1 (C1_waves_respect_dependencies Examples.diamond elements
                   1000 10 (Examples.flow_from (Some 0)) None (Env [] []) 0
                   (Flow._orch Examples.diamond elements 1000 10
                      (Examples.flow_from (Some 0)) None
                      (Flow.fresh (Env [] []))).1
                   (Flow._orch Examples.diamond elements 1000 10
                      (Examples.flow_from (Some 0)) None
                      (Flow.fresh (Env [] []))).2
                   _ _ _ _ _)).
  - intros X. reflexivity.
  - reflexivity.
  - apply surjective_pairing.
  - vm_compute. reflexivity.
Defined.

(** C1 as stated fails: in the diamond the two successors of the start node
    run in the same wave, and the second starts from a shared context that
    holds what the first wrote. *)
Lemma C1_same_wave_counterexample :
  ¬ Examples.observes_only_earlier_waves
      (Flow.sched
         (Flow._orch Examples.diamond elements 1000 10
            (Examples.flow_from (Some 0)) None (Flow.fresh (Env [] []))).2).
Proof.
  intros H.
  assert (∃ e1 e2 l,
    Flow.sched
      (Flow._orch Examples.diamond elements 1000 10
         (Examples.flow_from (Some 0)) None (Flow.fresh (Env [] []))).2
    = e1 :: e2 :: l
    ∧ Flow.se_wave e1 = 1 ∧ Flow.se_wave e2 = 1
    ∧ user (Flow.se_env e1) = [0] ∧ user (Flow.se_env e2) = [0; 1])
    as (e1 & e2 & l & Hl & Hw1 & Hw2 & Hu1 & Hu2).
  { vm_compute. do 3 eexists. repeat split; reflexivity. }
  assert (He1 : e1 ∈ Flow.sched
      (Flow._orch Examples.diamond elements 1000 10
         (Examples.flow_from (Some 0)) None (Flow.fresh (Env [] []))).2).
  { rewrite Hl. apply list_elem_of_here. }
  assert (He2 : e2 ∈ Flow.sched
      (Flow._orch Examples.diamond elements 1000 10
         (Examples.flow_from (Some 0)) None (Flow.fresh (Env [] []))).2).
  { rewrite Hl. apply list_elem_of_further, list_elem_of_here. }
  pose proof (H e1 e2 He1 He2 (eq_trans Hw1 (eq_sym Hw2))) as Heq.
  rewrite Hu1, Hu2 in Heq. discriminate.
Qed.

(** C7: a run of [_orch] that returns, returns the action recorded in the
    action map for the start node, which is what the start node's [post]
    returned, or ["default"] when that is [None] (or empty).
    [execute_node] records [action or "default"] for every node it runs.
    And the run does return when no lifecycle raises or hangs and the
    graph construction returns, given fuel for one wave per discovered
    node and two more. *)
Theorem C7_returns_start_action {U V : Type}
    (heap : node -> BaseNode.obj U V) (set_order : gset node -> list node)
    (recursion_limit : nat) (self : Flow.flow U V)
    (params : option (params V)) (w : env U V) :
  (∀ X, set_order X ≡ₚ elements X) ->
  (∀ fuel x st',
      Flow._orch heap set_order recursion_limit fuel self params
        (Flow.fresh w) = (Ok x, st') ->
      ∃ s act w1,
        Flow.start_node self = Some s
        ∧ Flow.lifecycle heap (Flow.run_params self params) s w
          = (Ok act, w1)
        ∧ x = Some (or_default act)
        ∧ Flow.action_map st' !! s = Some (or_default act))
  ∧ (∀ p n (st : Flow.state U V) act w',
        n ∉ dom (Flow.action_map st) ->
        Flow.lifecycle heap p n (Flow.world st) = (Ok act, w') ->
        ∃ st',
          Flow.execute_node heap p (Some n) st
          = (Ok (Some (or_default act)), st')
          ∧ Flow.action_map st'
            = <[n := or_default act]> (Flow.action_map st))
  ∧ or_default None = "default"%string
  ∧ (∀ s act w1 g fuel,
        Flow.start_node self = Some s ->
        Flow.lifecycle heap (Flow.run_params self params) s w
          = (Ok act, w1) ->
        Flow._build_dependency_graph heap recursion_limit s
          {[s := or_default act]} = Ok g ->
        (∀ n w0, ∃ act' w',
            Flow.lifecycle heap (Flow.run_params self params) n w0
            = (Ok act', w')) ->
        length (Flow.dependencies g) + 2 ≤ fuel ->
        ∃ st',
          Flow._orch heap set_order recursion_limit fuel self params
            (Flow.fresh w) = (Ok (Some (or_default act)), st')).
Proof.
  intros Hperm. split; [|split; [|split; [done|]]].
  - intros fuel x st' Hrun.
    destruct (Flow.start_node self) as [s|] eqn:Hs.
    + destruct (OrchSpec.orch_cases heap set_order Hperm recursion_limit
                  fuel self params w s (Ok x) st' Hs Hrun)
        as [[Hno _]|(act & w1 & g0 & Hlife & _ & (_ & Ham & _) & Hx)].
      * by destruct Hno.
      * exists s, act, w1. by rewrite (Hx x eq_refl).
    + by rewrite RunSpec.orch_no_start in Hrun.
  - intros p n st act w' Hn Hlife.
    destruct (FlowSpec.execute_node_run heap p n st Hn) as (pre & _ & ->).
    rewrite Hlife. eauto.
  - intros s act w1 g fuel Hs Hlife Hbuild Htotal Hfuel.
    rewrite (RunSpec.orch_unfold heap set_order recursion_limit fuel self
               params w s act w1 g Hs Hlife Hbuild).
    assert (Hclosed : ∀ x rs y,
               dict_get (Flow.reverse_deps g) x = Some rs -> y ∈ rs ->
               is_Some (dict_get (Flow.dependencies g) y)).
    { apply BuildSpec.add_dependency_built in Hbuild
        as [_ _ _ _ _ _ Hcl _].
      intros x rs y Hx Hy. apply (Hcl ltac:(by intros ? ? (? & ? & ?)) x).
      by exists rs. }
    pose proof (TotalSpec.wave_loop_total heap set_order Hperm
                  (Flow.run_params self params) (Flow.dependencies g)
                  (Flow.reverse_deps g) s (or_default act) Htotal Hclosed
                  fuel 1 (Flow.initial_ready (Flow.dependencies g) {[s]})
                  {[s]}) as Hloop.
    unfold hoare in Hloop.
    specialize (Hloop ltac:(by apply elem_of_singleton)).
    assert (Hkeys : ∀ r, r ∈ Flow.initial_ready (Flow.dependencies g) {[s]}
                         -> r ∈ (list_to_set (dict_keys (Flow.dependencies g))
                                 : gset node)).
    { intros r Hr. unfold Flow.initial_ready in Hr.
      apply list_elem_of_In, filter_In in Hr as [Hr _].
      by apply elem_of_list_to_set, list_elem_of_In. }
    specialize (Hloop Hkeys).
    assert (Hsize : size ((list_to_set (dict_keys (Flow.dependencies g))
                           : gset node) ∖ {[s]}) + 1 < fuel).
    { pose proof (Aux.size_list_to_set_le
                    (dict_keys (Flow.dependencies g))) as Hle.
      unfold dict_keys in Hle at 2. rewrite length_fmap in Hle.
      assert (size ((list_to_set (dict_keys (Flow.dependencies g))
                     : gset node) ∖ {[s]})
              ≤ size (list_to_set (dict_keys (Flow.dependencies g))
                      : gset node)) by (apply subseteq_size; set_solver).
      lia. }
    specialize (Hloop (or_introl Hsize) (RunSpec.after_start s act w1)).
    specialize (Hloop ltac:(apply lookup_singleton_eq)).
    destruct (Flow.wave_loop _ _ _ _ _ _ _ _ _ _) as [[[]| |] st2];
      [|done..].
    exists st2. unfold TotalSpec.tot_inv in Hloop. by rewrite Hloop.
Qed.

Lemma C7_returns_start_action_witness :
  ∃ st',
    Flow._orch Examples.diamond elements 1000 10
      (Examples.flow_from (Some 0)) None (Flow.fresh (Env [] []))
    = (Ok (Some "default"%string), st').
Proof.
  destruct (C7_returns_start_action Examples.diamond elements 1000
              (Examples.flow_from (Some 0)) None (Env [] [])
              (fun X => reflexivity _)) as (_ & _ & _ & Htotal).
  refine (Htotal 0 None (Env [0] []) _ 10 eq_refl eq_refl _ _ _).
  - vm_compute. reflexivity.
  - intros n w0. destruct n as [|[|[|n]]]; do 2 eexists; reflexivity.
  - vm_compute. lia.
Defined.

(** C9: no run of [_orch] emits a warning.  In the run from a start node
    that returns ["y"] and has successors under ["x"] only, there is no
    error, the run returns ["y"], only the start node is run, and the
    warning list is empty; [get_next_nodes], which emits the diagnostic for
    that lookup, is not called by [_orch]. *)
Theorem C9_orch_emits_no_warning :
  (∀ (U V : Type) (heap : node -> BaseNode.obj U V)
     (set_order : gset node -> list node) (recursion_limit fuel : nat)
     (self : Flow.flow U V) (params : option (params V))
     (st : Flow.state U V),
      Flow.warnings
        (Flow._orch heap set_order recursion_limit fuel self params st).2
      = Flow.warnings st)
  ∧ (Flow._orch Examples.dead_end elements 1000 10
       (Examples.flow_from (Some 0)) None (Flow.fresh (Env [] []))
     = (Ok (Some "y"%string),
        Flow.State (Env [0] []) {[0 := "y"%string]}
                   [(Prep, 0); (Exec, 0); (Post, 0)] [] []))
  ∧ (Flow.get_next_nodes Examples.dead_end 0 (Some "y"%string)
       (Flow.fresh (Env [] []))
     = (Ok [],
        Flow.State (Env [] []) ∅ [] []
                   [FlowEnds "y" ["x"%string]])).
Proof.
  split; [|split].
  - intros U V heap set_order recursion_limit fuel self params st.
    pose proof (RunSpec.warned_orch heap set_order recursion_limit
                  (Flow.warnings st) fuel self params st eq_refl) as H.
    by destruct (Flow._orch _ _ _ _ _ _ _) as [[x| |] st'].
  - vm_compute. reflexivity.
  - vm_compute. reflexivity.
Qed.

(** C10: on a flow whose [start_node] is [None], [_orch] raises
    [AttributeError] without invoking any lifecycle method or scheduling
    anything; so does [run], once the flow's own [prep] has returned,
    and [run] never returns a result. *)
Theorem C10_unset_start_raises {U V : Type}
    (heap : node -> BaseNode.obj U V) (set_order : gset node -> list node)
    (recursion_limit fuel : nat) (self : Flow.flow U V) :
  Flow.start_node self = None ->
  (∀ params (st : Flow.state U V),
      Flow._orch heap set_order recursion_limit fuel self params st
      = (Raise AttributeError,
         Flow.State (Flow.world st) ∅ (Flow.phases st) (Flow.sched st)
                    (Flow.warnings st)))
  ∧ (∀ st : Flow.state U V,
        ¬ is_Ok (Flow.run heap set_order recursion_limit fuel self st).1
        ∧ Flow.phases
            (Flow.run heap set_order recursion_limit fuel self st).2
          = Flow.phases st
        ∧ Flow.sched (Flow.run heap set_order recursion_limit fuel self st).2
          = Flow.sched st)
  ∧ (∀ (st : Flow.state U V) prep_res u,
        Flow.flow_prep self (user (Flow.world st)) = (Ok prep_res, u) ->
        (Flow.run heap set_order recursion_limit fuel self st).1
        = Raise AttributeError).
Proof.
  intros Hs. split; [|split].
  - intros params st. by apply RunSpec.orch_no_start.
  - intros st. unfold Flow.run, Flow._run. unfold_monad.
    unfold Flow.warn, Flow.lift_env, lift_user, modify.
    destruct (Flow.flow_successors self); cbn;
      destruct (Flow.flow_prep self _) as [[x| |] u]; cbn;
      rewrite ?RunSpec.orch_no_start by done; cbn; tauto.
  - intros st prep_res u Hprep. unfold Flow.run, Flow._run. unfold_monad.
    unfold Flow.warn, Flow.lift_env, lift_user, modify.
    destruct (Flow.flow_successors self); cbn; rewrite Hprep; cbn;
      by rewrite RunSpec.orch_no_start.
Qed.

Lemma C10_unset_start_raises_witness :
  (Flow.run Examples.diamond elements 1000 10 (Examples.flow_from None)
     (Flow.fresh (Env [] []))).1 = Raise AttributeError.
Proof.
  exact (proj2 (proj2 (C10_unset_start_raises Examples.diamond elements
                         1000 10 (Examples.flow_from None) eq_refl))
           (Flow.fresh (Env [] [])) 0 [] eq_refl).
Defined.

(** ** What the dependency graph contains *)

(** C3: in the graph [_build_dependency_graph] returns, the edges out of
    the start node are those to its successors under the action recorded
    for it, and no others; every other node in the graph has an edge to
    each of its successors under every label of its successor table.  An
    edge [n -> m] is [n ∈ dependencies[m]] together with
    [m ∈ reverse_deps[n]]. *)
Theorem C3_start_pruned_others_unconstrained {U V : Type}
    (heap : node -> BaseNode.obj U V) (recursion_limit : nat) (start : node)
    (action_map : gmap node string) (a : string) (g : Flow.dep_graph) :
  action_map !! start = Some a ->
  a ≠ ""%string ->
  Flow._build_dependency_graph heap recursion_limit start action_map = Ok g ->
  (∀ m, m ∈ Flow.successors_under heap start a -> Flow.edge g start m)
  ∧ (∀ m, Flow.has_rdep g start m ∨ Flow.has_dep g m start ->
          m ∈ Flow.successors_under heap start a)
  ∧ (∀ n label m,
        n ∈ dict_keys (Flow.dependencies g) -> n ≠ start ->
        m ∈ Flow.successors_under heap n label -> Flow.edge g n m).
Proof.
  intros Ha Hne Hrun. unfold Flow._build_dependency_graph in Hrun.
  rewrite Ha in Hrun.
  pose proof (BuildSpec.add_dependency_outcome heap recursion_limit start
                (Some a) Flow.empty_graph) as Hok.
  rewrite Hrun in Hok.
  apply BuildSpec.add_dependency_built in Hrun
    as [_ _ Hedges Hfull Hrdep Hdep _ _].
  assert (Hacyclic : ∀ y, Flow.origin heap start
                            (Flow.selected heap start (Some a)) start y ->
                          y ∈ Flow.successors_under heap start a).
  { intros y [[_ Hy]|(m & Hm & Hr & Hy)].
    - by apply BuildSpec.selected_action in Hy.
    - exfalso. destruct recursion_limit as [|d]; [done|].
      apply (BuildSpec.depth_ok_acyclic heap d start m).
      + eapply BuildSpec.depth_ok_reach; [|exact Hr].
        by eapply BuildSpec.depth_ok_succ.
      + by eapply BuildSpec.selected_any.
      + done. }
  split; [|split].
  - intros m Hm. apply Hedges. by apply BuildSpec.selected_action.
  - intros m [Hm|Hm].
    + apply Hrdep in Hm as [(rs & Hrs & _)|Hm]; [done|].
      by apply Hacyclic.
    + apply Hdep in Hm as [(ds & Hds & _)|Hm]; [done|].
      by apply Hacyclic.
  - intros n label m Hn Hns Hm.
    apply dict_keys_get, Hfull in Hn as [[x Hx]|[->|Hn]]; [done|done|].
    apply Hn. by eapply BuildSpec.selected_label.
Qed.

Lemma C3_start_pruned_others_unconstrained_witness :
  ∃ g, Flow._build_dependency_graph Examples.diamond 1000 0
         Examples.default_action = Ok g
       ∧ Flow.edge g 0 1 ∧ Flow.edge g 2 3.
Proof.
  eexists. split; [vm_compute; reflexivity|].
  match goal with |- Flow.edge ?g _ _ ∧ _ =>
    pose proof (C3_start_pruned_others_unconstrained Examples.diamond 1000 0
                Examples.default_action "default" g) as H
  end.
  destruct H as (Hstart & _ & Hrest).
  - reflexivity.
  - discriminate.
  - vm_compute. reflexivity.
  - split.
    + apply Hstart. vm_compute. apply list_elem_of_here.
    + apply (Hrest 2 "x"%string 3).
      * vm_compute. do 3 apply list_elem_of_further. apply list_elem_of_here.
      * discriminate.
      * vm_compute. apply list_elem_of_here.
Defined.

(** C4, as the code has it: [add_dependency] has no visited-set guard.
    A call expands its node whether or not the node is in the graph
    already, so a node is expanded once for every path that leads to it
    from the start node ([expansion] is the tree of calls).  The
    construction returns exactly when those paths are shorter than the
    recursion limit, and raises [RecursionError] otherwise; when a cycle
    can be reached from the start node through the action recorded for it,
    it raises [RecursionError] whatever the limit. *)
Theorem C4_no_visited_guard {U V : Type}
    (heap : node -> BaseNode.obj U V) (recursion_limit : nat) (start : node)
    (action_map : gmap node string) :
  match Flow._build_dependency_graph heap recursion_limit start action_map with
  | Ok g =>
      Flow.depth_ok heap recursion_limit start (action_map !! start) = true
      ∧ Flow.expanded g
        = Flow.expansion heap recursion_limit start (action_map !! start)
  | Raise e =>
      e = RecursionError
      ∧ Flow.depth_ok heap recursion_limit start (action_map !! start) = false
  | Diverge => False
  end
  ∧ (∀ m x y,
        m ∈ Flow.selected heap start (action_map !! start) ->
        Flow.reach heap m x ->
        y ∈ Flow.selected heap x None -> Flow.reach heap y x ->
        Flow._build_dependency_graph heap recursion_limit start action_map
        = Raise RecursionError)
  ∧ (∀ d n g g',
        Flow.add_dependency heap (S d) n None g = Ok g' ->
        Flow.expanded g'
        = Flow.expanded g
            ++ n :: concat (map (fun m => Flow.expansion heap d m None)
                                (Flow.selected heap n None))).
Proof.
  unfold Flow._build_dependency_graph.
  split; [|split].
  - pose proof (BuildSpec.add_dependency_outcome heap recursion_limit start
                  (action_map !! start) Flow.empty_graph) as Hok.
    destruct (Flow.add_dependency _ _ _ _ _) as [g|e|] eqn:Hrun; [|done..].
    split; [done|].
    by apply BuildSpec.add_dependency_built in Hrun as [_ _ _ _ _ _ _ ->].
  - intros m x y. apply BuildSpec.add_dependency_cycle.
  - intros d n g g' Hrun.
    by apply BuildSpec.add_dependency_built in Hrun as [_ _ _ _ _ _ _ ->].
Qed.

Lemma C4_no_visited_guard_witness :
  Flow._build_dependency_graph Examples.two_cycle 1000 0
    Examples.default_action = Raise RecursionError.
Proof.
  pose proof (C4_no_visited_guard Examples.two_cycle 1000 0
                         Examples.default_action) as H.
  apply proj2 in H. apply proj1 in H.
  apply (H 1 1 0).
  - vm_compute. apply list_elem_of_here.
  - apply Flow.reach_refl.
  - vm_compute. apply list_elem_of_here.
  - apply (Flow.reach_step _ 0 1 1); [|apply Flow.reach_refl].
    vm_compute. apply list_elem_of_here.
Defined.

(** C4 as stated fails: in the diamond the node where the two branches meet
    is expanded twice, and on a cycle the construction does not return. *)
Lemma C4_visited_guard_counterexample :
  ¬ Examples.expands_once_and_returns Examples.diamond 1000 0
      Examples.default_action
  ∧ ¬ Examples.expands_once_and_returns Examples.two_cycle 1000 0
        Examples.default_action.
Proof.
  split.
  - intros (g & Hg & Hnd). vm_compute in Hg. injection Hg as <-.
    cbn in Hnd. do 2 apply NoDup_cons in Hnd as [_ Hnd].
    apply NoDup_cons in Hnd as [Hin _]. apply Hin.
    apply list_elem_of_further, list_elem_of_here.
  - intros (g & Hg & _). vm_compute in Hg. discriminate.
Qed.

(** * Further properties *)

(** ** Wiring the graph and looking successors up *)

Module WiringSpec.
Section dict_more.
Context {K V : Type} `{EqDecision K}.
Implicit Types (d : dict K V) (k : K).

Lemma dict_keys_alter (f : V -> V) k d :
  dict_keys (dict_alter f k d) = dict_keys d.
Proof.
  unfold dict_keys. induction d as [|[k0 v] d IH]; cbn; [done|].
  destruct (decide (k0 = k)); cbn; [done|]. by rewrite IH.
Qed.

Lemma dict_keys_setdefault d k v :
  dict_keys (dict_setdefault d k v)
  = match dict_get d k with
    | Some _ => dict_keys d
    | None => dict_keys d ++ [k]
    end.
Proof.
  unfold dict_setdefault, dict_keys.
  destruct (dict_get d k); [done|]. by rewrite fmap_app.
Qed.

Lemma dict_keys_set d k v :
  dict_keys (dict_set d k v)
  = match dict_get d k with
    | Some _ => dict_keys d
    | None => dict_keys d ++ [k]
    end.
Proof.
  unfold dict_set. destruct (dict_get d k).
  - apply dict_keys_alter.
  - unfold dict_keys. by rewrite fmap_app.
Qed.

Lemma dict_get_set d k v k' :
  dict_get (dict_set d k v) k'
  = if decide (k = k') then Some v else dict_get d k'.
Proof.
  unfold dict_set. destruct (dict_get d k) as [x|] eqn:Hk.
  - rewrite dict_get_alter. destruct (decide (k = k')) as [<-|]; [|done].
    by rewrite Hk.
  - rewrite dict_get_app. cbn.
    destruct (decide (k = k')) as [<-|]; [by rewrite Hk|].
    by destruct (dict_get d k').
Qed.

Lemma dict_keys_fresh d k :
  dict_get d k = None -> k ∉ dict_keys d.
Proof. intros Hk Hin. apply dict_keys_get in Hin as [x Hx]. congruence. Qed.
End dict_more.

(** X1: [next] appends the target to the list under its label, creating
    the list when the label is new, and changes no other label. *)
Theorem next_lookup (succs : dict string (list node)) (tgt : node)
    (action label : string) :
  dict_get (BaseNode.next succs tgt action) label
  = if decide (action = label)
    then Some (default [] (dict_get succs action) ++ [tgt])
    else dict_get succs label.
Proof.
  unfold BaseNode.next. rewrite dict_get_alter, dict_get_setdefault.
  destruct (decide (action = label)) as [<-|Hne].
  - by destruct (dict_get succs action).
  - by destruct (dict_get succs label).
Qed.

(** X2: [next] keeps the labels of the successor table distinct and in
    insertion order: a label that is present stays where it is, a new one
    goes last. *)
Theorem next_keys (succs : dict string (list node)) (tgt : node)
    (action : string) :
  dict_keys (BaseNode.next succs tgt action)
  = match dict_get succs action with
    | Some _ => dict_keys succs
    | None => dict_keys succs ++ [action]
    end
  ∧ (NoDup (dict_keys succs) ->
     NoDup (dict_keys (BaseNode.next succs tgt action))).
Proof.
  assert (Hk : dict_keys (BaseNode.next succs tgt action)
               = match dict_get succs action with
                 | Some _ => dict_keys succs
                 | None => dict_keys succs ++ [action]
                 end).
  { unfold BaseNode.next. by rewrite dict_keys_alter, dict_keys_setdefault. }
  split; [done|]. intros Hnd. rewrite Hk.
  destruct (dict_get succs action) eqn:Ha; [done|].
  apply NoDup_app. split; [done|]. split; [|apply NoDup_singleton].
  intros x Hx Hx'. apply list_elem_of_singleton in Hx' as ->.
  by apply dict_keys_fresh in Ha.
Qed.

Lemma next_keys_witness :
  NoDup (dict_keys (BaseNode.next (BaseNode.next [] 1 "default") 2 "x")).
Proof.
  apply (proj2 (next_keys (BaseNode.next [] 1 "default") 2 "x")).
  apply (proj2 (next_keys [] 1 "default")). apply NoDup_nil_2.
Defined.

(** Wiring, then looking up. *)
Lemma lookup_after_next {U V : Type} (heap : node -> BaseNode.obj U V)
    (curr tgt : node) (succs : dict string (list node)) (a : string)
    (action : option string) (st : Flow.state U V) :
  BaseNode.successors (heap curr) = BaseNode.next succs tgt a ->
  or_default action = a ->
  Flow.get_next_nodes heap curr action st
  = (Ok (default [] (dict_get succs a) ++ [tgt]), st).
Proof.
  intros Hs Ha.
  assert (Hl : dict_get (BaseNode.next succs tgt a) a
               = Some (default [] (dict_get succs a) ++ [tgt])).
  { unfold BaseNode.next.
    rewrite dict_get_alter, dict_get_setdefault.
    destruct (decide (a = a)); [|done]. by destruct (dict_get succs a). }
  unfold Flow.get_next_nodes. unfold_monad. rewrite Ha, Hs, Hl.
  cbn [default]. by destruct (default [] (dict_get succs a)).
Qed.

(** X3: wiring with the operators, then looking up.  After
    [curr >> tgt], [get_next_nodes] for an action that stands for
    ["default"] (["default"] itself, [None] or [""]) returns the
    successors [curr] had under ["default"] followed by [tgt]; after
    [(curr - a) >> tgt] it does so for [a]; neither lookup warns.
    [curr - x] for [x] that is not a string raises, so nothing is
    registered. *)
Theorem operators_then_lookup {U V : Type} (heap : node -> BaseNode.obj U V)
    (curr tgt : node) (succs : dict string (list node)) (a : string)
    (action : option string) (st : Flow.state U V) :
  (BaseNode.successors (heap curr) = NodeRun.__rshift__ succs tgt ->
   or_default action = "default"%string ->
   Flow.get_next_nodes heap curr action st
   = (Ok (default [] (dict_get succs "default") ++ [tgt]), st))
  ∧ (∀ ct, NodeRun.__sub__ succs (NodeRun.OpStr a) = Some ct ->
           BaseNode.successors (heap curr) = NodeRun.ct_rshift ct tgt ->
           or_default action = a ->
           Flow.get_next_nodes heap curr action st
           = (Ok (default [] (dict_get succs a) ++ [tgt]), st))
  ∧ NodeRun.__sub__ succs NodeRun.OpOther = None.
Proof.
  split; [|split; [|done]].
  - intros Hs Ha. by apply lookup_after_next.
  - intros ct [= <-] Hs Ha. by apply lookup_after_next.
Qed.
End WiringSpec.

Lemma operators_then_lookup_witness :
  Flow.get_next_nodes Examples.diamond 0 None (Flow.fresh (Env [] []))
  = (Ok [1; 2], Flow.fresh (Env [] [])).
Proof.
  exact (proj1 (WiringSpec.operators_then_lookup Examples.diamond 0 2
                  (NodeRun.__rshift__ [] 1) "x" None
                  (Flow.fresh (Env [] [])))
           eq_refl eq_refl).
Defined.

(** ** More on the retrying execute *)

Module RetrySpec.
Section retry_more.
Context {U V : Type}.
Variable VNone : V.
Variable wait : Z.
Variable exec : nat -> V -> U -> outcome V * U.
Variable exec_fallback : V -> exn -> U -> outcome V * U.

(** The calls a run of the loop adds to the record. *)
Definition bounded (range : list nat) (tr : list (call V)) : Prop :=
  Node.count_calls Node.is_exec_call tr ≤ length range
  ∧ Node.count_calls Node.is_fallback_call tr ≤ 1
  ∧ Node.count_calls Node.is_sleep_call tr
    ≤ Node.count_calls Node.is_exec_call tr
  ∧ Forall (fun c => match c with
                     | CallExec i => i ∈ range
                     | CallSleep s => s = wait ∧ (0 < wait)%Z
                     | CallFallback _ _ => True
                     end) tr.

Lemma retry_loop_bounded (max_retries : Z) (range : list nat) (p : V)
    (w : env U V) :
  ∃ tr,
    calls (Node.retry_loop VNone max_retries wait exec exec_fallback
             range p w).2 = calls w ++ tr
    ∧ bounded range tr.
Proof.
  revert w. induction range as [|i range IH]; intros w.
  - exists []. cbn. rewrite app_nil_r. split; [done|].
    unfold bounded, Node.count_calls. cbn.
    repeat split; try lia. constructor.
  - cbn [Node.retry_loop]. unfold_monad.
    unfold log_call, try_except, lift_user, modify. cbn.
    destruct (exec i p (user w)) as [[v|e|] u1]; cbn.
    + exists [CallExec i]. split; [done|].
      unfold bounded, Node.count_calls. cbn.
      repeat split; try lia. repeat constructor.
    + destruct (is_Exception e); cbn.
      2:{ exists [CallExec i]. split; [done|].
          unfold bounded, Node.count_calls. cbn.

          repeat split; try lia. repeat constructor. }
      destruct (Z.of_nat i =? max_retries - 1)%Z; cbn.
      * destruct (exec_fallback p e u1) as [r u2]. cbn.
        exists [CallExec i; CallFallback p e].
        split; [by rewrite <- app_assoc|].
        unfold bounded, Node.count_calls. cbn.
        repeat split; try lia. repeat constructor.
      * destruct (Z.ltb_spec 0 wait) as [Hw|Hw]; cbn.
        -- destruct (IH (Env u1 ((calls w ++ [CallExec i])
                                   ++ [CallSleep wait])))
             as (tr & Htr & He & Hf & Hs & Hall).
           exists (CallExec i :: CallSleep wait :: tr).
           split; [rewrite Htr; cbn; by rewrite <- !app_assoc|].
           unfold bounded, Node.count_calls in *. cbn.

           repeat split; try lia.
           all: constructor; [by left|]; constructor; [done|].
           all: eapply Forall_impl; [exact Hall|].
           all: intros [k|s|? ?]; cbn; [by right|done|done].
        -- destruct (IH (Env u1 (calls w ++ [CallExec i])))
             as (tr & Htr & He & Hf & Hs & Hall).
           exists (CallExec i :: tr).
           split; [rewrite Htr; cbn; by rewrite <- !app_assoc|].
           unfold bounded, Node.count_calls in *. cbn.

           repeat split; try lia.
           all: constructor; [by left|].
           all: eapply Forall_impl; [exact Hall|].
           all: intros [k|s|? ?]; cbn; [by right|done|done].
    + exists [CallExec i]. split; [done|].
      unfold bounded, Node.count_calls. cbn.
      repeat split; try lia. repeat constructor.
Qed.
End retry_more.

(** X4: success at any attempt stops the loop: when [exec] raises on
    attempts 1 to [j] and returns [v] on attempt [j + 1], within
    [max_retries = N], the result is [v], [exec] has been called [j + 1]
    times and no more, and the fallback is not called. *)
Theorem success_stops_retrying {U V : Type} (VNone : V) (wait : Z)
    (exec : nat -> V -> U -> outcome V * U)
    (exec_fallback : V -> exn -> U -> outcome V * U)
    (N j : nat) (p v : V) (u u1 u2 : U)
    (cs : list (call V)) :
  j < N ->
  Node.fails_from exec p 0 j u u1 ->
  exec j p u1 = (Ok v, u2) ->
  Node._exec VNone (Z.of_nat N) wait exec exec_fallback p (Env u cs)
  = (Ok v, Env u2 (cs ++ Node.failed_calls (V:=V) wait 0 j ++ [CallExec j]))
  ∧ Node.count_calls Node.is_exec_call
      (Node.failed_calls (V:=V) wait 0 j ++ [CallExec j]) = S j.
Proof.
  intros Hj Hf Hok. split.
  - unfold Node._exec. rewrite Nat2Z.id.
    replace N with (j + S (N - S j)) by lia.
    rewrite seq_app. cbn [seq].
    replace (j + S (N - S j)) with N by lia.
    rewrite (NodeSpec.retry_loop_failures VNone N wait exec exec_fallback
               p 0 j u u1) by (done || lia).
    cbn. unfold_monad. unfold log_call, try_except, lift_user, modify. cbn.
    rewrite Hok. by rewrite <- app_assoc.
  - destruct (NodeSpec.count_failed_calls (V:=V) wait 0 j) as (He & _).
    rewrite NodeSpec.count_calls_app, He. cbn. lia.
Qed.

(** X5: with [max_retries <= 0] the loop body never runs: [exec] is not
    called at all and [_exec] returns [None]. *)
Theorem no_attempt_without_retries {U V : Type} (VNone : V) (wait : Z)
    (exec : nat -> V -> U -> outcome V * U)
    (exec_fallback : V -> exn -> U -> outcome V * U)
    (max_retries : Z) (p : V) (w : env U V) :
  (max_retries ≤ 0)%Z ->
  Node._exec VNone max_retries wait exec exec_fallback p w = (Ok VNone, w).
Proof.
  intros Hle. unfold Node._exec.
  replace (Z.to_nat max_retries) with 0 by lia. done.
Qed.

(** X6: what [except Exception] does not catch goes through at once: when
    an attempt raises an exception that is not an [Exception], or does not
    return, there is no further attempt, no sleep and no fallback. *)
Theorem uncaught_stops_retrying {U V : Type} (VNone : V) (wait : Z)
    (exec : nat -> V -> U -> outcome V * U)
    (exec_fallback : V -> exn -> U -> outcome V * U)
    (N j : nat) (p : V) (r : outcome V)
    (u u1 u2 : U) (cs : list (call V)) :
  j < N ->
  Node.fails_from exec p 0 j u u1 ->
  exec j p u1 = (r, u2) ->
  match r with
  | Ok _ => False
  | Raise e => is_Exception e = false
  | Diverge => True
  end ->
  Node._exec VNone (Z.of_nat N) wait exec exec_fallback p (Env u cs)
  = (r, Env u2 (cs ++ Node.failed_calls (V:=V) wait 0 j ++ [CallExec j])).
Proof.
  intros Hj Hf Hr Hkind. unfold Node._exec. rewrite Nat2Z.id.
  replace N with (j + S (N - S j)) by lia.
  rewrite seq_app. cbn [seq].
  replace (j + S (N - S j)) with N by lia.
  rewrite (NodeSpec.retry_loop_failures VNone N wait exec exec_fallback
             p 0 j u u1) by (done || lia).
  cbn. unfold_monad. unfold log_call, try_except, lift_user, modify. cbn.
  rewrite Hr. destruct r as [v|e|]; [done| |].
  - rewrite Hkind. by rewrite <- app_assoc.
  - by rewrite <- app_assoc.
Qed.

(** X7: whatever [exec] and the fallback do, one [_exec] calls [exec] at
    most [max_retries] times, the fallback at most once, and sleeps no
    more often than it calls [exec], each time for [wait > 0] seconds; it
    only adds to the record of calls. *)
Theorem exec_calls_bounded {U V : Type} (VNone : V) (wait : Z)
    (exec : nat -> V -> U -> outcome V * U)
    (exec_fallback : V -> exn -> U -> outcome V * U)
    (max_retries : Z) (p : V) (w : env U V) :
  ∃ tr,
    calls (Node._exec VNone max_retries wait exec exec_fallback p w).2
    = calls w ++ tr
    ∧ Node.count_calls Node.is_exec_call tr ≤ Z.to_nat max_retries
    ∧ Node.count_calls Node.is_fallback_call tr ≤ 1
    ∧ Node.count_calls Node.is_sleep_call tr
      ≤ Node.count_calls Node.is_exec_call tr
    ∧ Forall (fun c => match c with
                       | CallSleep s => s = wait ∧ (0 < wait)%Z
                       | _ => True
                       end) tr.
Proof.
  unfold Node._exec.
  destruct (retry_loop_bounded VNone wait exec exec_fallback max_retries (seq 0 (Z.to_nat max_retries)) p w)
    as (tr & Htr & He & Hf & Hs & Hall).
  exists tr. rewrite length_seq in He.
  split; [done|]. split; [done|]. split; [done|]. split; [done|].
  eapply Forall_impl; [exact Hall|]. by intros [k|s|? ?].
Qed.
End RetrySpec.

Lemma success_stops_retrying_witness :
  Node._exec 0 5%Z 1%Z Examples.flaky_exec Node.default_exec_fallback 5
    (Env 0 [])
  = (Ok 15, Env 3 [CallExec 0; CallSleep 1; CallExec 1; CallSleep 1;
                   CallExec 2]).
Proof.
  refine (proj1 (RetrySpec.success_stops_retrying 0 1%Z Examples.flaky_exec
                   Node.default_exec_fallback 5 2 5 15 0 2 3 [] _ _ _)).
  - lia.
  - eapply Node.fails_cons; [reflexivity|reflexivity|].
    eapply Node.fails_cons; [reflexivity|reflexivity|].
    apply Node.fails_nil.
  - reflexivity.
Defined.

Lemma no_attempt_without_retries_witness :
  Node._exec 0 0%Z 1%Z Examples.flaky_exec Node.default_exec_fallback 5
    (Env 0 [])
  = (Ok 0, Env 0 []).
Proof.
  apply (RetrySpec.no_attempt_without_retries 0 1%Z Examples.flaky_exec
           Node.default_exec_fallback 0%Z 5 (Env 0 [])).
  lia.
Defined.

Lemma uncaught_stops_retrying_witness :
  Node._exec 0 3%Z 1%Z
    (fun i p u => if i <? 1 then (Raise (UserException i), S u)
                  else (Raise (BaseOnly 7), S u))
    (fun p _ u => (Ok p, u)) 5 (Env 0 [])
  = (Raise (BaseOnly 7), Env 2 [CallExec 0; CallSleep 1; CallExec 1]).
Proof.
  refine (RetrySpec.uncaught_stops_retrying 0 1%Z _ _ 3 1 5
            (Raise (BaseOnly 7)) 0 1 2 [] _ _ _ _).
  - lia.
  - eapply Node.fails_cons; [reflexivity|reflexivity|]. apply Node.fails_nil.
  - reflexivity.
  - reflexivity.
Defined.

(** ** A batch stops at the first failure *)

(** X8: when the retrying execute raises on an element, the batch
    [_exec] stops there: it raises that exception from the world in which
    the element failed, the later elements are not
    executed and no partial list is returned. *)
Theorem batch_stops_at_failure {U V : Type}
    (super_exec : V -> M (env U V) V) (done rest : list V) (x : V)
    (rs : list V) (e : exn) (w w1 w2 : env U V) :
  BatchNode.maps_to super_exec done w rs w1 ->
  super_exec x w1 = (Raise e, w2) ->
  BatchNode._exec super_exec (Some (done ++ x :: rest)) w = (Raise e, w2).
Proof.
  intros Hdone Hx. unfold BatchNode._exec. cbn [BatchNode.items_or_empty].
  induction Hdone as [w|i items w r0 w0 rs w1 Hi _ IH]; cbn.
  - unfold_monad. by rewrite Hx.
  - unfold_monad. rewrite Hi.
    unfold_monad. cbn in IH. specialize (IH Hx).
    unfold_monad. by rewrite IH.
Qed.

Lemma batch_stops_at_failure_witness :
  BatchNode._exec
    (Node._exec 0 2%Z 0%Z
       (fun _ p u => if p =? 2 then (Raise (UserException 9), S u)
                     else (Ok (p + 10), S u))
       Node.default_exec_fallback)
    (Some ([1] ++ 2 :: [3])) (Env 0 [])
  = (Raise (UserException 9),
     Env 3 [CallExec 0; CallExec 0; CallExec 1;
            CallFallback 2 (UserException 9)]).
Proof.
  refine (batch_stops_at_failure _ [1] [3] 2 [11]
            (UserException 9) (Env 0 []) (Env 1 [CallExec 0]) _ _ _).
  - eapply BatchNode.maps_cons; [reflexivity|]. apply BatchNode.maps_nil.
  - reflexivity.
Defined.

(** ** Running one node *)

Module NodeRunSpec.

(** X9: the [try ... except Exception as e: raise e] of [_run] changes
    nothing: [_run] is the three phases in sequence, the same computation
    that [execute_node] runs on a node of a flow.  An exception of any
    phase comes out as it was raised, and the later phases do not run.
    And [run] on a node is [_run] after a warning, given exactly when the
    node has successors: the successors are not run, and the action map
    and the scheduler's records stay as they were. *)
Theorem run_is_lifecycle {U V : Type}
    (heap : node -> BaseNode.obj U V) (p : params V)
    (n : node) (w : env U V) (st : Flow.state U V) :
  NodeRun._run (heap n) p w = Flow.lifecycle heap p n w
  ∧ (∀ r u, BaseNode.prep (heap n) p (user w) = (r, u) -> ¬ is_Ok r ->
            (NodeRun._run (heap n) p w).2 = Env u (calls w)
            ∧ match r with
              | Ok _ => True
              | Raise e => (NodeRun._run (heap n) p w).1 = Raise e
              | Diverge => (NodeRun._run (heap n) p w).1 = Diverge
              end)
  ∧ NodeRun.run (heap n) p st
    = ((Flow.lifecycle heap p n (Flow.world st)).1,
       Flow.State (Flow.lifecycle heap p n (Flow.world st)).2
         (Flow.action_map st) (Flow.phases st) (Flow.sched st)
         (Flow.warnings st
          ++ if decide (BaseNode.successors (heap n) = []) then []
             else [WontRunSuccessors])).
Proof.
  assert (Heq : ∀ w, NodeRun._run (heap n) p w = Flow.lifecycle heap p n w).
  { clear w. intros w. unfold NodeRun._run, Flow.lifecycle. unfold_monad.
    unfold try_except, lift_user. cbn.
    destruct (BaseNode.prep (heap n) p (user w)) as [[a|e|] u1]; cbn;
      [|by destruct (is_Exception e)|done].
    destruct (BaseNode._exec (heap n) p a _) as [[b|e|] w2]; cbn;
      [|by destruct (is_Exception e)|done].
    destruct (BaseNode.post (heap n) p a b (user w2)) as [[c|e|] u3]; cbn;
      [done|by destruct (is_Exception e)|done]. }
  split; [done|]. split.
  - intros r u Hprep Hr. rewrite Heq.
    unfold Flow.lifecycle. unfold_monad. unfold lift_user. rewrite Hprep.
    by destruct r.
  - unfold NodeRun.run. rewrite <- Heq. unfold_monad.
    unfold Flow.warn, Flow.lift_env, modify.
    destruct (BaseNode.successors (heap n)) as [|kv l]; cbn.
    + rewrite app_nil_r.
      by destruct (NodeRun._run (heap n) p (Flow.world st)) as [[r|e|] w'].
    + by destruct (NodeRun._run (heap n) p (Flow.world st)) as [[r|e|] w'].
Qed.
End NodeRunSpec.

Lemma run_is_lifecycle_witness :
  (NodeRun._run
     (BaseNode.Obj (U:=nat) (V:=nat) []
        (fun _ u => (Raise (BaseOnly 3), S u))
        (fun _ => BaseNode.default_exec (fun v u => (Ok v, u)))
        (fun _ _ _ u => (Ok None, u)))
     [] (Env 0 [])).1 = Raise (BaseOnly 3).
Proof.
  pose proof (NodeRunSpec.run_is_lifecycle
                (fun _ : node =>
                   BaseNode.Obj (U:=nat) (V:=nat) []
                     (fun _ u => (Raise (BaseOnly 3), S u))
                     (fun _ => BaseNode.default_exec (fun v u => (Ok v, u)))
                     (fun _ _ _ u => (Ok None, u)))
                [] 0 (Env 0 []) (Flow.fresh (Env 0 []))) as (_ & H & _).
  destruct (H (Raise (BaseOnly 3)) 1 eq_refl) as [_ Hr]; [cbn; tauto|].
  exact Hr.
Defined.

(** ** Invariants of a run *)

Module RunInvSpec.
Import Flow.
Section preserve.
Context {U V : Type}.
Variable heap : node -> BaseNode.obj U V.
Variable set_order : gset node -> list node.
Variable recursion_limit : nat.
(** A property of states that running a node and noting a scheduling
    decision keep. *)
Variable Inv : state U V -> Prop.
Hypothesis Inv_execute :
  ∀ p n, hoare Inv (execute_node heap p (Some n)) (λ _, Inv) Inv.
Hypothesis Inv_sched :
  ∀ st e, Inv st ->
          Inv (State (world st) (action_map st) (phases st)
                     (sched st ++ [e]) (warnings st)).

Lemma run_wave_preserves p k ready C :
  hoare Inv (run_wave heap p k ready C) (λ _, Inv) Inv.
Proof.
  revert C. induction ready as [|n rest IH]; intros C; cbn [Flow.run_wave].
  - by apply hoare_ret.
  - destruct (decide _); [apply IH|].
    eapply hoare_bind with (Q := λ _, Inv);
      [apply hoare_modify; intros st Hst; by apply Inv_sched|intros []].
    eapply hoare_bind; [apply Inv_execute|intros ?]. apply IH.
Qed.

Lemma wave_loop_preserves fuel p deps rdeps k ready C :
  hoare Inv (wave_loop heap set_order fuel p deps rdeps k ready C)
        (λ _, Inv) Inv.
Proof.
  revert k ready C. induction fuel as [|fuel IH]; intros k ready C;
    destruct ready as [|r ready]; cbn [Flow.wave_loop];
    try (by apply hoare_ret).
  - by apply hoare_diverge.
  - eapply hoare_bind; [apply run_wave_preserves|intros C'].
    apply Aux.hoare_lift_outcome_bind; [|done].
    intros l _. apply IH.
Qed.

(** From the first node on, a run keeps [Inv]. *)
Lemma orch_preserves (Pre : state U V -> Prop) fuel self params :
  (∀ s, start_node self = Some s ->
        hoare Pre (set_action_map ∅ ≫= λ _,
                   execute_node heap (run_params self params) (Some s))
              (λ _, Inv) Inv) ->
  (start_node self = None ->
   ∀ st, Pre st ->
         Inv (State (world st) ∅ (phases st) (sched st) (warnings st))) ->
  hoare Pre (_orch heap set_order recursion_limit fuel self params)
        (λ _, Inv) Inv.
Proof.
  intros Hstart Hreset. unfold Flow._orch.
  destruct (start_node self) as [s|] eqn:Hs.
  - apply Aux.hoare_bind_assoc.
    eapply hoare_bind; [by apply Hstart|intros ?].
    eapply hoare_bind with (Q := λ _, Inv);
      [apply hoare_get; by intros st Hst|intros st0].
    apply Aux.hoare_lift_outcome_bind; [|done]. intros g _.
    eapply hoare_bind; [apply wave_loop_preserves|intros []].
    eapply hoare_bind with (Q := λ _, Inv);
      [apply hoare_get; by intros st Hst|intros st1].
    by apply hoare_ret.
  - intros st Hst. cbn. by apply Hreset.
Qed.
End preserve.

Lemma or_default_nonempty action : or_default action ≠ ""%string.
Proof.
  unfold or_default. destruct action as [a|]; [|done].
  by destruct (decide (a = ""%string)).
Qed.

Section invariants.
Context {U V : Type}.
Variable heap : node -> BaseNode.obj U V.
Variable set_order : gset node -> list node.
Variable recursion_limit : nat.

Definition actions_nonempty (st : state U V) : Prop :=
  ∀ n a, action_map st !! n = Some a -> a ≠ ""%string.

Lemma actions_nonempty_execute p n :
  hoare actions_nonempty (execute_node heap p (Some n))
        (λ _, actions_nonempty) actions_nonempty.
Proof.
  intros st Hst. destruct (decide (n ∈ dom (action_map st))) as [Hin|Hin].
  - by rewrite FlowSpec.execute_node_skip.
  - destruct (FlowSpec.execute_node_run heap p n st Hin) as (pre & _ & ->).
    destruct (lifecycle heap p n (world st)) as [[act| |] w']; [|done..].
    intros m a. cbn. rewrite lookup_insert.
    destruct (decide (n = m)) as [->|]; [|by apply Hst].
    intros [= <-]. apply or_default_nonempty.
Qed.

Definition grown_from (pre : list (phase * node)) (st : state U V) : Prop :=
  pre `prefix_of` phases st.

Lemma grown_from_execute pre p n :
  hoare (grown_from pre) (execute_node heap p (Some n))
        (λ _, grown_from pre) (grown_from pre).
Proof.
  intros st Hst. destruct (decide (n ∈ dom (action_map st))) as [Hin|Hin].
  - by rewrite FlowSpec.execute_node_skip.
  - destruct (FlowSpec.execute_node_run heap p n st Hin) as (pre' & _ & ->).
    destruct (lifecycle heap p n (world st)) as [[act| |] w']; cbn;
      unfold grown_from; cbn; by apply prefix_app_r.
Qed.
End invariants.
End RunInvSpec.

Lemma execute_node_starts {U V : Type} (heap : node -> BaseNode.obj U V)
    (p : params V) (n : node) (st : Flow.state U V) :
  n ∉ dom (Flow.action_map st) ->
  (Flow.phases st ++ [(Prep, n)])
    `prefix_of` Flow.phases (Flow.execute_node heap p (Some n) st).2.
Proof.
  intros Hn. unfold Flow.execute_node. unfold_monad. cbn.
  destruct (decide _) as [|_]; [done|].
  unfold Flow.lift_env, lift_user, Flow.log_phase, Flow.set_action_map,
    modify; cbn.
  destruct (BaseNode.prep (heap n) p _) as [[a| |] u1]; cbn; [|done..].
  destruct (BaseNode._exec (heap n) p a _) as [[b| |] w2]; cbn;
    [|by apply prefix_app_r..].
  destruct (BaseNode.post (heap n) p a b _) as [[c| |] u3]; cbn;
    by do 2 apply prefix_app_r.
Qed.

(** X10: every action a run records is a non-empty string ([None] and
    [""] are recorded as ["default"]), whatever state the run starts from
    and however it ends; so the start node is always expanded under the
    one label recorded for it, never under all its labels. *)
Theorem recorded_actions_nonempty {U V : Type}
    (heap : node -> BaseNode.obj U V) (set_order : gset node -> list node)
    (recursion_limit fuel : nat) (self : Flow.flow U V)
    (params : option (params V)) (st : Flow.state U V) (n : node)
    (a : string) :
  Flow.action_map
    (Flow._orch heap set_order recursion_limit fuel self params st).2 !! n
  = Some a ->
  a ≠ ""%string
  ∧ Flow.actions_of heap n (Some a) = [a].
Proof.
  intros Ha.
  assert (H : hoare (λ _, True)
                (Flow._orch heap set_order recursion_limit fuel self params)
                (λ _, RunInvSpec.actions_nonempty)
                RunInvSpec.actions_nonempty).
  { apply RunInvSpec.orch_preserves.
    - apply RunInvSpec.actions_nonempty_execute.
    - by intros ? ? ?.
    - intros s _.
      eapply hoare_bind with (Q := λ _, RunInvSpec.actions_nonempty);
        [apply hoare_modify|intros []].
      + intros ? _ ? ? H. cbn in H. by rewrite lookup_empty in H.
      + apply RunInvSpec.actions_nonempty_execute.
    - intros _ ? _ ? ? H. cbn in H. by rewrite lookup_empty in H. }
  specialize (H st I).
  assert (a ≠ ""%string) as Hne
    by (destruct (Flow._orch _ _ _ _ _ _ _) as [[x| |] st']; by eapply H).
  split; [done|]. unfold Flow.actions_of. by rewrite decide_False.
Qed.

Lemma recorded_actions_nonempty_witness :
  "default"%string ≠ ""%string
  ∧ Flow.actions_of Examples.diamond 0 (Some "default"%string)
    = ["default"%string].
Proof.
  apply (recorded_actions_nonempty Examples.diamond elements 1000 10
           (Examples.flow_from (Some 0)) None (Flow.fresh (Env [] [])) 0).
  vm_compute. reflexivity.
Defined.

(** X11: the action map is per run: [_orch] starts every run by
    invoking the start node's [prep], also from a state whose action map,
    left by an earlier run, holds the start node; what the earlier run
    recorded as invoked stays, and the new invocations come after it. *)
Theorem every_run_executes_start {U V : Type}
    (heap : node -> BaseNode.obj U V) (set_order : gset node -> list node)
    (recursion_limit fuel : nat) (self : Flow.flow U V)
    (params : option (params V)) (st : Flow.state U V) (s : node) :
  Flow.start_node self = Some s ->
  (Flow.phases st ++ [(Prep, s)])
    `prefix_of`
    Flow.phases
      (Flow._orch heap set_order recursion_limit fuel self params st).2.
Proof.
  intros Hs.
  assert (H : hoare (λ st0, st0 = st)
                (Flow._orch heap set_order recursion_limit fuel self params)
                (λ _, RunInvSpec.grown_from (Flow.phases st ++ [(Prep, s)]))
                (RunInvSpec.grown_from (Flow.phases st ++ [(Prep, s)]))).
  { apply RunInvSpec.orch_preserves.
    - apply RunInvSpec.grown_from_execute.
    - by intros ? ? ?.
    - intros s0 Hs0 st0 ->. assert (s0 = s) as -> by congruence.
      unfold_monad. unfold Flow.set_action_map, modify.
      assert (Hn : s ∉ dom (Flow.action_map
                  (Flow.State (Flow.world st) ∅ (Flow.phases st)
                     (Flow.sched st) (Flow.warnings st))))
        by (cbn; set_solver).
      pose proof (execute_node_starts heap (Flow.run_params self params) s
                    _ Hn) as Hst.
      unfold RunInvSpec.grown_from.
      destruct (Flow.execute_node _ _ _ _) as [[x| |] st']; exact Hst.
    - intros Hnone. congruence. }
  specialize (H st eq_refl).
  by destruct (Flow._orch _ _ _ _ _ _ _) as [[x| |] st'].
Qed.

Lemma every_run_executes_start_witness :
  ([(Prep, 0); (Exec, 0); (Post, 0)] ++ [(Prep, 0)])
    `prefix_of`
    Flow.phases
      (Flow._orch Examples.dead_end elements 1000 10
         (Examples.flow_from (Some 0)) None
         (Flow.State (Env [0] []) {[0 := "y"%string]}
            [(Prep, 0); (Exec, 0); (Post, 0)] [] [])).2.
Proof.
  exact (every_run_executes_start Examples.dead_end elements 1000 10
           (Examples.flow_from (Some 0)) None
           (Flow.State (Env [0] []) {[0 := "y"%string]}
              [(Prep, 0); (Exec, 0); (Post, 0)] [] []) 0 eq_refl).
Defined.

(** ** The shape of the dependency graph *)

Module GraphShapeSpec.
Import Flow.

(** The two dicts have the same keys, each once, and mirror each other. *)
Record mirrored (g : dep_graph) : Prop := Mirrored {
  mi_keys : dict_keys (dependencies g) = dict_keys (reverse_deps g);
  mi_nodup : NoDup (dict_keys (dependencies g));
  mi_mirror : ∀ x y, has_dep g y x ↔ has_rdep g x y
}.

Lemma mirrored_empty : mirrored empty_graph.
Proof.
  split; [done|apply NoDup_nil_2|].
  intros x y. split; intros (? & ? & ?); done.
Qed.

Lemma mirrored_touch n g : mirrored g -> mirrored (touch n g).
Proof.
  intros [Hk Hnd Hm]. split; unfold touch; cbn [dependencies reverse_deps].
  - rewrite !WiringSpec.dict_keys_setdefault.
    destruct (dict_get (dependencies g) n) as [x|] eqn:Hd;
      destruct (dict_get (reverse_deps g) n) as [y|] eqn:Hr.
    + done.
    + exfalso. apply WiringSpec.dict_keys_fresh in Hr. apply Hr.
      rewrite <- Hk. apply dict_keys_get. eauto.
    + exfalso. apply WiringSpec.dict_keys_fresh in Hd. apply Hd.
      rewrite Hk. apply dict_keys_get. eauto.
    + by rewrite Hk.
  - rewrite WiringSpec.dict_keys_setdefault.
    destruct (dict_get (dependencies g) n) eqn:Hd; [done|].
    apply NoDup_app. split; [done|]. split; [|apply NoDup_singleton].
    intros x Hx Hx'. apply list_elem_of_singleton in Hx' as ->.
    by apply WiringSpec.dict_keys_fresh in Hd.
  - intros x y. split; intros H.
    + apply (le_rdep _ _ (BuildSpec.GraphFacts.touch_le n g)), Hm.
      by apply (BuildSpec.GraphFacts.touch_dep_inv n).
    + apply (le_dep _ _ (BuildSpec.GraphFacts.touch_le n g)), Hm.
      by apply (BuildSpec.GraphFacts.touch_rdep_inv n).
Qed.

Lemma add_edge_keys n succ g g' :
  add_edge n succ g = Ok g' ->
  dict_keys (dependencies g') = dict_keys (dependencies g)
  ∧ dict_keys (reverse_deps g') = dict_keys (reverse_deps g).
Proof.
  unfold add_edge, set_add.
  destruct (dict_get (dependencies g) succ); [|done].
  destruct (dict_get (reverse_deps g) n); [|done]. cbn.
  intros [= <-]. cbn [dependencies reverse_deps].
  by rewrite !WiringSpec.dict_keys_alter.
Qed.

Lemma mirrored_add_edge n succ g g' :
  mirrored g -> add_edge n succ g = Ok g' -> mirrored g'.
Proof.
  intros [Hk Hnd Hm] Ha. destruct (add_edge_keys _ _ _ _ Ha) as [Hd Hr].
  apply BuildSpec.GraphFacts.add_edge_spec in Ha
    as (Hle & [He1 He2] & _ & Hdi & Hri & _).
  split.
  - by rewrite Hd, Hr.
  - by rewrite Hd.
  - intros x y. split; intros H.
    + apply Hdi in H as [H|[-> ->]]; [|done].
      by apply (le_rdep _ _ Hle), Hm.
    + apply Hri in H as [H|[-> ->]]; [|done].
      by apply (le_dep _ _ Hle), Hm.
Qed.

Section shape.
Context {U V : Type}.
Variable heap : node -> BaseNode.obj U V.

Local Abbreviation selected := (selected heap).
Local Abbreviation reach := (reach heap).
Local Abbreviation add_dependency := (add_dependency heap).

(** What [touch], [enter] and [add_edge] keep, [add_dependency] keeps. *)
Lemma add_dependency_preserves (J : dep_graph -> Prop) :
  (∀ n g, J g -> J (touch n g)) ->
  (∀ n g, J g -> J (enter n g)) ->
  (∀ n succ g g', J g -> add_edge n succ g = Ok g' -> J g') ->
  ∀ d n act g g', J g -> add_dependency d n act g = Ok g' -> J g'.
Proof.
  intros Ht He Ha. induction d as [|d IH]; intros n act g g' Hg Hrun;
    [done|].
  rewrite BuildSpec.add_dependency_unfold in Hrun.
  apply (BuildSpec.for_each_ind _ (λ _ g, J g) _ _ _ Hrun).
  - by apply He, Ht.
  - intros _ succ g1 g2 Hg1 _ Hv. unfold visit in Hv.
    destruct (add_edge n succ (touch succ g1)) as [ga| |] eqn:Hadd;
      try done.
    cbn in Hv. eapply IH; [|exact Hv]. eapply Ha; [|exact Hadd].
    by apply Ht.
Qed.

Lemma add_dependency_mirrored d n act g g' :
  mirrored g -> add_dependency d n act g = Ok g' -> mirrored g'.
Proof.
  apply add_dependency_preserves.
  - apply mirrored_touch.
  - by intros ? ? [].
  - apply mirrored_add_edge.
Qed.

(** Nodes that enter the graph below [add_dependency n] have a
    dependency. *)
Lemma add_dependency_has_dep d n act g g' :
  add_dependency d n act g = Ok g' ->
  ∀ m, in_deps g' m -> in_deps g m ∨ m = n ∨ ∃ x, has_dep g' m x.
Proof.
  revert n act g g'. induction d as [|d IH]; intros n act g g' Hrun;
    [done|].
  rewrite BuildSpec.add_dependency_unfold in Hrun.
  destruct (BuildSpec.GraphFacts.enter_touch n g)
    as (_ & _ & _ & Hinv0 & _).
  enough (∀ m, in_deps g' m ->
               in_deps (enter n (touch n g)) m ∨ ∃ x, has_dep g' m x) as H.
  { intros m Hm. destruct (H m Hm) as [H0|H0]; [|by right; right].
    destruct (Hinv0 m H0); eauto. }
  apply (BuildSpec.for_each_ind _
           (λ _ g1, ∀ m, in_deps g1 m ->
                         in_deps (enter n (touch n g)) m
                         ∨ ∃ x, has_dep g1 m x) _ _ _ Hrun); [eauto|].
  intros _ succ g1 g2 Hg1 _ Hv m Hm. unfold visit in Hv.
  destruct (add_edge n succ (touch succ g1)) as [ga| |] eqn:Hadd; try done.
  cbn in Hv.
  pose proof (BuildSpec.add_dependency_built heap _ _ _ _ _ Hv)
    as [Hle _ _ _ _ _ _ _].
  apply BuildSpec.GraphFacts.add_edge_spec in Hadd
    as (Hlea & [He1 _] & Hia & _).
  destruct (IH _ _ _ _ Hv m Hm) as [Hga|[->|Hx]]; [| |by right].
  - apply Hia, BuildSpec.GraphFacts.touch_in_deps_inv in Hga as [Hga| ->].
    + destruct (Hg1 m Hga) as [H0|[x Hx]]; [by left|right].
      exists x. apply (le_dep _ _ Hle), (le_dep _ _ Hlea).
      by apply (le_dep _ _ (BuildSpec.GraphFacts.touch_le succ g1)).
    + right. exists n. by apply (le_dep _ _ Hle).
  - right. exists n. by apply (le_dep _ _ Hle).
Qed.

Lemma reach_snoc m x y : reach m x -> y ∈ selected x None -> reach m y.
Proof.
  induction 1 as [n|n m x Hm Hr IH]; intros Hy.
  - eapply reach_step; [exact Hy|apply reach_refl].
  - eapply reach_step; [exact Hm|by apply IH].
Qed.

Lemma reach_trans m x y : reach m x -> reach x y -> reach m y.
Proof.
  induction 1 as [n|n m x Hm Hr IH]; intros Hy; [done|].
  eapply reach_step; [exact Hm|by apply IH].
Qed.

(** In a graph that was built, no edge comes back to the start node. *)
Lemma no_way_back d s act m x :
  depth_ok heap (S d) s act = true ->
  m ∈ selected s act -> reach m x -> s ∈ selected x None -> False.
Proof.
  intros Hd Hm Hr Hs.
  apply (BuildSpec.depth_ok_acyclic heap d s m).
  - eapply BuildSpec.depth_ok_reach; [|eapply reach_snoc; eauto].
    by eapply BuildSpec.depth_ok_succ.
  - by eapply BuildSpec.selected_any.
  - by eapply reach_snoc.
Qed.
End shape.

Section built.
Context {U V : Type}.
Variable heap : node -> BaseNode.obj U V.
Variable recursion_limit : nat.
Variable start : node.
Variable act : option string.
Variable g : dep_graph.
Hypothesis Hrun :
  add_dependency heap recursion_limit start act empty_graph = Ok g.

Lemma built_mirrored : mirrored g.
Proof. exact (add_dependency_mirrored heap _ _ _ _ _ mirrored_empty Hrun). Qed.

Lemma built_depth_ok : depth_ok heap recursion_limit start act = true.
Proof.
  pose proof (BuildSpec.add_dependency_outcome heap recursion_limit start
                act empty_graph) as Hok.
  by rewrite Hrun in Hok.
Qed.

Lemma dep_origin x y :
  has_dep g y x -> origin heap start (selected heap start act) x y.
Proof.
  intros Hxy.
  apply (built_dep _ _ _ _ _ _
           (BuildSpec.add_dependency_built heap _ _ _ _ _ Hrun)) in Hxy
    as [(? & ? & ?)|Hxy]; done.
Qed.

Lemma dep_is_successor x y : has_dep g y x -> y ∈ selected heap x None.
Proof.
  intros Hxy. destruct (dep_origin x y Hxy) as [[-> Hy]|(m & _ & _ & Hy)];
    [|done].
  by eapply BuildSpec.selected_any.
Qed.

Lemma start_in_graph : in_deps g start.
Proof.
  by destruct (built_in _ _ _ _ _ _
                 (BuildSpec.add_dependency_built heap _ _ _ _ _ Hrun)).
Qed.

Lemma start_has_no_dep x : ¬ has_dep g start x.
Proof.
  intros Hxs. pose proof built_depth_ok as Hok.
  pose proof (dep_origin x start Hxs) as Ho.
  destruct recursion_limit as [|d]; [done|].
  destruct Ho as [[-> Hy]|(m & Hm & Hr & Hy)].
  - by apply (no_way_back heap d start act start start);
      [..|apply reach_refl|eapply BuildSpec.selected_any].
  - by apply (no_way_back heap d start act m x).
Qed.

Lemma others_have_dep n : in_deps g n -> n ≠ start -> ∃ x, has_dep g n x.
Proof.
  intros Hn Hne.
  destruct (add_dependency_has_dep heap _ _ _ _ _ Hrun n Hn)
    as [[? ?]|[->|Hx]]; done.
Qed.

Lemma in_graph_reachable n :
  in_deps g n -> n ≠ start ->
  ∃ m, m ∈ selected heap start act ∧ reach heap m n.
Proof.
  intros Hn Hne. destruct (others_have_dep n Hn Hne) as [x Hx].
  destruct (dep_origin x n Hx) as [[-> Hy]|(m & Hm & Hr & Hy)].
  - exists n. split; [done|apply reach_refl].
  - exists m. split; [done|]. by eapply reach_snoc.
Qed.

Lemma reachable_in_graph m n :
  m ∈ selected heap start act -> reach heap m n -> in_deps g n.
Proof.
  intros Hm Hr. pose proof built_depth_ok as Hok.
  pose proof (BuildSpec.add_dependency_built heap _ _ _ _ _ Hrun)
    as [_ _ Hedges Hfull _ _ _ _].
  destruct recursion_limit as [|d]; [done|].
  assert (Hm_in : in_deps g m).
  { destruct (Hedges m Hm) as [(ds & Hds & _) _]. by exists ds. }
  assert (Hgo : ∀ x y, reach heap x y -> reach heap m x -> in_deps g x ->
                       in_deps g y).
  { induction 1 as [x|x x' y Hx' Hr' IH]; intros Hmx Hx; [done|].
    apply IH; [by eapply reach_snoc|].
    destruct (Hfull x Hx) as [[? ?]|[->|Hf]]; [done| |].
    - exfalso. apply (BuildSpec.depth_ok_acyclic heap d start m).
      + eapply BuildSpec.depth_ok_reach; [|exact Hmx].
        by eapply BuildSpec.depth_ok_succ.
      + by eapply BuildSpec.selected_any.
      + done.
    - destruct (Hf x' Hx') as [(ds & Hds & _) _]. by exists ds. }
  by apply (Hgo m n Hr (reach_refl heap m)).
Qed.
End built.

(** X12: the two dicts of a graph that [_build_dependency_graph] returns
    have the same keys, each once and in the same order, and mirror each
    other: [x ∈ dependencies[y]] exactly when [y ∈ reverse_deps[x]], and
    then [y] is a successor of [x] in the successor tables.  The start node
    has no dependency, and every other node of the graph has at least
    one. *)
Theorem graph_is_mirrored {U V : Type} (heap : node -> BaseNode.obj U V)
    (recursion_limit : nat) (start : node) (action_map : gmap node string)
    (g : dep_graph) :
  _build_dependency_graph heap recursion_limit start action_map = Ok g ->
  dict_keys (dependencies g) = dict_keys (reverse_deps g)
  ∧ NoDup (dict_keys (dependencies g))
  ∧ (∀ x y, has_dep g y x ↔ has_rdep g x y)
  ∧ (∀ x y, has_rdep g x y -> y ∈ selected heap x None)
  ∧ dict_get (dependencies g) start = Some ∅
  ∧ (∀ n, n ∈ dict_keys (dependencies g) -> n ≠ start ->
          ∃ x, has_dep g n x).
Proof.
  intros Hrun. unfold _build_dependency_graph in Hrun.
  destruct (built_mirrored heap _ _ _ _ Hrun) as [Hk Hnd Hm].
  split; [done|]. split; [done|]. split; [done|]. split; [|split].
  - intros x y Hxy. apply Hm in Hxy. by eapply dep_is_successor.
  - destruct (start_in_graph heap _ _ _ _ Hrun) as [ds Hds].
    rewrite Hds. f_equal. apply elem_of_equiv_empty_L. intros x Hx.
    apply (start_has_no_dep heap _ _ _ _ Hrun x). by exists ds.
  - intros n Hn Hne. apply dict_keys_get in Hn.
    by eapply others_have_dep.
Qed.

Lemma graph_is_mirrored_witness :
  ∃ g, _build_dependency_graph Examples.diamond 1000 0
         Examples.default_action = Ok g
       ∧ dict_keys (dependencies g) = dict_keys (reverse_deps g).
Proof.
  eexists. split; [vm_compute; reflexivity|].
  match goal with |- dict_keys (dependencies ?g) = _ =>
    refine (proj1 (graph_is_mirrored Examples.diamond 1000 0
                     Examples.default_action g _))
  end.
  vm_compute. reflexivity.
Defined.

(** X13: the nodes of the graph are the start node and the nodes that
    can be reached from its successors under the recorded action, along
    successor edges of any label. *)
Theorem graph_holds_reachable {U V : Type} (heap : node -> BaseNode.obj U V)
    (recursion_limit : nat) (start : node) (action_map : gmap node string)
    (g : dep_graph) (n : node) :
  _build_dependency_graph heap recursion_limit start action_map = Ok g ->
  n ∈ dict_keys (dependencies g)
  ↔ n = start
    ∨ ∃ m, m ∈ selected heap start (action_map !! start) ∧ reach heap m n.
Proof.
  intros Hrun. unfold _build_dependency_graph in Hrun.
  rewrite dict_keys_get. split.
  - intros Hn. destruct (decide (n = start)) as [->|Hne]; [by left|right].
    by eapply in_graph_reachable.
  - intros [->|(m & Hm & Hr)].
    + by eapply start_in_graph.
    + by eapply reachable_in_graph.
Qed.

Lemma graph_holds_reachable_witness :
  ∃ g, _build_dependency_graph Examples.diamond 1000 0
         Examples.default_action = Ok g
       ∧ 3 ∈ dict_keys (dependencies g).
Proof.
  eexists. split; [vm_compute; reflexivity|].
  match goal with |- _ ∈ dict_keys (dependencies ?g) =>
    refine (proj2 (graph_holds_reachable Examples.diamond 1000 0
                     Examples.default_action g 3 _) _)
  end.
  - vm_compute. reflexivity.
  - right. exists 2. split; [vm_compute; apply list_elem_of_further,
                              list_elem_of_here|].
    eapply reach_step; [|apply reach_refl].
    vm_compute. apply list_elem_of_here.
Defined.
End GraphShapeSpec.

(** ** Every discovered node is executed *)

Module CompleteSpec.
Import Flow.
Section complete.
Context {U V : Type}.
Variable heap : node -> BaseNode.obj U V.
Variable set_order : gset node -> list node.
Hypothesis set_order_perm : ∀ X, set_order X ≡ₚ elements X.
Variable p : params V.
Variable deps rdeps : dict node (gset node).

(** [completed_nodes] is [C]: the nodes of [C] are the keys of
    [action_map], and each has gone through its three phases. *)
Definition ran (C : gset node) (st : state U V) : Prop :=
  dom (action_map st) = C ∧ ∀ n ph, n ∈ C -> (ph, n) ∈ phases st.

Definition anyhow (st : state U V) : Prop := True.

(** No dependent of a node of [C] is left whose dependencies are all in
    [C]. *)
Definition closed (C : gset node) : Prop :=
  ∀ n rs d ds,
    n ∈ C -> dict_get rdeps n = Some rs -> d ∈ rs ->
    dict_get deps d = Some ds -> ds ⊆ C -> d ∈ C.

Definition known (C : gset node) : Prop :=
  ∀ c, c ∈ C -> is_Some (dict_get deps c).

Lemma ran_execute C n :
  n ∉ C ->
  hoare (ran C) (execute_node heap p (Some n)) (λ _, ran ({[n]} ∪ C)) anyhow.
Proof.
  intros Hn st [Hdom Hph]. rewrite <- Hdom in Hn.
  destruct (FlowSpec.execute_node_run heap p n st Hn) as (pre & _ & ->).
  destruct (lifecycle heap p n (world st)) as [[act| |] w']; [|done..].
  split; cbn [action_map phases].
  - rewrite dom_insert_L. by rewrite Hdom.
  - intros m ph Hm. apply elem_of_app.
    apply elem_of_union in Hm as [Hm|Hm].
    + apply elem_of_singleton in Hm as ->. right.
      unfold FlowSpec.three. destruct ph; set_solver.
    + left. by apply Hph.
Qed.

Lemma ran_run_wave k ready C :
  hoare (ran C) (run_wave heap p k ready C)
        (λ C' st, ran C' st ∧ C' = list_to_set ready ∪ C) anyhow.
Proof.
  revert C. induction ready as [|n rest IH]; intros C; cbn [Flow.run_wave].
  - apply hoare_ret. intros st Hst. split; [done|]. set_solver.
  - destruct (decide (n ∈ C)) as [Hn|Hn].
    + eapply hoare_conseq; [apply IH|done|intros C' st [H1 ->]|done].
      split; [done|]. set_solver.
    + eapply hoare_bind with (Q := λ _, ran C).
      { apply hoare_modify. by intros st Hst. }
      intros []. eapply hoare_bind; [by apply ran_execute|].
      intros ?. eapply hoare_conseq;
        [apply (IH ({[n]} ∪ C))|done|intros C' st [H1 ->]|done].
      split; [done|]. set_solver.
Qed.

Lemma scan_dependents_complete C ds ready l :
  scan_dependents deps C ds ready = Ok l ->
  (∀ r, r ∈ ready -> r ∈ l)
  ∧ (∀ d, d ∈ ds -> deps_done deps C d = Ok true -> d ∈ l).
Proof.
  intros Hrun. unfold scan_dependents in Hrun.
  apply (BuildSpec.for_each_ind _
           (λ done l, (∀ r, r ∈ ready -> r ∈ l)
                      ∧ (∀ d, d ∈ done -> deps_done deps C d = Ok true ->
                              d ∈ l)) _ _ _ Hrun).
  - split; [done|]. intros d Hd. by apply elem_of_nil in Hd.
  - intros done x l1 l2 [Hready Hdone] _ Hx.
    destruct (deps_done deps C x) as [[|]| |] eqn:Hd; cbn in Hx; try done;
      injection Hx as <-.
    + split.
      * intros r Hr. apply elem_of_app. left. by apply Hready.
      * intros d Hin Hok. apply elem_of_app.
        apply elem_of_app in Hin as [Hin|Hin]; [left; by apply Hdone|].
        by right.
    + split; [done|]. intros d Hin Hok.
      apply elem_of_app in Hin as [Hin|Hin]; [by apply Hdone|].
      apply list_elem_of_singleton in Hin as ->. congruence.
Qed.

Lemma scan_completed_complete C l :
  scan_completed set_order deps rdeps C = Ok l ->
  ∀ n rs d ds,
    n ∈ C -> dict_get rdeps n = Some rs -> d ∈ rs ->
    dict_get deps d = Some ds -> ds ⊆ C -> d ∈ l.
Proof.
  intros Hrun. unfold scan_completed in Hrun.
  assert (H : ∀ n, n ∈ set_order C ->
                   ∀ d, d ∈ set_order (default ∅ (dict_get rdeps n)) ->
                        deps_done deps C d = Ok true -> d ∈ l).
  { apply (BuildSpec.for_each_ind _
             (λ done l, ∀ n, n ∈ done ->
                ∀ d, d ∈ set_order (default ∅ (dict_get rdeps n)) ->
                     deps_done deps C d = Ok true -> d ∈ l) _ _ _ Hrun).
    - intros n Hn. by apply elem_of_nil in Hn.
    - intros done x l1 l2 Hdone _ Hx.
      apply scan_dependents_complete in Hx as [Hkeep Hnew].
      intros n Hn d Hd Hok. apply elem_of_app in Hn as [Hn|Hn].
      + by eapply Hkeep, Hdone.
      + apply list_elem_of_singleton in Hn as ->. by apply Hnew. }
  intros n rs d ds Hn Hrs Hd Hds Hsub.
  apply (H n).
  - by apply SchedSpec.elem_of_set_order.
  - apply SchedSpec.elem_of_set_order; [done|]. by rewrite Hrs.
  - unfold deps_done. rewrite Hds. by rewrite bool_decide_eq_true_2.
Qed.

Lemma wave_loop_complete fuel k ready C :
  (ready = [] -> closed C) ->
  known C -> (∀ r, r ∈ ready -> is_Some (dict_get deps r)) ->
  hoare (ran C) (wave_loop heap set_order fuel p deps rdeps k ready C)
        (λ _ st, ∃ C', ran C' st ∧ closed C' ∧ known C' ∧ C ⊆ C') anyhow.
Proof.
  revert k ready C. induction fuel as [|fuel IH];
    intros k ready C Hclosed Hknown Hready;
    destruct ready as [|r ready]; cbn [Flow.wave_loop].
  - apply hoare_ret. intros st Hst. exists C. by auto.
  - by apply hoare_diverge.
  - apply hoare_ret. intros st Hst. exists C. by auto.
  - eapply hoare_bind; [apply ran_run_wave|]. intros C1.
    apply Aux.hoare_pure_pre. intros ->.
    set (C1 := list_to_set (r :: ready) ∪ C).
    apply Aux.hoare_lift_outcome_bind; [|done].
    intros l Hscan. eapply hoare_conseq.
    + apply (IH (S k) (set_order (list_to_set l ∖ C1)) C1).
      * intros Hnil n rs d ds Hn Hrs Hd Hds Hsub.
        pose proof (scan_completed_complete C1 l Hscan n rs d ds Hn Hrs Hd
                      Hds Hsub) as Hl.
        destruct (decide (d ∈ C1)) as [|Hnot]; [done|exfalso].
        assert (d ∈ set_order (list_to_set l ∖ C1)) as Hin.
        { apply SchedSpec.elem_of_set_order; [done|]. set_solver. }
        rewrite Hnil in Hin. by apply elem_of_nil in Hin.
      * intros c Hc. apply elem_of_union in Hc as [Hc|Hc]; [|by apply Hknown].
        apply Hready. by apply elem_of_list_to_set in Hc.
      * intros x Hx. apply SchedSpec.elem_of_set_order in Hx; [|done].
        apply elem_of_difference in Hx as [Hx _].
        apply elem_of_list_to_set in Hx.
        apply (SchedSpec.scan_completed_sound set_order deps rdeps) in Hscan.
        apply Hscan in Hx. unfold deps_done in Hx.
        by destruct (dict_get deps x).
    + done.
    + intros [] st (C' & H1 & H2 & H3 & H4). exists C'.
      split; [done|]. split; [done|]. split; [done|]. set_solver.
    + done.
Qed.
End complete.

(** In a graph that the construction returned, a set of completed nodes
    that holds the start node and is closed holds every node of the
    graph. *)
Lemma closed_is_all {U V : Type} (heap : node -> BaseNode.obj U V)
    (recursion_limit : nat) (s : node) (act : option string)
    (g : dep_graph) (C : gset node) :
  add_dependency heap recursion_limit s act empty_graph = Ok g ->
  s ∈ C -> closed (dependencies g) (reverse_deps g) C ->
  ∀ n, in_deps g n -> n ∈ C.
Proof.
  intros Hrun Hs Hclosed.
  pose proof (GraphShapeSpec.built_depth_ok heap _ _ _ _ Hrun) as Hok.
  pose proof (GraphShapeSpec.built_mirrored heap _ _ _ _ Hrun)
    as [Hkeys _ Hmirror].
  destruct recursion_limit as [|L]; [done|].
  assert (Hdeep : ∀ n, in_deps g n -> n ≠ s ->
                       depth_ok heap L n None = true).
  { intros n Hn Hne.
    destruct (GraphShapeSpec.in_graph_reachable heap _ _ _ _ Hrun n Hn Hne)
      as (m & Hm & Hr).
    eapply BuildSpec.depth_ok_reach; [|exact Hr].
    by eapply BuildSpec.depth_ok_succ. }
  assert (Hstep : ∀ j,
             (∀ n, in_deps g n -> depth_ok heap (S j) n None = false ->
                   n ∈ C) ->
             ∀ n, in_deps g n -> depth_ok heap j n None = false -> n ∈ C).
  { intros j IH n Hn Hj.
    destruct (decide (n = s)) as [->|Hne]; [done|].
    destruct Hn as [ds Hds].
    assert (Hsub : ds ⊆ C).
    { intros x Hx. assert (has_dep g n x) as Hdep by (by exists ds).
      destruct (decide (x = s)) as [->|Hxs]; [done|].
      apply IH.
      - apply Hmirror in Hdep as (rs & Hrs & _).
        apply dict_keys_get. rewrite Hkeys. apply dict_keys_get. eauto.
      - destruct (depth_ok heap (S j) x None) eqn:Hx'; [|done].
        rewrite <- Hj. symmetry.
        eapply BuildSpec.depth_ok_succ; [exact Hx'|].
        by eapply GraphShapeSpec.dep_is_successor. }
    destruct (GraphShapeSpec.others_have_dep heap _ _ _ _ Hrun n)
      as (x & ds' & Hds' & Hx); [by exists ds|done|].
    rewrite Hds in Hds'. injection Hds' as <-.
    assert (has_dep g n x) as Hdep by (by exists ds).
    apply Hmirror in Hdep as (rs & Hrs & Hn).
    by apply (Hclosed x rs n ds); [apply Hsub|..]. }
  assert (Hall : ∀ i, i ≤ L ->
             ∀ n, in_deps g n -> depth_ok heap (L - i) n None = false ->
                  n ∈ C).
  { induction i as [|i IH]; intros Hi n Hn Hd.
    - destruct (decide (n = s)) as [->|Hne]; [done|].
      rewrite Nat.sub_0_r, Hdeep in Hd; done.
    - apply (Hstep (L - S i)); [|done..].
      replace (S (L - S i)) with (L - i) by lia. apply IH. lia. }
  intros n Hn. apply (Hall L); [lia|done|]. by rewrite Nat.sub_diag.
Qed.
End CompleteSpec.

(** X14: a run that returns has executed the nodes of the dependency
    graph and no others: the keys of [action_map] are the start node and
    the nodes that can be reached from the successors of the start node
    under the action it returned, and each of them has gone through
    prepare, execute and post.  No node that can be reached is left
    waiting. *)
Theorem every_reachable_node_runs {U V : Type}
    (heap : node -> BaseNode.obj U V) (set_order : gset node -> list node)
    (recursion_limit fuel : nat) (self : Flow.flow U V)
    (params : option (params V)) (w : env U V) (x : option string)
    (st' : Flow.state U V) :
  (∀ X, set_order X ≡ₚ elements X) ->
  Flow._orch heap set_order recursion_limit fuel self params (Flow.fresh w)
  = (Ok x, st') ->
  ∃ s a,
    Flow.start_node self = Some s ∧ x = Some a
    ∧ (∀ n, n ∈ dom (Flow.action_map st')
            ↔ n = s ∨ ∃ m, m ∈ Flow.selected heap s (Some a)
                           ∧ Flow.reach heap m n)
    ∧ (∀ n ph, n ∈ dom (Flow.action_map st') -> (ph, n) ∈ Flow.phases st').
Proof.
  intros Hperm Hrun.
  destruct (Flow.start_node self) as [s|] eqn:Hs;
    [|by rewrite RunSpec.orch_no_start in Hrun].
  destruct (OrchSpec.orch_cases heap set_order Hperm recursion_limit fuel
              self params w s (Ok x) st' Hs Hrun)
    as [[Hno _]|(act & w1 & g & Hlife & Hbuild & _ & Hx)];
    [by destruct Hno|].
  exists s, (or_default act). split; [done|]. split; [by apply Hx|].
  rewrite (RunSpec.orch_unfold heap set_order recursion_limit fuel self
             params w s act w1 g Hs Hlife Hbuild) in Hrun.
  unfold Flow._build_dependency_graph in Hbuild.
  rewrite lookup_singleton_eq in Hbuild.
  pose proof (GraphShapeSpec.start_in_graph heap _ _ _ _ Hbuild) as Hstart.
  pose proof (CompleteSpec.wave_loop_complete heap set_order Hperm
                (Flow.run_params self params) (Flow.dependencies g)
                (Flow.reverse_deps g) fuel 1
                (Flow.initial_ready (Flow.dependencies g) {[s]}) {[s]})
    as Hloop.
  assert (Hs_ready : s ∈ Flow.initial_ready (Flow.dependencies g) {[s]}).
  { unfold Flow.initial_ready. apply list_elem_of_In, filter_In.
    split; [apply list_elem_of_In, dict_keys_get, Hstart|].
    destruct Hstart as [ds Hds]. rewrite Hds.
    apply bool_decide_eq_true_2. intros y Hy. exfalso.
    apply (GraphShapeSpec.start_has_no_dep heap _ _ _ _ Hbuild y).
    by exists ds. }
  specialize (Hloop
    ltac:(intros Hnil; rewrite Hnil in Hs_ready;
          by apply elem_of_nil in Hs_ready)).
  specialize (Hloop
    ltac:(by intros c ->%elem_of_singleton)).
  assert (Hkeys : ∀ r, r ∈ Flow.initial_ready (Flow.dependencies g) {[s]}
                       -> is_Some (dict_get (Flow.dependencies g) r)).
  { intros r Hr. unfold Flow.initial_ready in Hr.
    apply list_elem_of_In, filter_In in Hr as [Hr _].
    by apply dict_keys_get, list_elem_of_In. }
  specialize (Hloop Hkeys (RunSpec.after_start s act w1)).
  assert (Hran : CompleteSpec.ran {[s]} (RunSpec.after_start s act w1)).
  { split; cbn.
    - by rewrite dom_singleton_L.
    - intros n ph ->%elem_of_singleton. unfold FlowSpec.three.
      destruct ph; set_solver. }
  specialize (Hloop Hran).
  destruct (Flow.wave_loop _ _ _ _ _ _ _ _ _ _) as [[[]| |] st2];
    [|done..].
  injection Hrun as _ <-.
  destruct Hloop as (C' & [Hdom Hph] & Hclosed & Hknown & Hsub).
  assert (Hall : ∀ n, Flow.in_deps g n ↔ n ∈ C').
  { intros n. split; [|by apply Hknown].
    apply (CompleteSpec.closed_is_all heap _ _ _ _ _ Hbuild);
      [set_solver|done]. }
  split.
  - intros n. rewrite Hdom, <- Hall. split.
    + intros Hn. destruct (decide (n = s)) as [->|Hne]; [by left|right].
      by eapply GraphShapeSpec.in_graph_reachable.
    + intros [->|(m & Hm & Hr)]; [done|].
      by eapply GraphShapeSpec.reachable_in_graph.
  - intros n ph Hn. apply Hph. by rewrite <- Hdom.
Qed.

Lemma every_reachable_node_runs_witness :
  ∃ s a,
    Flow.start_node (Examples.flow_from (Some 0)) = Some s
    ∧ Some "default"%string = Some a
    ∧ (∀ n, n ∈ dom (Flow.action_map
                       (Flow._orch Examples.diamond elements 1000 10
                          (Examples.flow_from (Some 0)) None
                          (Flow.fresh (Env [] []))).2)
            ↔ n = s ∨ ∃ m, m ∈ Flow.selected Examples.diamond s (Some a)
                           ∧ Flow.reach Examples.diamond m n)
    ∧ (∀ n ph,
         n ∈ dom (Flow.action_map
                    (Flow._orch Examples.diamond elements 1000 10
                       (Examples.flow_from (Some 0)) None
                       (Flow.fresh (Env [] []))).2) ->
         (ph, n) ∈ Flow.phases
                     (Flow._orch Examples.diamond elements 1000 10
                        (Examples.flow_from (Some 0)) None
                        (Flow.fresh (Env [] []))).2).
Proof.
  apply (every_reachable_node_runs Examples.diamond elements 1000 10
           (Examples.flow_from (Some 0)) None (Env [] [])).
  - reflexivity.
  - vm_compute. reflexivity.
Defined.

(** ** Running a flow, and a batch of runs *)

Module FlowRunSpec.
Import Flow.
Section dict_merge_facts.
Context {K V : Type} `{EqDecision K}.

Lemma dict_get_merge (a b : dict K V) (k : K) :
  NoDup (dict_keys b) ->
  dict_get (dict_merge a b) k
  = match dict_get b k with
    | Some v => Some v
    | None => dict_get a k
    end.
Proof.
  unfold dict_merge. revert a.
  induction b as [|[k0 v0] b IH]; intros a Hnd; [done|].
  apply NoDup_cons in Hnd as [Hk0 Hnd]. cbn [foldl fst snd].
  rewrite IH by done. cbn [dict_get].
  rewrite WiringSpec.dict_get_set.
  destruct (decide (k0 = k)) as [<-|Hne].
  - destruct (dict_get b k0) as [v|] eqn:Hb; [|done].
    exfalso. apply Hk0, dict_keys_get. eauto.
  - by destruct (decide (k = k0)) as [->|_].
Qed.
End dict_merge_facts.

Section run.
Context {U V : Type}.
Variable heap : node -> BaseNode.obj U V.
Variable set_order : gset node -> list node.
Variable recursion_limit : nat.

(** The action recorded for the start node stays. *)
Definition start_recorded (s : node) (a : string) (st : state U V) : Prop :=
  action_map st !! s = Some a.

Lemma start_recorded_execute s a p n :
  hoare (start_recorded s a) (execute_node heap p (Some n))
        (λ _, start_recorded s a) (start_recorded s a).
Proof.
  intros st Hst. destruct (decide (n ∈ dom (action_map st))) as [Hin|Hin].
  - by rewrite FlowSpec.execute_node_skip.
  - destruct (FlowSpec.execute_node_run heap p n st Hin) as (pre & _ & ->).
    destruct (lifecycle heap p n (world st)) as [[act| |] w']; [|done..].
    unfold start_recorded. cbn. rewrite lookup_insert_ne; [done|].
    intros ->. apply Hin, elem_of_dom. by exists a.
Qed.

(** A run that returns, from any state, returns the action recorded for
    the start node. *)
Lemma orch_result fuel self params (st : state U V) x st' :
  _orch heap set_order recursion_limit fuel self params st = (Ok x, st') ->
  ∃ s act w1,
    start_node self = Some s
    ∧ lifecycle heap (run_params self params) s (world st) = (Ok act, w1)
    ∧ x = Some (or_default act).
Proof.
  intros Hrun. unfold Flow._orch in Hrun.
  destruct (start_node self) as [s|] eqn:Hs; [|done].
  set (p := run_params self params) in *.
  unfold_monad. unfold set_action_map, modify in Hrun.
  set (st0 := State (world st) ∅ (phases st) (sched st) (warnings st)) in *.
  destruct (FlowSpec.execute_node_run heap p s st0) as (pre & _ & Hex);
    [cbn; set_solver|].
  rewrite Hex in Hrun. cbn [world st0] in Hrun.
  destruct (lifecycle heap p s (world st)) as [[act| |] w1] eqn:Hlife;
    [|done..].
  exists s, act, w1. split; [done|]. split; [done|].
  cbn [world action_map phases sched warnings st0] in Hrun.
  destruct (_build_dependency_graph heap recursion_limit s _) as [g| |];
    [|done..].
  cbn [world action_map phases sched warnings] in Hrun.
  match type of Hrun with
  | context [wave_loop ?h ?o ?f ?q ?d ?r ?k ?rd ?c ?s1] =>
      pose proof (RunInvSpec.wave_loop_preserves h o
                    (start_recorded s (or_default act))
                    (start_recorded_execute s (or_default act))
                    ltac:(by intros ? ? ?) f q d r k rd c s1) as Hloop;
      destruct (wave_loop h o f q d r k rd c s1) as [[[]| |] st2];
      [|done..]
  end.
  injection Hrun as <- <-. apply Hloop.
  unfold start_recorded. cbn. by rewrite insert_empty, lookup_singleton_eq.
Qed.

Lemma batch_loop_app fuel self (xs ys : list (params V)) (st : state U V) :
  BatchFlow.batch_loop heap set_order recursion_limit fuel self (xs ++ ys) st
  = match BatchFlow.batch_loop heap set_order recursion_limit fuel self xs st
    with
    | (Ok _, st1) =>
        BatchFlow.batch_loop heap set_order recursion_limit fuel self ys st1
    | (Raise e, st1) => (Raise e, st1)
    | (Diverge, st1) => (Diverge, st1)
    end.
Proof.
  revert st. induction xs as [|bp xs IH]; intros st; [done|].
  cbn [app BatchFlow.batch_loop]. unfold_monad.
  destruct (_orch _ _ _ _ _ _ _) as [[o| |] st1]; [apply IH|done..].
Qed.
End run.
End FlowRunSpec.

(** X15: the parameters of one batch item: with [bp] a dict, the nodes
    of the run for [bp] are given [{**self.params, **bp}], in which a key
    of [bp] has the value [bp] gives it and any other key the value the
    flow's own parameters give it; the [params or ...] of [_orch] changes
    nothing here, as the merged dict is empty only when both are. *)
Theorem batch_params_override {U V : Type} (self : Flow.flow U V)
    (bp : params V) (k : string) :
  NoDup (dict_keys bp) ->
  dict_get
    (Flow.run_params self (Some (dict_merge (Flow.flow_params self) bp))) k
  = match dict_get bp k with
    | Some v => Some v
    | None => dict_get (Flow.flow_params self) k
    end.
Proof.
  intros Hnd.
  pose proof (FlowRunSpec.dict_get_merge (Flow.flow_params self) bp k Hnd)
    as Hm.
  unfold Flow.run_params.
  destruct (dict_merge (Flow.flow_params self) bp) as [|kv l] eqn:Hmerged;
    [|done].
  cbn in Hm. destruct (dict_get bp k); [done|]. by rewrite <- Hm.
Qed.

Lemma batch_params_override_witness :
  dict_get
    (Flow.run_params
       (Flow.MkFlow (U:=nat) (Some 0) [("x"%string, 1); ("y"%string, 3)] []
          (fun u => (Ok 0, u)) Flow.default_post)
       (Some (dict_merge [("x"%string, 1); ("y"%string, 3)]
                [("x"%string, 2)])))
    "x"%string
  = Some 2.
Proof.
  apply (batch_params_override
           (Flow.MkFlow (U:=nat) (Some 0) [("x"%string, 1); ("y"%string, 3)]
              [] (fun u => (Ok 0, u)) Flow.default_post)
           [("x"%string, 2)] "x"%string).
  apply NoDup_singleton.
Defined.

(** X16: [BatchFlow._run].  When [prep] returns [None] or an empty list
    no run of the flow takes place: [post] is called with [[]] in the
    world [prep] left, and nothing else changes.  When the run for one
    item raises or does not return, the batch ends there: the runs for the
    later items do not take place and [post] is not called. *)
Theorem batch_run_cases {U V R : Type} (heap : node -> BaseNode.obj U V)
    (set_order : gset node -> list node) (recursion_limit : nat)
    (prep : U -> outcome (option (list (params V))) * U)
    (post : list (params V) -> U -> outcome R * U)
    (fuel : nat) (self : Flow.flow U V) (st : Flow.state U V)
    (pr : option (list (params V))) (u : U) :
  prep (user (Flow.world st)) = (Ok pr, u) ->
  (BatchFlow.prep_or_empty pr = [] ->
   BatchFlow._run heap set_order recursion_limit prep post fuel self st
   = ((post [] u).1,
      Flow.State (Env (post [] u).2 (calls (Flow.world st)))
        (Flow.action_map st) (Flow.phases st) (Flow.sched st)
        (Flow.warnings st)))
  ∧ (∀ done bp rest st1 r st2,
       BatchFlow.prep_or_empty pr = done ++ bp :: rest ->
       BatchFlow.batch_loop heap set_order recursion_limit fuel self done
         (Flow.State (Env u (calls (Flow.world st))) (Flow.action_map st)
            (Flow.phases st) (Flow.sched st) (Flow.warnings st))
       = (Ok tt, st1) ->
       Flow._orch heap set_order recursion_limit fuel self
         (Some (dict_merge (Flow.flow_params self) bp)) st1 = (r, st2) ->
       match r with
       | Ok _ => True
       | Raise e =>
           BatchFlow._run heap set_order recursion_limit prep post fuel self
             st = (Raise e, st2)
       | Diverge =>
           BatchFlow._run heap set_order recursion_limit prep post fuel self
             st = (Diverge, st2)
       end).
Proof.
  intros Hprep. split.
  - intros Hnil. unfold BatchFlow._run. unfold_monad.
    unfold Flow.lift_env, lift_user. cbn. rewrite Hprep. cbn.
    rewrite Hnil. cbn. by destruct (post [] u).
  - intros done bp rest st1 r st2 Hpr Hdone Horch.
    unfold BatchFlow._run. unfold_monad.
    unfold Flow.lift_env, lift_user. cbn. rewrite Hprep. cbn.
    rewrite Hpr, FlowRunSpec.batch_loop_app, Hdone.
    cbn [BatchFlow.batch_loop]. unfold_monad. rewrite Horch.
    by destruct r.
Qed.

Lemma batch_run_cases_witness :
  BatchFlow._run (R:=nat) Examples.diamond elements 1000
    (fun u => (Ok None, u)) (fun pr u => (Ok (length pr), u ++ [7])) 10
    (Examples.flow_from (Some 0)) (Flow.fresh (Env [] []))
  = (Ok 0, Flow.fresh (Env [7] []))
  ∧ (BatchFlow._run (R:=nat)
       (fun _ =>
          BaseNode.Obj (U:=list node) (V:=nat) []
            (fun p u => match dict_get p "x"%string with
                        | Some 2 => (Raise (UserException 1), u)
                        | _ => (Ok 0, u ++ [0])
                        end)
            (fun _ => BaseNode.default_exec (fun v u => (Ok v, u)))
            (fun _ _ _ u => (Ok None, u)))
       elements 1000
       (fun u => (Ok (Some [[("x"%string, 1)]; [("x"%string, 2)];
                            [("x"%string, 3)]]), u))
       (fun pr u => (Ok (length pr), u ++ [7])) 10
       (Examples.flow_from (Some 0)) (Flow.fresh (Env [] []))).1
    = Raise (UserException 1).
Proof.
  split.
  - exact (proj1 (batch_run_cases (R:=nat) Examples.diamond elements 1000
                    (fun u => (Ok None, u))
                    (fun pr u => (Ok (length pr), u ++ [7])) 10
                    (Examples.flow_from (Some 0)) (Flow.fresh (Env [] []))
                    None [] eq_refl) eq_refl).
  - match goal with
    | |- (BatchFlow._run ?h ?o ?l ?pre ?post ?f ?self ?st).1 = _ =>
        pose proof (proj2 (batch_run_cases (R:=nat) h o l pre post f self
                             st _ [] eq_refl)
                      [[("x"%string, 1)]] [("x"%string, 2)]
                      [[("x"%string, 3)]]
                      (BatchFlow.batch_loop h o l f self
                         [[("x"%string, 1)]]
                         (Flow.fresh (Env [] []))).2
                      (Raise (UserException 1))
                      (Flow.State (Env [0] []) ∅
                         [(Prep, 0); (Exec, 0); (Post, 0); (Prep, 0)] [] [])
                      eq_refl) as H
    end.
    cbv beta iota in H. rewrite H; [reflexivity|..];
      vm_compute; reflexivity.
Defined.

(** X17: [run] on a flow: it warns exactly when the flow itself has
    successors, calls the flow's [prep], runs the graph with the flow's
    own parameters, and returns what the flow's [post] makes of the action
    of the start node; with the [post] that [Flow] defines, the result
    of [run] is the action recorded for the start node, never [None]. *)
Theorem flow_run_returns_start_action {U V : Type}
    (heap : node -> BaseNode.obj U V) (set_order : gset node -> list node)
    (recursion_limit fuel : nat) (self : Flow.flow U V)
    (st : Flow.state U V) (x : option string) (st' : Flow.state U V) :
  Flow.run heap set_order recursion_limit fuel self st = (Ok x, st') ->
  ∃ s v u0 act w1 u1,
    Flow.start_node self = Some s
    ∧ Flow.flow_prep self (user (Flow.world st)) = (Ok v, u0)
    ∧ Flow.lifecycle heap (Flow.flow_params self) s
        (Env u0 (calls (Flow.world st))) = (Ok act, w1)
    ∧ Flow.flow_post self v (Some (or_default act)) u1
      = (Ok x, user (Flow.world st'))
    ∧ (Flow.flow_post self = Flow.default_post ->
       x = Some (or_default act))
    ∧ Flow.warnings st'
      = Flow.warnings st
        ++ if decide (Flow.flow_successors self = []) then []
           else [WontRunSuccessors].
Proof.
  intros Hrun. unfold Flow.run, Flow._run in Hrun.
  set (ws := Flow.warnings st
             ++ if decide (Flow.flow_successors self = []) then []
                else [WontRunSuccessors]).
  set (st0 := Flow.State (Flow.world st) (Flow.action_map st)
                (Flow.phases st) (Flow.sched st) ws).
  assert (Hwarn : (match Flow.flow_successors self with
                   | [] => mret tt
                   | _ :: _ => Flow.warn WontRunSuccessors
                   end) st = (Ok tt, st0)).
  { subst st0 ws. destruct (Flow.flow_successors self); cbn.
    - rewrite app_nil_r. by destruct st.
    - done. }
  unfold_monad. rewrite Hwarn in Hrun.
  unfold Flow.lift_env at 1, lift_user at 1 in Hrun.
  cbn [Flow.world st0 user calls] in Hrun.
  destruct (Flow.flow_prep self (user (Flow.world st))) as [[v| |] u0]
    eqn:Hprep; [|done..].
  cbn [Flow.world Flow.action_map Flow.phases Flow.sched Flow.warnings st0]
    in Hrun.
  set (st1 := Flow.State (Env u0 (calls (Flow.world st)))
                (Flow.action_map st) (Flow.phases st) (Flow.sched st) ws)
    in *.
  pose proof (RunSpec.warned_orch heap set_order recursion_limit ws fuel
                self None st1 eq_refl) as Hws.
  destruct (Flow._orch heap set_order recursion_limit fuel self None st1)
    as [[o| |] st2] eqn:Horch; [|done..].
  destruct (FlowRunSpec.orch_result heap set_order recursion_limit fuel
              self None st1 o st2 Horch) as (s & act & w1 & Hs & Hlife & ->).
  unfold Flow.lift_env, lift_user in Hrun.
  destruct (Flow.flow_post self v (Some (or_default act))
              (user (Flow.world st2))) as [r u3] eqn:Hpost.
  injection Hrun as Hr Hst'. subst r st'.
  exists s, v, u0, act, w1, (user (Flow.world st2)).
  split; [done|]. split; [done|]. split; [done|]. split; [done|].
  split; [|exact Hws].
  intros Hdef. rewrite Hdef in Hpost. unfold Flow.default_post in Hpost.
  by injection Hpost as <- _.
Qed.

Lemma flow_run_returns_start_action_witness :
  ∃ s v u0 act w1 u1,
    Flow.start_node (Examples.flow_from (Some 0)) = Some s
    ∧ Flow.flow_prep (Examples.flow_from (Some 0)) [] = (Ok v, u0)
    ∧ Flow.lifecycle Examples.diamond [] s (Env u0 []) = (Ok act, w1)
    ∧ Flow.flow_post (Examples.flow_from (Some 0)) v (Some (or_default act))
        u1
      = (Ok (Some "default"%string),
         user (Flow.world
                 (Flow.run Examples.diamond elements 1000 10
                    (Examples.flow_from (Some 0))
                    (Flow.fresh (Env [] []))).2))
    ∧ (Flow.flow_post (Examples.flow_from (Some 0)) = Flow.default_post ->
       Some "default"%string = Some (or_default act))
    ∧ Flow.warnings
        (Flow.run Examples.diamond elements 1000 10
           (Examples.flow_from (Some 0)) (Flow.fresh (Env [] []))).2
      = [] ++ if decide (Flow.flow_successors
                           (Examples.flow_from (Some 0)) = [])
              then [] else [WontRunSuccessors].
Proof.
  apply (flow_run_returns_start_action Examples.diamond elements 1000 10
           (Examples.flow_from (Some 0)) (Flow.fresh (Env [] []))).
  vm_compute. reflexivity.
Defined.
